(** * Shazale backend: the upload endpoint, the result merger and the
    provider resolver of [core/views.py], embedded and verified.

    The development follows the source file from the leaves up:

    - [Py]        the fragment of Python values and [str] methods the view uses;
    - [Merge]     [UploadView._combine_results], over a store of dict objects;
    - [Providers] [UploadView._get_providers], over an oracle of HTTP answers;
    - [Upload]    [UploadView.post] and [UploadView._process_audio], over the
                  two tables of [core/models.py];
    - [Clients]   [UploadView._get_youtube_results] and
                  [UploadView._get_tmdb_streaming_availability], and the
                  endpoint run against the three services.

    A [str] is modelled by the [string] of its UTF-8 bytes.  Concatenation,
    comparison, [startswith], [endswith], [in] and the replacement of one
    ASCII character by another are the same on the bytes as on the
    characters.  [lower] and [strip] are Python's on ASCII text only: what is
    stated about the text they compute is stated for ASCII text. *)

From Stdlib Require Import ZArith String Ascii List Bool Lia DecimalString.
From stdpp Require Import gmap strings list fin_maps.

Local Open Scope string_scope.
Local Open Scope list_scope.
Local Open Scope Z_scope.

(* ===================================================================== *)
(** ** Python values and string methods *)
(* ===================================================================== *)

Module Py.

(** Values that occur as fields of a result record.  Anything that is neither
    [None] nor a string only matters through its truth value and through the
    fact that it has no string methods; numbers and booleans stand for it. *)
Inductive scalar :=
| SNone
| SBool (b : bool)
| SInt (n : Z)
| SStr (s : string).

#[global] Instance scalar_eq_dec : EqDecision scalar.
Proof. solve_decision. Defined.

(** [bool(v)] *)
Definition truthy (v : scalar) : bool :=
  match v with
  | SNone => false
  | SBool b => b
  | SInt n => negb (n =? 0)
  | SStr s => negb (String.eqb s "")
  end.

(** [type(v).__name__] *)
Definition type_name (v : scalar) : string :=
  match v with
  | SNone => "NoneType"
  | SBool _ => "bool"
  | SInt _ => "int"
  | SStr _ => "str"
  end.

(** Exceptions, with the text [str(e)] gives. *)
Inductive exn :=
| AttributeError (msg : string)
| KeyError (msg : string)
| TypeError (msg : string)
| DatabaseError (msg : string)
| RequestException (msg : string).

Definition exn_str (e : exn) : string :=
  match e with
  | AttributeError m | KeyError m | TypeError m
  | DatabaseError m | RequestException m => m
  end.

Definition no_attribute (ty attr : string) : exn :=
  AttributeError ("'" +:+ ty +:+ "' object has no attribute '" +:+ attr +:+ "'").

Inductive res (A : Type) :=
| Ok (a : A)
| Raise (e : exn).
Arguments Ok {A} a.
Arguments Raise {A} e.

(** [res] is the error monad: [x ← m; k] stops at the first exception. *)
#[global] Instance res_ret : MRet res := λ A a, Ok a.
#[global] Instance res_bind : MBind res :=
  λ A B k r, match r with Ok a => k a | Raise e => Raise e end.

(** *** ASCII text *)

Definition is_ascii (c : ascii) : bool := (nat_of_ascii c <? 128)%nat.

(** Text made of ASCII characters only. *)
Fixpoint ascii_text (s : string) : bool :=
  match s with
  | EmptyString => true
  | String c s' => is_ascii c && ascii_text s'
  end.

(** *** [str.lower], [str.strip], [str.startswith], [str.endswith], [in] *)

(** [str.lower] on ASCII text folds the letters [A-Z] and nothing else; on
    other text it also folds letters outside ASCII, which this function
    leaves as they are. *)
Definition lower_ascii (c : ascii) : ascii :=
  let n := nat_of_ascii c in
  if ((65 <=? n) && (n <=? 90))%nat then ascii_of_nat (n + 32) else c.

Fixpoint lower (s : string) : string :=
  match s with
  | EmptyString => EmptyString
  | String c s' => String (lower_ascii c) (lower s')
  end.

(** [c.isspace()] on ASCII: tab, newline, vertical tab, form feed, carriage
    return, the four separators 0x1c-0x1f, and space.  [str.strip] also
    removes the white space outside ASCII (U+00A0 and others), which [strip]
    below does not. *)
Definition isspace (c : ascii) : bool :=
  let n := nat_of_ascii c in
  (((9 <=? n) && (n <=? 13)) || ((28 <=? n) && (n <=? 32)))%nat.

Fixpoint lstrip (s : string) : string :=
  match s with
  | EmptyString => EmptyString
  | String c s' => if isspace c then lstrip s' else s
  end.

Definition rstrip (s : string) : string := String.rev (lstrip (String.rev s)).

Definition strip (s : string) : string := rstrip (lstrip s).

Definition startswith (s pre : string) : bool := String.prefix pre s.

Definition endswith (s suf : string) : bool :=
  String.prefix (String.rev suf) (String.rev s).

(** [needle in hay] *)
Fixpoint contains (needle hay : string) : bool :=
  String.prefix needle hay ||
  match hay with
  | EmptyString => false
  | String _ hay' => contains needle hay'
  end.

(** [v.lower()], [v.strip()], [v.endswith(suf)] on an arbitrary value: only
    strings have these attributes. *)
Definition str_method {A} (attr : string) (f : string -> A) (v : scalar) : res A :=
  match v with
  | SStr s => Ok (f s)
  | _ => Raise (no_attribute (type_name v) attr)
  end.

End Py.
Import Py.

(* ===================================================================== *)
(** ** The result merger: [UploadView._combine_results] *)
(* ===================================================================== *)

Module Merge.

(** A result record is a Python [dict] object.  The merger writes into the
    records it is given ([result['thumbnail_url'] = ...]), and the same object
    can sit in both lists, so records live in a store and lists hold
    references to them. *)
Abbreviation dict := (gmap string scalar).
Abbreviation loc := nat.
Abbreviation store := (gmap nat (gmap string scalar)).

(** An element of a result list: a reference to a dict, or some other value. *)
Inductive item :=
| IDict (l : loc)
| IOther (v : scalar).

#[global] Instance item_eq_dec : EqDecision item.
Proof. solve_decision. Defined.

(** An argument of the merger: a list, or anything else. *)
Inductive pyobj :=
| OList (xs : list item)
| ONotList (x : item).

Definition isinstance_dict (x : item) : bool :=
  match x with IDict _ => true | IOther _ => false end.

(** Computations that read and write the store and may raise; what was
    written before an exception stays written. *)
Definition Eff (A : Type) : Type := store -> store * res A.

Definition ret {A} (a : A) : Eff A := fun h => (h, Ok a).
Definition raise {A} (e : exn) : Eff A := fun h => (h, Raise e).
Definition lift {A} (r : res A) : Eff A := fun h => (h, r).
Definition bind {A B} (m : Eff A) (k : A -> Eff B) : Eff B :=
  fun h =>
    match m h with
    | (h', Ok a) => k a h'
    | (h', Raise e) => (h', Raise e)
    end.

Notation "'do' x <- m ; k" := (bind m (fun x => k))
  (at level 10, x name, m at level 100, k at level 200, only parsing).
Notation "'run' m ; k" := (bind m (fun _ => k))
  (at level 10, m at level 100, k at level 200, only parsing).

(** A reference always points at a live object in Python; the lookup of a
    location outside the store is kept total by raising. *)
Definition deref (l : loc) : Eff dict :=
  fun h =>
    match h !! l with
    | Some d => (h, Ok d)
    | None => (h, Raise (KeyError "dangling reference"))
    end.

(** [x.get(key, dflt)] *)
Definition get_default (x : item) (key : string) (dflt : scalar) : Eff scalar :=
  match x with
  | IDict l => do d <- deref l ; ret (default dflt (d !! key))
  | IOther v => raise (no_attribute (type_name v) "get")
  end.

(** [x.get(key)] *)
Definition get (x : item) (key : string) : Eff scalar := get_default x key SNone.

(** [x[key]] *)
Definition getitem (x : item) (key : string) : Eff scalar :=
  match x with
  | IDict l =>
      do d <- deref l ;
      match d !! key with
      | Some v => ret v
      | None => raise (KeyError ("'" +:+ key +:+ "'"))
      end
  | IOther v => raise (TypeError ("'" +:+ type_name v +:+ "' object is not subscriptable"))
  end.

(** [x[key] = v] *)
Definition setitem (x : item) (key : string) (v : scalar) : Eff unit :=
  match x with
  | IDict l =>
      do d <- deref l ;
      fun h => (<[l := <[key := v]> d]> h, Ok tt)
  | IOther w =>
      raise (TypeError ("'" +:+ type_name w +:+ "' object does not support item assignment"))
  end.

Definition default_thumbnail : string :=
  "https://via.placeholder.com/500x750/cccccc/000000?text=No+Image".

(** [if not r.get('thumbnail_url') or r['thumbnail_url'].endswith("None"):
        r['thumbnail_url'] = default_thumbnail] *)
Definition ensure_thumbnail (r : item) : Eff unit :=
  do t <- get r "thumbnail_url" ;
  do bad <- (if negb (truthy t) then ret true
             else do v <- getitem r "thumbnail_url" ;
                  lift (str_method "endswith" (fun s => endswith s "None") v)) ;
  if bad : bool then setitem r "thumbnail_url" (SStr default_thumbnail) else ret tt.

(** [for result in youtube_results: ...; combined.append(result)] *)
Fixpoint youtube_loop (rs : list item) (combined : list item) : Eff (list item) :=
  match rs with
  | [] => ret combined
  | result :: rs' =>
      run ensure_thumbnail result ;
      youtube_loop rs' (combined ++ [result])
  end.

(** [{r.get('title', '').lower().strip() for r in youtube_results
      if isinstance(r, dict) and r.get('title')}] *)
Fixpoint title_set (rs : list item) (acc : gset string) : Eff (gset string) :=
  match rs with
  | [] => ret acc
  | r :: rs' =>
      do keep <- (if isinstance_dict r then do t <- get r "title" ; ret (truthy t)
                  else ret false) ;
      if keep : bool then
        do t <- get_default r "title" (SStr "") ;
        do low <- lift (str_method "lower" lower t) ;
        title_set rs' ({[strip low]} ∪ acc)
      else title_set rs' acc
  end.

(** [for tmdb_res in tmdb_results: ...] *)
Fixpoint tmdb_loop (ts : list item) (combined : list item) (youtube_titles : gset string)
  : Eff (list item) :=
  match ts with
  | [] => ret combined
  | tmdb_res :: ts' =>
      do skip <- (if negb (isinstance_dict tmdb_res) then ret true
                  else do t <- get tmdb_res "title" ; ret (negb (truthy t))) ;
      if skip : bool then tmdb_loop ts' combined youtube_titles
      else
        do t <- getitem tmdb_res "title" ;
        do low <- lift (str_method "lower" lower t) ;
        let tmdb_title := strip low in
        if bool_decide (tmdb_title ∈ youtube_titles)
        then tmdb_loop ts' combined youtube_titles
        else
          run ensure_thumbnail tmdb_res ;
          tmdb_loop ts' (combined ++ [tmdb_res]) ({[tmdb_title]} ∪ youtube_titles)
  end.

(** The body of the [try] once both arguments are known to be lists. *)
Definition combine_lists (youtube_results tmdb_results : list item) : Eff (list item) :=
  do combined <- youtube_loop youtube_results [] ;
  do youtube_titles <- title_set youtube_results ∅ ;
  tmdb_loop tmdb_results combined youtube_titles.

(** [youtube_results if isinstance(youtube_results, list) else []] *)
Definition fallback (youtube_results : pyobj) : list item :=
  match youtube_results with
  | OList ys => ys
  | ONotList _ => []
  end.

(** The two [isinstance(..., list)] tests are the match on the arguments; the
    [except Exception] branch is the [Raise] case of the body. *)
Definition _combine_results (youtube_results tmdb_results : pyobj) (h : store)
  : store * list item :=
  match youtube_results, tmdb_results with
  | OList ys, OList ts =>
      match combine_lists ys ts h with
      | (h', Ok combined) => (h', combined)
      | (h', Raise _) => (h', fallback youtube_results)
      end
  | _, _ => (h, fallback youtube_results)
  end.

(** *** What the merger computes, in the words of its description *)

(** [x[key]] read off the store, for a reference to a live record. *)
Definition field (h : store) (x : item) (key : string) : option scalar :=
  match x with
  | IDict l => h !! l ≫= (.!! key)
  | IOther _ => None
  end.

(** A field usable by the merger: absent, falsy, or a string. *)
Definition field_ok (o : option scalar) : bool :=
  match o with
  | None => true
  | Some (SStr _) => true
  | Some v => negb (truthy v)
  end.

(** A well-formed record: a live mapping whose title and thumbnail, when
    given, are text or falsy. *)
Definition wf_item (h : store) (x : item) : bool :=
  match x with
  | IDict l => bool_decide (is_Some (h !! l))
               && field_ok (field h x "title")
               && field_ok (field h x "thumbnail_url")
  | IOther _ => false
  end.

Definition wf_list (h : store) (xs : list item) : bool := forallb (wf_item h) xs.


(** Normalised title: lowercased, then trimmed. *)
Definition normalize (t : string) : string := strip (lower t).





(** The non-empty title of a record, if it has one. *)
Definition record_title (h : store) (x : item) : option string :=
  match field h x "title" with
  | Some (SStr t) => if String.eqb t "" then None else Some t
  | _ => None
  end.

(** Missing or invalid thumbnail: absent, falsy, or ending in the text None. *)
Definition thumbnail_invalid (d : dict) : bool :=
  match d !! "thumbnail_url" with
  | None => true
  | Some (SStr s) => String.eqb s "" || endswith s "None"
  | Some v => negb (truthy v)
  end.

(** The thumbnail policy on one record. *)
Definition with_placeholder (d : dict) : dict :=
  if thumbnail_invalid d then <["thumbnail_url" := SStr default_thumbnail]> d else d.

Definition placeholder_at (h : store) (x : item) : store :=
  match x with
  | IDict l => alter with_placeholder l h
  | IOther _ => h
  end.

(** The store once every record of [xs] went through the thumbnail policy. *)
Definition placeholders (xs : list item) (h : store) : store :=
  foldl placeholder_at h xs.

(** Titles seen in the first list. *)
Fixpoint seen_titles (h : store) (ys : list item) : gset string :=
  match ys with
  | [] => ∅
  | y :: ys' =>
      match record_title h y with
      | Some t => {[normalize t]} ∪ seen_titles h ys'
      | None => seen_titles h ys'
      end
  end.

(** Records of the second list that have a non-empty title not seen so far,
    first occurrence wins. *)
Fixpoint append_unseen (h : store) (seen : gset string) (ts : list item) : list item :=
  match ts with
  | [] => []
  | x :: ts' =>
      match record_title h x with
      | Some t =>
          if bool_decide (normalize t ∈ seen) then append_unseen h seen ts'
          else x :: append_unseen h ({[normalize t]} ∪ seen) ts'
      | None => append_unseen h seen ts'
      end
  end.

Definition merge_spec (h : store) (ys ts : list item) : list item :=
  ys ++ append_unseen h (seen_titles h ys) ts.




(** Two stores that differ at most in the thumbnails of their records. *)
Definition thumbs_only (h h' : store) : Prop :=
  ∀ x key, (is_Some (h !! x) ↔ is_Some (h' !! x)) ∧
           (key ≠ "thumbnail_url" → field h (IDict x) key = field h' (IDict x) key).

(** A record with a truthy title, as the second loop requires. *)
Definition titled (h : store) (x : item) : bool :=
  match field h x "title" with
  | Some v => truthy v
  | None => false
  end.

(** Every truthy title among [x]'s fields is text whose normal form is in [seen]. *)
Definition covered (h : store) (seen : gset string) (x : item) : Prop :=
  ∀ v, field h x "title" = Some v → truthy v = true →
       ∃ t, v = SStr t ∧ normalize t ∈ seen.

(** A dict literal. *)
Definition rec (kv : list (string * scalar)) : dict := list_to_map kv.

End Merge.
Import Merge.

(* ===================================================================== *)
(** ** The provider resolver: [UploadView._get_providers] *)
(* ===================================================================== *)

Module Providers.

(** The resolver on answers of the documented shape: [results] an object of
    regions, each an object with a [link] that is text and a [flatrate] list
    of objects whose [provider_name] is text.  On such answers nothing but a
    failed request can raise, and the [except] clause takes that.  For
    answers of any other shape, and the exceptions they make the resolver
    raise, see [Clients.regions_loop]; the two agree on the answers of this
    shape ([get_providers_documented]). *)

(** One entry of a region's [flatrate] list; [None] when the entry has no
    [provider_name] key. *)
Record provider := { provider_name : option string }.

(** [results[reg]]: the watch-page link ([None] when the key is absent or
    null) and the subscription providers ([[]] when the key is absent). *)
Record region_data := {
  link : option string;
  flatrate : list provider
}.

(** What one [requests.get] followed by [raise_for_status] and [json] yields:
    a [RequestException], or the [results] object of the body, by region. *)
Inductive response :=
| RequestFailed (e : exn)
| Json (results : gmap string region_data).

(** The service, as the resolver sees it: the answer to the [n]-th request
    of a call, for a URL and a [region] parameter. *)
Definition http := nat -> string -> string -> response.

Record provider_urls := {
  netflix : option string;
  prime : option string;
  hulu : option string;
  disney : option string;
  tmdb_watch : option string
}.

Definition no_urls : provider_urls :=
  {| netflix := None; prime := None; hulu := None; disney := None; tmdb_watch := None |}.

(** Truth value of a slot: [None] and the empty string are falsy. *)
Definition filled (u : option string) : bool :=
  match u with
  | Some s => negb (String.eqb s "")
  | None => false
  end.

Definition set_netflix (p : provider_urls) (u : option string) : provider_urls :=
  {| netflix := u; prime := prime p; hulu := hulu p; disney := disney p;
     tmdb_watch := tmdb_watch p |}.
Definition set_prime (p : provider_urls) (u : option string) : provider_urls :=
  {| netflix := netflix p; prime := u; hulu := hulu p; disney := disney p;
     tmdb_watch := tmdb_watch p |}.
Definition set_hulu (p : provider_urls) (u : option string) : provider_urls :=
  {| netflix := netflix p; prime := prime p; hulu := u; disney := disney p;
     tmdb_watch := tmdb_watch p |}.
Definition set_disney (p : provider_urls) (u : option string) : provider_urls :=
  {| netflix := netflix p; prime := prime p; hulu := hulu p; disney := u;
     tmdb_watch := tmdb_watch p |}.
Definition set_tmdb_watch (p : provider_urls) (u : option string) : provider_urls :=
  {| netflix := netflix p; prime := prime p; hulu := hulu p; disney := disney p;
     tmdb_watch := u |}.

(** The body of [for provider in flatrate]. *)
Definition scan_provider (p : provider_urls) (prov : provider) : provider_urls :=
  let name := lower (default "" (provider_name prov)) in
  if contains "netflix" name && negb (filled (netflix p)) then
    set_netflix p (tmdb_watch p)
  else if (contains "prime" name || contains "amazon" name) && negb (filled (prime p)) then
    set_prime p (tmdb_watch p)
  else if contains "hulu" name && negb (filled (hulu p)) then
    set_hulu p (tmdb_watch p)
  else if contains "disney" name && negb (filled (disney p)) then
    set_disney p (tmdb_watch p)
  else p.

(** What a region with data does to the slots. *)
Definition scan_region (p : provider_urls) (rd : region_data) : provider_urls :=
  foldl scan_provider (set_tmdb_watch p (link rd)) (flatrate rd).

(** [any(url for key, url in provider_urls.items() if key != 'tmdb_watch')] *)
Definition any_named (p : provider_urls) : bool :=
  filled (netflix p) || filled (prime p) || filled (hulu p) || filled (disney p).

(** [for reg in fallback_regions], from request number [n] and slots [p].
    Besides the slots it returns, the loop is made to report its history: the
    region of every request it sent, with the slots at the end of that
    iteration. *)
Fixpoint regions_loop (get : http) (base_url : string) (regs : list string)
    (n : nat) (p : provider_urls) : provider_urls * list (string * provider_urls) :=
  match regs with
  | [] => (p, [])
  | reg :: regs' =>
      let continue (p' : provider_urls) :=
        let (final, history) := regions_loop get base_url regs' (S n) p' in
        (final, (reg, p') :: history) in
      match get n base_url reg with
      | RequestFailed _ => continue p
      | Json results =>
          match results !! reg with
          | None => continue p
          | Some rd =>
              let p' := scan_region p rd in
              if any_named p' then (p', [(reg, p')]) else continue p'
          end
      end
  end.

Definition fallback_regions (region : string) : list string :=
  [region; "US"; "GB"; "IN"].

Definition providers_url (tmdb_id media_type : string) : string :=
  "https://api.themoviedb.org/3/" +:+ media_type +:+ "/" +:+ tmdb_id +:+ "/watch/providers".

Definition get_providers_run (get : http) (tmdb_id media_type region : string)
  : provider_urls * list (string * provider_urls) :=
  regions_loop get (providers_url tmdb_id media_type) (fallback_regions region) 0 no_urls.

Definition _get_providers (get : http) (tmdb_id media_type region : string) : provider_urls :=
  fst (get_providers_run get tmdb_id media_type region).

Definition history (get : http) (tmdb_id media_type region : string)
  : list (string * provider_urls) :=
  snd (get_providers_run get tmdb_id media_type region).

(** The four named platform slots. *)
Inductive platform := Netflix | Prime | Hulu | Disney.

Definition slot (s : platform) (p : provider_urls) : option string :=
  match s with
  | Netflix => netflix p
  | Prime => prime p
  | Hulu => hulu p
  | Disney => disney p
  end.

(** The slots before the [i]-th request of a history that started from [p0]. *)
Definition slots_before (p0 : provider_urls) (hist : list (string * provider_urls)) (i : nat)
  : option provider_urls :=
  match i with
  | O => Some p0
  | S j => snd <$> hist !! j
  end.

(** One iteration, read off the response: the slots it leaves, and whether
    it ends the loop. *)
Definition after_region (get : http) (base_url reg : string) (n : nat) (p : provider_urls)
  : provider_urls :=
  match get n base_url reg with
  | RequestFailed _ => p
  | Json results =>
      match results !! reg with
      | None => p
      | Some rd => scan_region p rd
      end
  end.

(** A request that brings no data for the region asked: it failed, or its
    body has no entry under that exact region code. *)
Definition no_data (r : response) (reg : string) : bool :=
  match r with
  | RequestFailed _ => true
  | Json results => bool_decide (results !! reg = None)
  end.

End Providers.

(* ===================================================================== *)
(** ** The upload endpoint: [UploadView.post] *)
(* ===================================================================== *)

Module Upload.

(** *** Requests and responses *)

Record uploaded_file := {
  name : string;
  content_type : string;
  size : Z
}.

(** [request.FILES.get('file')] *)
Record request := { FILES_file : option uploaded_file }.

(** *** The tables of [core/models.py] (timestamps left out) *)

Record SearchResult := {
  sr_id : nat;
  title : scalar;
  platform : scalar;
  url : scalar;
  thumbnail_url : scalar;
  duration : scalar;
  channel_name : scalar;
  view_count : scalar;
  netflix_url : scalar;
  prime_url : scalar;
  hulu_url : scalar;
  disney_url : scalar
}.

Record AudioSearch := {
  as_id : nat;
  audio_file : uploaded_file;
  search_results : list nat;
  is_processed : bool;
  processing_time : option Z
}.

Record database := {
  search_result_rows : list SearchResult;
  audio_search_rows : list AudioSearch
}.

(** [round(processing_time, 2)], kept symbolic. *)
Inductive rounded := Round2 (seconds : Z).

Inductive body :=
| ErrorBody (error : string)
| ResultsBody (search_id : nat) (time : rounded) (results : list SearchResult).

Record response := {
  status_code : Z;
  data : body
}.

Definition HTTP_200_OK : Z := 200.
Definition HTTP_400_BAD_REQUEST : Z := 400.
Definition HTTP_500_INTERNAL_SERVER_ERROR : Z := 500.

(** *** The outside world of one request *)

(** A JSON value under the [result] key: a scalar (null included) or an object. *)
Inductive jval :=
| JScalar (v : scalar)
| JDict (d : dict).

(** The keys of the fingerprint service's JSON object the view looks at
    ([None]: key absent), and whether it has any other key. *)
Record audd_data := {
  status : option scalar;
  result : option jval;
  more_keys : bool
}.

Inductive audd_body :=
| NotJson (e : exn)
| JsonNotObject (v : scalar)
| JsonObject (d : audd_data).

(** What [requests.post] to the fingerprint service does. *)
Inductive audd_outcome :=
| PostRaised (e : exn)
| HttpResponse (code : Z) (b : audd_body).

(** Everything [post] gets from outside: the fingerprint service's answer,
    what the two enrichment clients return for the recognised track (or
    raise), the dict objects their lists refer to, the measured time, and
    what the storage and the database do: their verdict on the uploaded file
    and on a result row ([Some e]: [create] raises [e], as it does for a file
    name the [FileField] cannot hold or a value a column cannot hold), and
    how many ids each table's sequence skips before the id it hands out (for
    the [AudioSearch] row, and for the [k]-th result row of the request). *)
Record world := {
  audd : audd_outcome;
  youtube : res (list item);
  tmdb : res (list item);
  objects : store;
  elapsed : Z;
  create_error : uploaded_file -> option exn;
  insert_error : dict -> option exn;
  audio_search_skip : nat;
  search_result_skip : nat -> nat
}.

(** *** [_process_audio] *)

Definition _process_audio (o : audd_outcome) : option audd_data :=
  match o with
  | PostRaised _ => None
  | HttpResponse code b =>
      if code =? 200 then
        match b with
        | NotJson _ => None
        | JsonNotObject _ => None
        | JsonObject d =>
            if bool_decide (status d = Some (SStr "success")) && bool_decide (is_Some (result d))
            then Some d
            else None
        end
      else None
  end.

(** *** The ORM calls *)

(** The id a table gives to a new row lies above every id in the table.  A
    sequence never hands out an id twice, so it can be further ahead than the
    highest id present (rows were deleted, other requests took ids): by
    [skip], which is the database's business. *)
Definition next_id (skip : nat) (ids : list nat) : nat :=
  S (foldr Nat.max 0%nat ids + skip).

(** [AudioSearch.objects.create(audio_file=file)]: the call is inside the
    [try], and raises when the file cannot be stored or the row not inserted. *)
Definition create_audio_search (w : world) (file : uploaded_file) (db : database)
  : res (nat * database) :=
  match create_error w file with
  | Some e => Raise e
  | None =>
      let id := next_id (audio_search_skip w) (as_id <$> audio_search_rows db) in
      Ok (id,
          {| search_result_rows := search_result_rows db;
             audio_search_rows := audio_search_rows db ++
               [{| as_id := id; audio_file := file; search_results := [];
                   is_processed := false; processing_time := None |}] |})
  end.

(** The row [SearchResult.objects.create( **result_data)] makes, as the
    instance returned holds it and the response gives it: the values as
    given, columns not given taking their defaults.  (The table itself keeps
    a value that is not text as its text; for a record of text values and
    [None], see [Clients.text_record], the two are the same.) *)
Definition row_of (id : nat) (d : dict) : SearchResult :=
  {| sr_id := id;
     title := default (SStr "") (d !! "title");
     platform := default (SStr "YouTube") (d !! "platform");
     url := default (SStr "") (d !! "url");
     thumbnail_url := default SNone (d !! "thumbnail_url");
     duration := default SNone (d !! "duration");
     channel_name := default SNone (d !! "channel_name");
     view_count := default SNone (d !! "view_count");
     netflix_url := default SNone (d !! "netflix_url");
     prime_url := default SNone (d !! "prime_url");
     hulu_url := default SNone (d !! "hulu_url");
     disney_url := default SNone (d !! "disney_url") |}.

Definition update_audio_search (id : nat) (f : AudioSearch -> AudioSearch) (db : database)
  : database :=
  {| search_result_rows := search_result_rows db;
     audio_search_rows :=
       map (fun a => if Nat.eqb (as_id a) id then f a else a) (audio_search_rows db) |}.

(** [audio_search.search_results.add(result)], and below the [save] that
    ends the request: both write into rows the request has just created
    values the view made itself (an id, a flag, a time), so that nothing in
    the request can make them fail. *)
Definition add_result (id rid : nat) : database -> database :=
  update_audio_search id (fun a =>
    {| as_id := as_id a; audio_file := audio_file a;
       search_results := search_results a ++ [rid];
       is_processed := is_processed a; processing_time := processing_time a |}).

(** [audio_search.is_processed = True; audio_search.processing_time = t;
     audio_search.save()] *)
Definition mark_processed (id : nat) (t : Z) : database -> database :=
  update_audio_search id (fun a =>
    {| as_id := as_id a; audio_file := audio_file a;
       search_results := search_results a;
       is_processed := true; processing_time := Some t |}).

(** *** The body of [post] *)

(** [for result_data in combined_results: ...]: the rows created so far are
    in the database whether or not a later iteration raises. *)
Fixpoint save_results (w : world) (h : store) (audio_search : nat)
    (combined_results : list item) (search_results : list SearchResult) (db : database)
  : database * res (list SearchResult) :=
  match combined_results with
  | [] => (db, Ok search_results)
  | result_data :: rest =>
      match get result_data "url" h with
      | (_, Raise e) => (db, Raise e)
      | (_, Ok u) =>
          if negb (truthy u) then save_results w h audio_search rest search_results db
          else
            match result_data with
            | IOther v => (db, Raise (TypeError "argument after ** must be a mapping"))
            | IDict l =>
                let d := default ∅ (h !! l) in
                match insert_error w d with
                | Some e => (db, Raise e)
                | None =>
                    let r := row_of (next_id (search_result_skip w (length search_results))
                                       (sr_id <$> search_result_rows db)) d in
                    let db1 := {| search_result_rows := search_result_rows db ++ [r];
                                  audio_search_rows := audio_search_rows db |} in
                    save_results w h audio_search rest (search_results ++ [r])
                      (add_result audio_search (sr_id r) db1)
                end
            end
      end
  end.

(** [_get_youtube_results] and [_get_tmdb_streaming_availability] start with
    [audd_result.get('title', '')]; past that, their outcome is the world's. *)
Definition enrich (outcome : res (list item)) (audd_result : jval) : res (list item) :=
  match audd_result with
  | JDict _ => outcome
  | JScalar v => Raise (no_attribute (type_name v) "get")
  end.

Definition recognition_failed : response :=
  {| status_code := HTTP_500_INTERNAL_SERVER_ERROR;
     data := ErrorBody "Audio recognition failed or no result found" |}.

(** The [try] block from its second statement on, [audio_search] being the
    id of the row just created. *)
Definition process_created (audio_search : nat) (w : world) (db : database)
  : database * res response :=
  let recognition_result := _process_audio (audd w) in
  match recognition_result with
  | None => (db, Ok recognition_failed)
  | Some rr =>
      if negb (bool_decide (is_Some (status rr)) || bool_decide (is_Some (result rr)) || more_keys rr)
      then (db, Ok recognition_failed)
      else
      match result rr with
      | None => (db, Ok recognition_failed)
      | Some (JScalar SNone) => (db, Ok recognition_failed)
      | Some audd_result =>
          match enrich (youtube w) audd_result with
          | Raise e => (db, Raise e)
          | Ok youtube_results =>
              match enrich (tmdb w) audd_result with
              | Raise e => (db, Raise e)
              | Ok tmdb_results =>
                  let (h, combined_results) :=
                    _combine_results (OList youtube_results) (OList tmdb_results) (objects w) in
                  match save_results w h audio_search combined_results [] db with
                  | (db, Raise e) => (db, Raise e)
                  | (db, Ok search_results) =>
                      (mark_processed audio_search (elapsed w) db,
                       Ok {| status_code := HTTP_200_OK;
                             data := ResultsBody audio_search (Round2 (elapsed w))
                                       search_results |})
                  end
              end
          end
      end
  end.

(** The [try] block. *)
Definition process (file : uploaded_file) (w : world) (db : database)
  : database * res response :=
  match create_audio_search w file db with
  | Raise e => (db, Raise e)
  | Ok (audio_search, db) => process_created audio_search w db
  end.

Definition bad_request (reason : string) : response :=
  {| status_code := HTTP_400_BAD_REQUEST; data := ErrorBody reason |}.

Definition post (request : request) (w : world) (db : database) : database * response :=
  match FILES_file request with
  | None => (db, bad_request "No file uploaded")
  | Some file =>
      if negb (startswith (content_type file) "audio/") then
        (db, bad_request "File must be an audio file")
      else if 10 * 1024 * 1024 <? size file then
        (db, bad_request "File size must be less than 10MB")
      else
        match process file w db with
        | (db', Ok r) => (db', r)
        | (db', Raise e) =>
            (db', {| status_code := HTTP_500_INTERNAL_SERVER_ERROR;
                     data := ErrorBody ("Processing failed: " +:+ exn_str e) |})
        end
  end.

(** *** The conditions the description speaks of *)

(** A file is present, its MIME type begins with [audio/], and its size is
    at most 10,485,760 bytes. *)
Definition valid_upload (request : request) : bool :=
  match FILES_file request with
  | Some file => String.prefix "audio/" (content_type file) && (size file <=? 10485760)
  | None => false
  end.

(** The upload passes validation and its [AudioSearch] row can be created. *)
Definition stored (request : request) (w : world) : bool :=
  match FILES_file request with
  | Some file => valid_upload request && bool_decide (create_error w file = None)
  | None => false
  end.

(** No match, or a failed response: the request failed or was answered with
    an error status, the body is not a JSON object reporting success, the
    [result] key is missing, or it is null. *)
Definition no_usable_match (o : audd_outcome) : bool :=
  match o with
  | PostRaised _ => true
  | HttpResponse code (JsonObject d) =>
      negb (code =? 200)
      || negb (bool_decide (status d = Some (SStr "success")))
      || match result d with
         | None => true
         | Some (JScalar SNone) => true
         | Some _ => false
         end
  | HttpResponse _ _ => true
  end.

(** The notion of the description: a null result, a missing result key, or a
    malformed or failed response.  An answer is malformed also when its
    [result] is there and is not an object. *)
Definition no_match_or_malformed (o : audd_outcome) : bool :=
  match o with
  | PostRaised _ => true
  | HttpResponse code (JsonObject d) =>
      negb (code =? 200)
      || negb (bool_decide (status d = Some (SStr "success")))
      || match result d with
         | Some (JDict _) => false
         | _ => true
         end
  | HttpResponse _ _ => true
  end.

(** The value under [result] of an answer reporting success, when it is
    neither null nor an object. *)
Definition malformed_result (o : audd_outcome) : option scalar :=
  match o with
  | HttpResponse code (JsonObject d) =>
      if (code =? 200) && bool_decide (status d = Some (SStr "success")) then
        match result d with
        | Some (JScalar v) => if bool_decide (v = SNone) then None else Some v
        | _ => None
        end
      else None
  | _ => None
  end.

Definition has_url (r : SearchResult) : bool := truthy (url r).

End Upload.

(* ===================================================================== *)
(** ** The enrichment clients: [_get_youtube_results] and
       [_get_tmdb_streaming_availability] *)
(* ===================================================================== *)

Module Clients.

(** [str(v)], the way an f-string renders a value. *)
Definition format (v : scalar) : string :=
  match v with
  | SNone => "None"
  | SBool true => "True"
  | SBool false => "False"
  | SInt n => NilZero.string_of_int (Z.to_int n)
  | SStr s => s
  end.

(** [s.replace(old, new)] for one-character [old] and [new]. *)
Fixpoint replace (old new : ascii) (s : string) : string :=
  match s with
  | EmptyString => EmptyString
  | String c s' => String (if Ascii.eqb c old then new else c) (replace old new s')
  end.

(** The four search links both clients put in a record. *)
Definition search_links (q : string) : list (string * scalar) :=
  [ ("netflix_url", SStr ("https://www.netflix.com/search?q=" +:+ q));
    ("prime_url", SStr ("https://www.amazon.com/s?k=" +:+ q +:+ "&i=instant-video"));
    ("hulu_url", SStr ("https://www.hulu.com/search?q=" +:+ q));
    ("disney_url", SStr ("https://www.disneyplus.com/search?q=" +:+ q)) ].

(** *** The bodies the services answer with *)

(** A body is whatever JSON the service sent.  Where the view walks into a
    value with [.get] or [[key]], the value is an object or it is not, and
    then the view raises: [Value v] is such a value (null, a boolean, a
    number, a string; a list raises the same exceptions as a string there).
    The values the view only copies into a record are [scalar]s. *)
Inductive json (A : Type) :=
| Object (a : A)
| Value (v : scalar).
Arguments Object {A} a.
Arguments Value {A} v.

(** [x.get(...)]: only an object has the method. *)
Definition dot_get {A} (x : json A) : res A :=
  match x with
  | Object a => Ok a
  | Value v => Raise (no_attribute (type_name v) "get")
  end.

(** [x[key]], [key] a string: only an object can be indexed by it. *)
Definition subscript {A} (x : json A) : res A :=
  match x with
  | Object a => Ok a
  | Value (SStr _) => Raise (TypeError "string indices must be integers, not 'str'")
  | Value v => Raise (TypeError ("'" +:+ type_name v +:+ "' object is not subscriptable"))
  end.

(** [d[key]] on an object [d]: the value under the key ([None]: no such
    key). *)
Definition at_key {A} (key : string) (o : option A) : res A :=
  match o with
  | Some a => Ok a
  | None => Raise (KeyError ("'" +:+ key +:+ "'"))
  end.

(** A value the view iterates over: a list of elements, or something else.
    (An object in that place yields its keys, which are strings: it is the
    list of them.) *)
Inductive array (A : Type) :=
| Elements (xs : list (json A))
| NotList (v : scalar).
Arguments Elements {A} xs.
Arguments NotList {A} v.

(** [for x in v]: a string yields one-character strings, one per character
    (per byte here: what matters is that they are strings, and whether there
    is one); null, booleans and numbers are not iterable. *)
Definition iterate {A} (x : array A) : res (list (json A)) :=
  match x with
  | Elements xs => Ok xs
  | NotList (SStr s) =>
      Ok ((λ c, Value (SStr (String c EmptyString))) <$> list_ascii_of_string s)
  | NotList v => Raise (TypeError ("'" +:+ type_name v +:+ "' object is not iterable"))
  end.

(** *** The video search *)

(** [item['snippet']], when it is an object: its [title] and [channelTitle]
    keys ([None]: absent) and, under [thumbnails], what is under [high], and
    under that the [url]. *)
Record snippet := {
  snippet_title : option scalar;
  thumbnails : option (json (option (json (option scalar))));
  channelTitle : option scalar
}.

(** One element of [items], when it is an object: under [id], the [videoId];
    and the [snippet]. *)
Record video := {
  video_id : option (json (option scalar));
  video_snippet : option (json snippet)
}.

(** The decoded body, when it is an object: its [items] key. *)
Record youtube_data := { items : option (array video) }.

(** [requests.get], [raise_for_status] and [json]: a [RequestException], or
    the decoded body. *)
Inductive youtube_response :=
| YoutubeFailed (e : exn)
| YoutubeBody (data : json youtube_data).

(** A body that is an object whose [items] is a list. *)
Definition YoutubeJson (xs : list (json video)) : youtube_response :=
  YoutubeBody (Object {| items := Some (Elements xs) |}).

Definition youtube_default_thumbnail : string :=
  "https://img.youtube.com/vi/dQw4w9WgXcQ/hqdefault.jpg".

(** [snippet.get('thumbnails', {}).get('high', {}).get('url', default_thumbnail)] *)
Definition high_thumbnail (sn : snippet) : res scalar :=
  thumbs ← dot_get (default (Object None) (thumbnails sn));
  high ← dot_get (default (Object None) thumbs);
  Ok (default (SStr youtube_default_thumbnail) high).

(** The body of [for item in data.get('items', [])]: the record appended. *)
Definition video_record (query : string) (item : json video) : res dict :=
  item ← subscript item;
  id ← at_key "id" (video_id item);
  id ← subscript id;
  vid ← at_key "videoId" id;
  sn ← at_key "snippet" (video_snippet item);
  let search_query := replace " " "+" query in
  sn ← dot_get sn;
  thumbnail ← high_thumbnail sn;
  Ok (rec ([ ("title", default (SStr "") (snippet_title sn));
             ("platform", SStr "YouTube");
             ("url", SStr ("https://www.youtube.com/watch?v=" +:+ format vid));
             ("thumbnail_url", thumbnail);
             ("duration", SStr "");
             ("channel_name", default (SStr "") (channelTitle sn));
             ("view_count", SStr "") ] ++ search_links search_query)).

Fixpoint youtube_items (query : string) (xs : list (json video)) (results : list dict)
  : res (list dict) :=
  match xs with
  | [] => Ok results
  | item :: xs' =>
      r ← video_record query item;
      youtube_items query xs' (results ++ [r])
  end.

(** [f"{title} {artist}"] *)
Definition query_text (audd_result : dict) : string :=
  let title := default (SStr "") (audd_result !! "title") in
  let artist := default (SStr "") (audd_result !! "artist") in
  format title +:+ " " +:+ format artist.

(** [f"{title} {artist}".strip()] *)
Definition youtube_query (audd_result : dict) : string := strip (query_text audd_result).

(** The records are fresh dicts.  Only a [RequestException] is caught: any
    other exception raised in the [try] leaves the function. *)
Definition _get_youtube_results (audd_result : dict) (response : youtube_response)
  : res (list dict) :=
  let query := youtube_query audd_result in
  if String.eqb query "" then Ok []
  else
    match response with
    | YoutubeFailed _ => Ok []
    | YoutubeBody data =>
        data ← dot_get data;
        xs ← iterate (default (Elements []) (items data));
        youtube_items query xs []
    end.

(** *** The provider requests, whatever the service answers

    [Providers] has the resolver on answers of the documented shape.  Here
    it is once more on any answer, with the exceptions that an answer of
    another shape makes it raise; these are not [RequestException]s and
    leave [_get_providers], and the movie search with it. *)

(** One entry of [flatrate], when it is an object. *)
Record provider := { provider_name : option scalar }.

(** [results[reg]], when it is an object. *)
Record region_data := {
  link : option scalar;
  flatrate : option (array provider)
}.

(** The decoded body, when it is an object: its [results] key, by region
    when that is an object. *)
Record providers_data := {
  regions : option (json (gmap string (json region_data)))
}.

Inductive providers_response :=
| ProvidersFailed (e : exn)
| ProvidersBody (data : json providers_data).

(** The answer to the [n]-th request of a call, for a URL and a region. *)
Definition providers_http := nat -> string -> string -> providers_response.

(** The dict [provider_urls]. *)
Record provider_urls := {
  netflix : scalar;
  prime : scalar;
  hulu : scalar;
  disney : scalar;
  tmdb_watch : scalar
}.

Definition no_urls : provider_urls :=
  {| netflix := SNone; prime := SNone; hulu := SNone; disney := SNone; tmdb_watch := SNone |}.

(** The [if]/[elif] chain on a lowercased provider name. *)
Definition assign (p : provider_urls) (name : string) : provider_urls :=
  if contains "netflix" name && negb (truthy (netflix p)) then
    {| netflix := tmdb_watch p; prime := prime p; hulu := hulu p; disney := disney p;
       tmdb_watch := tmdb_watch p |}
  else if (contains "prime" name || contains "amazon" name) && negb (truthy (prime p)) then
    {| netflix := netflix p; prime := tmdb_watch p; hulu := hulu p; disney := disney p;
       tmdb_watch := tmdb_watch p |}
  else if contains "hulu" name && negb (truthy (hulu p)) then
    {| netflix := netflix p; prime := prime p; hulu := tmdb_watch p; disney := disney p;
       tmdb_watch := tmdb_watch p |}
  else if contains "disney" name && negb (truthy (disney p)) then
    {| netflix := netflix p; prime := prime p; hulu := hulu p; disney := tmdb_watch p;
       tmdb_watch := tmdb_watch p |}
  else p.

(** [for provider in flatrate] *)
Fixpoint scan_flatrate (p : provider_urls) (xs : list (json provider)) : res provider_urls :=
  match xs with
  | [] => Ok p
  | x :: xs' =>
      prov ← dot_get x;
      name ← str_method "lower" lower (default (SStr "") (provider_name prov));
      scan_flatrate (assign p name) xs'
  end.

(** [any(url for key, url in provider_urls.items() if key != 'tmdb_watch')] *)
Definition any_named (p : provider_urls) : bool :=
  truthy (netflix p) || truthy (prime p) || truthy (hulu p) || truthy (disney p).

(** [reg not in results] and [results[reg]] when [results] is not an object:
    a string is searched for [reg] and cannot be indexed by it; null,
    booleans and numbers cannot be searched. *)
Definition region_of_value (reg : string) (v : scalar) : res bool :=
  match v with
  | SStr s =>
      if contains reg s then Raise (TypeError "string indices must be integers, not 'str'")
      else Ok false
  | _ => Raise (TypeError ("argument of type '" +:+ type_name v +:+ "' is not iterable"))
  end.

(** [for reg in fallback_regions], from request number [n] and slots [p]. *)
Fixpoint regions_loop (get : providers_http) (base_url : string) (regs : list string)
    (n : nat) (p : provider_urls) : res provider_urls :=
  match regs with
  | [] => Ok p
  | reg :: regs' =>
      match get n base_url reg with
      | ProvidersFailed _ => regions_loop get base_url regs' (S n) p
      | ProvidersBody data =>
          data ← dot_get data;
          match default (Object ∅) (regions data) with
          | Value v =>
              _ ← region_of_value reg v;
              regions_loop get base_url regs' (S n) p
          | Object results =>
              match results !! reg with
              | None => regions_loop get base_url regs' (S n) p
              | Some region =>
                  region ← dot_get region;
                  let p := {| netflix := netflix p; prime := prime p; hulu := hulu p;
                              disney := disney p;
                              tmdb_watch := default SNone (link region) |} in
                  xs ← iterate (default (Elements []) (flatrate region));
                  p ← scan_flatrate p xs;
                  if any_named p then Ok p
                  else regions_loop get base_url regs' (S n) p
              end
          end
      end
  end.

Definition _get_providers (get : providers_http) (tmdb_id media_type region : string)
  : res provider_urls :=
  regions_loop get (Providers.providers_url tmdb_id media_type)
    (Providers.fallback_regions region) 0 no_urls.

(** An answer of the documented shape, as a body. *)
Definition documented_provider (prov : Providers.provider) : json provider :=
  Object {| provider_name := SStr <$> Providers.provider_name prov |}.

Definition documented_region (rd : Providers.region_data) : json region_data :=
  Object {| link := SStr <$> Providers.link rd;
            flatrate := Some (Elements (documented_provider <$> Providers.flatrate rd)) |}.

Definition documented (r : Providers.response) : providers_response :=
  match r with
  | Providers.RequestFailed e => ProvidersFailed e
  | Providers.Json results =>
      ProvidersBody (Object {| regions := Some (Object (documented_region <$> results)) |})
  end.

Definition slot_value (u : option string) : scalar :=
  match u with
  | Some s => SStr s
  | None => SNone
  end.

Definition documented_urls (p : Providers.provider_urls) : provider_urls :=
  {| netflix := slot_value (Providers.netflix p);
     prime := slot_value (Providers.prime p);
     hulu := slot_value (Providers.hulu p);
     disney := slot_value (Providers.disney p);
     tmdb_watch := slot_value (Providers.tmdb_watch p) |}.

(** *** The movie and TV search *)

(** One element of [results], when it is an object, by the keys the view
    reads ([None]: absent). *)
Record hit := {
  media_type : option scalar;
  hit_id : option scalar;
  poster_path : option scalar;
  hit_title : option scalar;
  hit_name : option scalar
}.

(** The decoded body, when it is an object: its [results] key. *)
Record tmdb_data := { results : option (array hit) }.

Inductive tmdb_response :=
| TmdbFailed (e : exn)
| TmdbBody (data : json tmdb_data).

(** A body that is an object whose [results] is a list. *)
Definition TmdbJson (xs : list (json hit)) : tmdb_response :=
  TmdbBody (Object {| results := Some (Elements xs) |}).

(** [media_type not in ['movie', 'tv']] *)
Definition movie_or_tv (v : scalar) : option string :=
  match v with
  | SStr s => if String.eqb s "movie" || String.eqb s "tv" then Some s else None
  | _ => None
  end.

(** [item.get('title') or item.get('name', '')] *)
Definition movie_title (item : hit) : scalar :=
  let t := default SNone (hit_title item) in
  if truthy t then t else default (SStr "") (hit_name item).

(** The poster, or the placeholder. *)
Definition poster (item : hit) : string :=
  let p := default SNone (poster_path item) in
  if truthy p then "https://image.tmdb.org/t/p/w500" +:+ format p else default_thumbnail.

(** The body of the loop for a movie or TV hit; [get] answers the provider
    requests made for this hit. *)
Definition hit_record (get : providers_http) (mt : string) (item : hit) : res dict :=
  let tmdb_id := default SNone (hit_id item) in
  providers ← _get_providers get (format tmdb_id) mt "US";
  let thumbnail := poster item in
  movie_query ← str_method "replace" (replace " " "+") (movie_title item);
  Ok (rec ([ ("title", movie_title item);
             ("platform", SStr "TMDB");
             ("url", tmdb_watch providers);
             ("thumbnail_url", SStr thumbnail);
             ("duration", SStr "");
             ("channel_name", SStr "");
             ("view_count", SStr "") ] ++ search_links movie_query)).

(** [for item in data.get('results', [])], from position [i]; the provider
    requests of the hit at position [k] are answered by [get k]. *)
Fixpoint tmdb_items (get : nat -> providers_http) (i : nat) (xs : list (json hit))
    (results : list dict) : res (list dict) :=
  match xs with
  | [] => Ok results
  | item :: xs' =>
      item ← dot_get item;
      match movie_or_tv (default SNone (media_type item)) with
      | None => tmdb_items get (S i) xs' results
      | Some mt =>
          r ← hit_record (get i) mt item;
          tmdb_items get (S i) xs' (results ++ [r])
      end
  end.

Definition _get_tmdb_streaming_availability (audd_result : dict)
    (response : tmdb_response) (get : nat -> providers_http) : res (list dict) :=
  let title := default (SStr "") (audd_result !! "title") in
  if negb (truthy title) then Ok []
  else
    match response with
    | TmdbFailed _ => Ok []
    | TmdbBody data =>
        data ← dot_get data;
        xs ← iterate (default (Elements []) (results data));
        tmdb_items get 0 xs []
    end.

(** *** A request against the three services *)

(** What the services, the storage and the database do during one request. *)
Record services := {
  fingerprint : Upload.audd_outcome;
  videos : youtube_response;
  movies : tmdb_response;
  watch_providers : nat -> providers_http;
  seconds : Z;
  refuses : Upload.uploaded_file -> option exn;
  rejects : dict -> option exn;
  audio_search_gap : nat;
  search_result_gap : nat -> nat
}.

(** The track the fingerprint service recognised, when it is an object. *)
Definition recognised (s : services) : dict :=
  match Upload._process_audio (fingerprint s) with
  | Some rr =>
      match Upload.result rr with
      | Some (Upload.JDict d) => d
      | _ => ∅
      end
  | None => ∅
  end.

(** Fresh objects for the records of the two clients: the [k]-th record
    made during the request lives at location [k]. *)
Definition references (base : nat) (ds : list dict) : list item :=
  IDict <$> seq base (length ds).

Definition objects_of (ds : list dict) : store := map_seq 0 ds.

Definition records (r : res (list dict)) : list dict :=
  match r with
  | Ok ds => ds
  | Raise _ => []
  end.

Definition succeeded {A} (r : res A) : bool :=
  match r with
  | Ok _ => true
  | Raise _ => false
  end.

Definition outcome (base : nat) (r : res (list dict)) : res (list item) :=
  match r with
  | Ok ds => Ok (references base ds)
  | Raise e => Raise e
  end.

(** The world of [post] that the services and the two clients make up. *)
Definition world_of (s : services) : Upload.world :=
  let y := _get_youtube_results (recognised s) (videos s) in
  let t := _get_tmdb_streaming_availability (recognised s) (movies s) (watch_providers s) in
  {| Upload.audd := fingerprint s;
     Upload.youtube := outcome 0 y;
     Upload.tmdb := outcome (length (records y)) t;
     Upload.objects := objects_of (records y ++ records t);
     Upload.elapsed := seconds s;
     Upload.create_error := refuses s;
     Upload.insert_error := rejects s;
     Upload.audio_search_skip := audio_search_gap s;
     Upload.search_result_skip := search_result_gap s |}.

(** [post], end to end. *)
Definition serve (request : Upload.request) (s : services) (db : Upload.database)
  : Upload.database * Upload.response :=
  Upload.post request (world_of s) db.

(** *** Notions used to state what the clients and the merger guarantee *)

(** No space character in a string. *)
Definition no_space (s : string) : bool := negb (contains " " s).

(** A thumbnail the merger accepts: a non-empty text not ending in None. *)
Definition thumbnail_valid (o : option scalar) : bool :=
  match o with
  | Some (SStr s) => negb (String.eqb s "") && negb (endswith s "None")
  | _ => false
  end.

(** What the merger may have done to a store: the same records, every field
    as it was or, for a thumbnail, the placeholder. *)
Definition placeholder_only (h h' : store) : Prop :=
  ∀ (l : nat) (key : string),
    (is_Some (h !! l) ↔ is_Some (h' !! l)) ∧
    (field h' (IDict l) key = field h (IDict l) key ∨
     (key = "thumbnail_url" ∧ field h' (IDict l) key = Some (SStr default_thumbnail))).

(** A record whose title is truthy and not text: [.lower()] raises on it. *)
Definition title_not_text (h : store) (x : item) : bool :=
  match field h x "title" with
  | Some (SStr _) => false
  | Some v => truthy v
  | None => false
  end.

(** The normal title of a record, if it has a non-empty title. *)
Definition normal_title (h : store) (x : item) : option string :=
  normalize <$> record_title h x.

(** *** The merge and the saving loop on records, without a store *)

(** The non-empty title of a record. *)
Definition title_of (d : dict) : option string :=
  match d !! "title" with
  | Some (SStr t) => if String.eqb t "" then None else Some t
  | _ => None
  end.

(** Normal titles of the records that have a title. *)
Fixpoint seen_of (ds : list dict) : gset string :=
  match ds with
  | [] => ∅
  | d :: ds' =>
      match title_of d with
      | Some t => {[normalize t]} ∪ seen_of ds'
      | None => seen_of ds'
      end
  end.

(** The records with a title whose normal form was not seen, first wins. *)
Fixpoint unseen (seen : gset string) (ds : list dict) : list dict :=
  match ds with
  | [] => []
  | d :: ds' =>
      match title_of d with
      | Some t =>
          if bool_decide (normalize t ∈ seen) then unseen seen ds'
          else d :: unseen ({[normalize t]} ∪ seen) ds'
      | None => unseen seen ds'
      end
  end.

(** The merged records, as they are once the merger returns. *)
Definition merged (ys ts : list dict) : list dict :=
  with_placeholder <$> (ys ++ unseen (seen_of ys) ts).

(** A record the merger takes without raising. *)
Definition record_ok (d : dict) : bool :=
  field_ok (d !! "title") && field_ok (d !! "thumbnail_url").

Definition text_or_none (v : scalar) : bool :=
  match v with
  | SNone | SStr _ => true
  | _ => false
  end.

(** A record whose values are all text or [None]: the row the table holds
    of it and the row the response gives are the same (a value of another
    type is stored as its text and given back as it is). *)
Definition text_record (d : dict) : bool :=
  forallb text_or_none (map_to_list d).*2.

(** A record whose title, if it has one, is ASCII text. *)
Definition ascii_title (d : dict) : bool :=
  match title_of d with
  | Some t => ascii_text t
  | None => true
  end.

(** [result_data.get('url')] is truthy. *)
Definition with_url (d : dict) : bool := truthy (default SNone (d !! "url")).

(** The rows of records saved one after the other, with the ids they got. *)
Definition rows_of (ids : list nat) (ds : list dict) : list Upload.SearchResult :=
  zip_with Upload.row_of ids ds.

(** The records a list of references denotes. *)
Definition denote (h : store) (xs : list item) : list dict :=
  omap (λ x, match x with IDict l => h !! l | IOther _ => None end) xs.

(** The fingerprint service answered 200 with a JSON object reporting
    success, whose result is the object [d]. *)
Definition recognises (o : Upload.audd_outcome) (d : dict) : Prop :=
  ∃ rr, o = Upload.HttpResponse 200 (Upload.JsonObject rr) ∧
        Upload.status rr = Some (SStr "success") ∧
        Upload.result rr = Some (Upload.JDict d).

(** An exception the two clients catch. *)
Definition caught (e : exn) : bool :=
  match e with
  | RequestException _ => true
  | _ => false
  end.

(** An element of [items] the video loop makes a record of: an object whose
    [id] is an object with a [videoId], whose [snippet] is an object and in
    it [thumbnails], if there, an object, and in that [high], if there, an
    object. *)
Definition video_ok (item : json video) : bool :=
  match item with
  | Object v =>
      match video_id v, video_snippet v with
      | Some (Object (Some _)), Some (Object sn) =>
          match thumbnails sn with
          | None | Some (Object None) | Some (Object (Some (Object _))) => true
          | _ => false
          end
      | _, _ => false
      end
  | Value _ => false
  end.

(** A hit the movie loop keeps: an object of type movie or tv. *)
Definition kept (item : json hit) : bool :=
  match item with
  | Object h => bool_decide (is_Some (movie_or_tv (default SNone (media_type h))))
  | Value _ => false
  end.

(** A hit the movie loop can deal with: an object, and either skipped or
    with a title that is text. *)
Definition hit_ok (item : json hit) : bool :=
  match item with
  | Object h =>
      negb (kept item) ||
      match movie_title h with
      | SStr _ => true
      | _ => false
      end
  | Value _ => false
  end.

(** The provider resolution returns for every hit the movie loop keeps. *)
Definition resolved (get : nat -> providers_http) (xs : list (json hit)) : Prop :=
  ∀ i h mt, xs !! i = Some (Object h) →
            movie_or_tv (default SNone (media_type h)) = Some mt →
            succeeded (_get_providers (get i) (format (default SNone (hit_id h))) mt "US")
              = true.

(** The keys of the four search links. *)
Definition link_keys : list string :=
  ["netflix_url"; "prime_url"; "hulu_url"; "disney_url"].

(** A response of the documented shape carrying no data for any region
    asked. *)
Definition silent (get : Providers.http) (u : string) : Prop :=
  ∀ n reg, Providers.no_data (get n u reg) reg = true.

(** The same for any answer: it brings no data for the region asked and
    raises nothing that leaves the resolver.  The request failed, or its
    body is an object whose [results] is absent, or an object without that
    exact region code, or a string in which the code does not occur. *)
Definition nothing_for (r : providers_response) (reg : string) : bool :=
  match r with
  | ProvidersFailed _ => true
  | ProvidersBody (Object d) =>
      match regions d with
      | None => true
      | Some (Object results) => bool_decide (results !! reg = None)
      | Some (Value (SStr s)) => negb (contains reg s)
      | Some (Value _) => false
      end
  | ProvidersBody (Value _) => false
  end.

(** A service carrying no data for any region asked. *)
Definition quiet (get : providers_http) (u : string) : Prop :=
  ∀ n reg, nothing_for (get n u reg) reg = true.

End Clients.

(* ===================================================================== *)
(** ** Properties of the merger *)
(* ===================================================================== *)

Section MergeFacts.

Implicit Types (h : store) (x : item) (xs ys ts : list item) (d : dict).

Lemma bind_Ok {A B} (m : Eff A) (k : A -> Eff B) h h' a :
  m h = (h', Ok a) → bind m k h = k a h'.
Proof. unfold bind. by intros ->. Qed.

Lemma bind_inv {A B} (m : Eff A) (k : A -> Eff B) h h2 (r : res B) :
  bind m k h = (h2, r) →
  (∃ h1 a, m h = (h1, Ok a) ∧ k a h1 = (h2, r)) ∨
  (∃ e, m h = (h2, Raise e) ∧ r = Raise e).
Proof.
  unfold bind. destruct (m h) as [h1 [a|e]]; intros H.
  - left. eauto.
  - right. inversion H; subst. eauto.
Qed.

Lemma alter_Some_insert h (l : nat) d (f : dict → dict) :
  h !! l = Some d → alter f l h = <[l := f d]> h.
Proof.
  intros Hl. apply map_eq. intros j. rewrite lookup_alter, lookup_insert.
  case_decide; subst; [by rewrite Hl|done].
Qed.

Lemma get_default_live l d key dflt h :
  h !! l = Some d → get_default (IDict l) key dflt h = (h, Ok (default dflt (d !! key))).
Proof. intros Hl. unfold get_default, bind, deref. by rewrite Hl. Qed.

Lemma getitem_live l d key v h :
  h !! l = Some d → d !! key = Some v → getitem (IDict l) key h = (h, Ok v).
Proof. intros Hl Hk. unfold getitem, bind, deref. by rewrite Hl, Hk. Qed.

Lemma setitem_live l d key v h :
  h !! l = Some d → setitem (IDict l) key v h = (<[l := <[key := v]> d]> h, Ok tt).
Proof. intros Hl. unfold setitem, bind, deref. by rewrite Hl. Qed.

(** On a live record with a usable thumbnail field, the policy is one store
    update and never raises. *)
Lemma ensure_thumbnail_live l d h :
  h !! l = Some d → field_ok (d !! "thumbnail_url") = true →
  ensure_thumbnail (IDict l) h = (placeholder_at h (IDict l), Ok tt).
Proof.
  intros Hl Hok. simpl placeholder_at.
  rewrite (alter_Some_insert _ _ d) by done.
  unfold with_placeholder, thumbnail_invalid.
  unfold ensure_thumbnail, get, get_default, getitem, setitem, bind, deref,
    ret, lift, raise, str_method.
  rewrite Hl. cbn beta iota. rewrite ?Hl.
  destruct (d !! "thumbnail_url") as [[|b|n|s]|] eqn:Hv; cbn in *;
    rewrite ?Hok, ?Hl; cbn; rewrite ?Hl; try done.
  - destruct (String.eqb s ""); cbn; rewrite ?Hl; [done|]. cbn. rewrite ?Hv.
    destruct (endswith s "None"); rewrite ?Hl; [done|]. by rewrite insert_id.
Qed.

Lemma wf_item_inv h x :
  wf_item h x = true →
  ∃ l d, x = IDict l ∧ h !! l = Some d ∧
         field_ok (d !! "title") = true ∧ field_ok (d !! "thumbnail_url") = true.
Proof.
  destruct x as [l|v]; [|done]. unfold wf_item, field.
  rewrite !andb_true_iff, bool_decide_eq_true. intros [[[d Hd] Ht] Hth].
  rewrite Hd in Ht, Hth. simpl in *. eauto 10.
Qed.

(** *** The thumbnail policy leaves everything but thumbnails alone *)

Lemma live_placeholder_at h y (l : nat) :
  is_Some (placeholder_at h y !! l) ↔ is_Some (h !! l).
Proof.
  destruct y as [l'|v]; [|done]. simpl. rewrite lookup_alter.
  case_decide; [subst|done]. by rewrite fmap_is_Some.
Qed.

Lemma field_placeholder_at h y x key :
  key ≠ "thumbnail_url" → field (placeholder_at h y) x key = field h x key.
Proof.
  intros Hk. destruct y as [l'|v], x as [l|w]; try done. simpl.
  rewrite lookup_alter. case_decide; [subst|done].
  destruct (h !! l) as [d|]; [|done]. simpl.
  unfold with_placeholder. destruct (thumbnail_invalid d); [|done].
  by rewrite lookup_insert_ne.
Qed.

Lemma thumbnail_placeholder_at h y x :
  field_ok (field h x "thumbnail_url") = true →
  field_ok (field (placeholder_at h y) x "thumbnail_url") = true.
Proof.
  destruct y as [l'|v], x as [l|w]; try done. simpl.
  rewrite lookup_alter. case_decide; [subst|done].
  destruct (h !! l) as [d|]; [|done]. simpl.
  unfold with_placeholder. destruct (thumbnail_invalid d); [|done].
  by rewrite lookup_insert_eq.
Qed.

Lemma wf_item_placeholder_at h y x :
  wf_item h x = true → wf_item (placeholder_at h y) x = true.
Proof.
  destruct x as [l|w]; [|done]. unfold wf_item.
  rewrite !andb_true_iff, !bool_decide_eq_true. intros [[Hl Ht] Hth].
  repeat split.
  - by apply live_placeholder_at.
  - by rewrite field_placeholder_at.
  - by apply thumbnail_placeholder_at.
Qed.

Lemma wf_list_placeholder_at h y xs :
  wf_list h xs = true → wf_list (placeholder_at h y) xs = true.
Proof.
  unfold wf_list. rewrite !forallb_forall. intros H x Hx.
  apply wf_item_placeholder_at; auto.
Qed.

Lemma record_title_placeholder_at h y x :
  record_title (placeholder_at h y) x = record_title h x.
Proof. unfold record_title. by rewrite field_placeholder_at. Qed.

Lemma seen_titles_placeholder_at h y ys :
  seen_titles (placeholder_at h y) ys = seen_titles h ys.
Proof.
  induction ys as [|x ys IH]; [done|]. simpl.
  by rewrite record_title_placeholder_at, IH.
Qed.

Lemma append_unseen_placeholder_at h y ts seen :
  append_unseen (placeholder_at h y) seen ts = append_unseen h seen ts.
Proof.
  revert seen. induction ts as [|x ts IH]; intros seen; [done|]. simpl.
  rewrite record_title_placeholder_at. destruct (record_title h x); [|done].
  by rewrite !IH.
Qed.

Lemma wf_list_placeholders h ys xs :
  wf_list h xs = true → wf_list (placeholders ys h) xs = true.
Proof.
  revert h. induction ys as [|y ys IH]; intros h H; [done|].
  simpl. apply IH. by apply wf_list_placeholder_at.
Qed.

Lemma seen_titles_placeholders h ys xs :
  seen_titles (placeholders ys h) xs = seen_titles h xs.
Proof.
  revert h. induction ys as [|y ys IH]; intros h; [done|].
  simpl. by rewrite IH, seen_titles_placeholder_at.
Qed.

Lemma append_unseen_placeholders h ys ts seen :
  append_unseen (placeholders ys h) seen ts = append_unseen h seen ts.
Proof.
  revert h. induction ys as [|y ys IH]; intros h; [done|].
  simpl. by rewrite IH, append_unseen_placeholder_at.
Qed.

(** *** The three loops on well-formed lists *)

Lemma ensure_thumbnail_wf h x :
  wf_item h x = true → ensure_thumbnail x h = (placeholder_at h x, Ok tt).
Proof.
  intros (l & d & -> & Hl & _ & Hth)%wf_item_inv.
  by apply (ensure_thumbnail_live l d).
Qed.

Lemma youtube_loop_wf rs : ∀ h combined,
  wf_list h rs = true →
  youtube_loop rs combined h = (placeholders rs h, Ok (combined ++ rs)).
Proof.
  induction rs as [|r rs IH]; intros h combined Hwf; simpl.
  - unfold ret. by rewrite app_nil_r.
  - apply andb_true_iff in Hwf as [Hr Hrs].
    rewrite (bind_Ok _ _ _ _ _ (ensure_thumbnail_wf _ _ Hr)).
    rewrite IH by (by apply wf_list_placeholder_at).
    by rewrite <- app_assoc.
Qed.

Lemma title_probe_wf h x :
  wf_item h x = true →
  ∃ l d, x = IDict l ∧ h !! l = Some d ∧
    match record_title h x with
    | Some t => d !! "title" = Some (SStr t) ∧ truthy (SStr t) = true
    | None => truthy (default SNone (d !! "title")) = false
    end.
Proof.
  intros (l & d & -> & Hl & Ht & _)%wf_item_inv. exists l, d.
  split; [done|]. split; [done|]. unfold record_title, field. rewrite Hl. simpl.
  destruct (d !! "title") as [[|b|n|s]|]; simpl in *; try done.
  - by destruct b.
  - by destruct (n =? 0).
  - destruct (String.eqb s "") eqn:E; simpl; [done|]. by rewrite E.
Qed.

Lemma title_set_wf rs : ∀ h acc,
  wf_list h rs = true →
  title_set rs acc h = (h, Ok (seen_titles h rs ∪ acc)).
Proof.
  induction rs as [|r rs IH]; intros h acc Hwf; simpl.
  - unfold ret. do 2 f_equal. set_solver.
  - apply andb_true_iff in Hwf as [Hr Hrs].
    destruct (title_probe_wf _ _ Hr) as (l & d & -> & Hl & Ht).
    cbn [isinstance_dict negb]. unfold get.
    unfold bind at 1. unfold bind at 1.
    rewrite (get_default_live _ _ _ _ _ Hl). unfold ret at 1.
    destruct (record_title h (IDict l)) as [t|].
    + destruct Ht as [Ht Htr]. rewrite Ht. cbn [default from_option id]. rewrite Htr.
      rewrite (bind_Ok _ _ _ _ _ (get_default_live _ _ _ _ _ Hl)).
      rewrite Ht. simpl. unfold bind at 1, lift. rewrite IH by done.
      do 2 f_equal. unfold normalize. set_solver.
    + rewrite Ht. by apply IH.
Qed.

Lemma tmdb_loop_wf ts : ∀ h combined seen,
  wf_list h ts = true →
  tmdb_loop ts combined seen h =
    (placeholders (append_unseen h seen ts) h, Ok (combined ++ append_unseen h seen ts)).
Proof.
  induction ts as [|x ts IH]; intros h combined seen Hwf; simpl.
  - unfold ret. by rewrite app_nil_r.
  - apply andb_true_iff in Hwf as [Hx Hts].
    destruct (title_probe_wf _ _ Hx) as (l & d & -> & Hl & Ht).
    cbn [isinstance_dict negb]. unfold get.
    unfold bind at 1. unfold bind at 1.
    rewrite (get_default_live _ _ _ _ _ Hl). unfold ret at 1.
    destruct (record_title h (IDict l)) as [t|].
    + destruct Ht as [Ht Htr]. rewrite Ht. cbn [default from_option id]. rewrite Htr. cbn [negb].
      rewrite (bind_Ok _ _ _ _ _ (getitem_live _ _ _ _ _ Hl Ht)).
      simpl. unfold bind at 1, lift. fold (normalize t).
      destruct (bool_decide (normalize t ∈ seen)); [by apply IH|].
      rewrite (bind_Ok _ _ _ _ _ (ensure_thumbnail_wf _ _ Hx)).
      rewrite IH by (by apply wf_list_placeholder_at).
      rewrite append_unseen_placeholder_at. simpl. by rewrite <- app_assoc.
    + rewrite Ht. simpl. by apply IH.
Qed.

(** *** The loops on arbitrary lists *)

Lemma thumbs_only_refl h : thumbs_only h h.
Proof. by intros l key. Qed.

Lemma thumbs_only_trans h1 h2 h3 :
  thumbs_only h1 h2 → thumbs_only h2 h3 → thumbs_only h1 h3.
Proof.
  intros H12 H23 l key. destruct (H12 l key) as [Ha Hb], (H23 l key) as [Hc Hd].
  split; [by etrans|]. intros Hk. by rewrite Hb, Hd.
Qed.

Lemma thumbs_only_field h h' x key :
  thumbs_only h h' → key ≠ "thumbnail_url" → field h x key = field h' x key.
Proof. intros H Hk. destruct x as [l|v]; [|done]. by apply H. Qed.

Lemma thumbs_only_titled h h' x : thumbs_only h h' → titled h x = titled h' x.
Proof. intros H. unfold titled. by rewrite (thumbs_only_field h h' x "title"). Qed.

Lemma thumbs_only_insert h (l : nat) d v :
  h !! l = Some d → thumbs_only h (<[l := <["thumbnail_url" := v]> d]> h).
Proof.
  intros Hl l' key. split.
  - rewrite lookup_insert. case_decide; subst; [|done]. rewrite Hl. by split; eauto.
  - intros Hk. simpl. rewrite lookup_insert. case_decide; subst; [|done].
    rewrite Hl. simpl. by rewrite lookup_insert_ne.
Qed.

Lemma get_default_inv x key dflt h h' r :
  get_default x key dflt h = (h', r) →
  h' = h ∧ ∀ v, r = Ok v → isinstance_dict x = true ∧ is_Some (h !! (match x with IDict l => l | _ => 0%nat end))
                            ∧ v = default dflt (field h x key).
Proof.
  unfold get_default, bind, deref, ret, raise. destruct x as [l|w]; simpl.
  - destruct (h !! l) as [d|] eqn:Hl; intros [= <- <-]; (split; [done|]);
      intros v [= <-]. simpl. eauto.
  - intros [= <- <-]. by split.
Qed.

Lemma getitem_inv x key h h' r :
  getitem x key h = (h', r) → h' = h ∧ ∀ v, r = Ok v → field h x key = Some v.
Proof.
  unfold getitem, bind, deref, ret, raise. destruct x as [l|w]; simpl.
  - destruct (h !! l) as [d|] eqn:Hl; simpl.
    + destruct (d !! key) as [v|] eqn:Hv; intros [= <- <-]; (split; [done|]);
        by intros v' [= <-].
    + intros [= <- <-]. by split.
  - intros [= <- <-]. by split.
Qed.

Lemma ensure_thumbnail_frame x h h' r :
  ensure_thumbnail x h = (h', r) → thumbs_only h h'.
Proof.
  unfold ensure_thumbnail. intros H.
  apply bind_inv in H as [(h1 & t & Hget & H)|(e & Hget & _)];
    apply get_default_inv in Hget as [-> _]; [|apply thumbs_only_refl].
  apply bind_inv in H as [(h2 & bad & Hbad & H)|(e & Hbad & _)].
  - assert (h2 = h) as ->.
    { destruct (negb (truthy t)); [by inversion Hbad|].
      apply bind_inv in Hbad as [(h3 & v & Hv & Hbad)|(e & Hv & [=])].
      apply getitem_inv in Hv as [-> _]. by inversion Hbad. }
    destruct bad; [|inversion H; apply thumbs_only_refl].
    unfold setitem in H. destruct x as [l|w]; [|inversion H; apply thumbs_only_refl].
    unfold bind, deref in H. destruct (h !! l) as [d|] eqn:Hl;
      inversion H; subst; [by apply thumbs_only_insert|apply thumbs_only_refl].
  - destruct (negb (truthy t)); [by inversion Hbad|].
    apply bind_inv in Hbad as [(h3 & v & Hv & Hbad)|(e' & Hv & _)];
      apply getitem_inv in Hv as [-> _]; [|apply thumbs_only_refl].
    inversion Hbad; subst. apply thumbs_only_refl.
Qed.

Lemma youtube_loop_inv rs : ∀ h combined h' r,
  youtube_loop rs combined h = (h', r) →
  thumbs_only h h' ∧ ∀ c, r = Ok c → c = combined ++ rs.
Proof.
  induction rs as [|x rs IH]; intros h combined h' r H; simpl in H.
  - inversion H; subst. split; [apply thumbs_only_refl|].
    intros c [= <-]. by rewrite app_nil_r.
  - apply bind_inv in H as [(h1 & [] & Hx & H)|(e & Hx & ->)];
      apply ensure_thumbnail_frame in Hx; [|by split].
    apply IH in H as [Hfr Hc]. split; [by eapply thumbs_only_trans|].
    intros c Hr. rewrite (Hc c Hr). by rewrite <- app_assoc.
Qed.

Lemma get_title_inv x dflt h h' r :
  get_default x "title" dflt h = (h', r) →
  h' = h ∧ ∀ v, r = Ok v → v = default dflt (field h x "title").
Proof.
  intros H. apply get_default_inv in H as [Hh Hv]. split; [done|].
  intros v Hr. by destruct (Hv v Hr) as (_ & _ & ?).
Qed.

Lemma titled_inv h x :
  titled h x = true → ∃ v, field h x "title" = Some v ∧ truthy v = true.
Proof. unfold titled. destruct (field h x "title") as [v|]; [eauto|done]. Qed.

Lemma truthy_default_titled h x : truthy (default SNone (field h x "title")) = titled h x.
Proof. unfold titled. by destruct (field h x "title"). Qed.

(** [isinstance(r, dict) and r.get('title')] *)
Lemma keep_probe_inv x h h' r :
  (if isinstance_dict x then do t <- get x "title" ; ret (truthy t) else ret false) h
    = (h', r) →
  h' = h ∧ ∀ b, r = Ok b → b = titled h x.
Proof.
  destruct x as [l|w]; cbn [isinstance_dict]; unfold get.
  - intros H. apply bind_inv in H as [(h1 & t & Hget & H)|(e & Hget & ->)];
      apply get_title_inv in Hget as [-> Ht]; [|done].
    unfold ret in H. injection H as <- <-. split; [done|]. intros b [= <-].
    rewrite (Ht t eq_refl). apply truthy_default_titled.
  - intros [= <- <-]. split; [done|]. by intros b [= <-].
Qed.

(** [not isinstance(r, dict) or not r.get('title')] *)
Lemma skip_probe_inv x h h' r :
  (if negb (isinstance_dict x) then ret true
   else do t <- get x "title" ; ret (negb (truthy t))) h = (h', r) →
  h' = h ∧ ∀ b, r = Ok b → b = negb (titled h x).
Proof.
  destruct x as [l|w]; cbn [isinstance_dict negb]; unfold get.
  - intros H. apply bind_inv in H as [(h1 & t & Hget & H)|(e & Hget & ->)];
      apply get_title_inv in Hget as [-> Ht]; [|done].
    unfold ret in H. injection H as <- <-. split; [done|]. intros b [= <-].
    rewrite (Ht t eq_refl). f_equal. apply truthy_default_titled.
  - intros [= <- <-]. split; [done|]. by intros b [= <-].
Qed.

(** [x.lower().strip()] of a title field *)
Lemma lower_inv (v : scalar) h h' r :
  lift (str_method "lower" lower v) h = (h', r) →
  h' = h ∧ ∀ low, r = Ok low → ∃ t, v = SStr t ∧ strip low = normalize t.
Proof.
  unfold lift. intros [= <- <-]. split; [done|].
  destruct v as [| | |t]; try done. intros low [= <-]. eauto.
Qed.

Lemma title_set_inv rs : ∀ h acc h' r,
  title_set rs acc h = (h', r) →
  h' = h ∧ ∀ s, r = Ok s → acc ⊆ s ∧ Forall (covered h s) rs.
Proof.
  induction rs as [|x rs IH]; intros h acc h' r H; simpl in H.
  - unfold ret in H. injection H as <- <-. split; [done|]. intros s [= <-]. by split.
  - apply bind_inv in H as [(h1 & keep & Hkeep & H)|(e & Hkeep & ->)];
      apply keep_probe_inv in Hkeep as [-> Hk]; [|done].
    rewrite (Hk keep eq_refl) in H. clear Hk keep.
    destruct (titled h x) eqn:Htitled.
    + apply bind_inv in H as [(h1 & t & Hget & H)|(e & Hget & ->)];
        apply get_title_inv in Hget as [-> Ht]; [|done].
      specialize (Ht t eq_refl).
      apply bind_inv in H as [(h1 & low & Hlow & H)|(e & Hlow & ->)];
        apply lower_inv in Hlow as [-> Hl]; [|done].
      destruct (Hl low eq_refl) as (t' & -> & Hn). rewrite Hn in H.
      apply IH in H as [-> Hs]. split; [done|]. intros s Hr.
      destruct (Hs s Hr) as [Hsub Hcov]. split; [set_solver|].
      constructor; [|done]. intros v Hv Htr.
      rewrite Hv in Ht. simpl in Ht. subst v. exists t'. split; [done|]. set_solver.
    + apply IH in H as [-> Hs]. split; [done|]. intros s Hr.
      destruct (Hs s Hr) as [Hsub Hcov]. split; [done|].
      constructor; [|done]. intros v Hv Htr. unfold titled in Htitled.
      rewrite Hv in Htitled. congruence.
Qed.

Lemma covered_frame h h' seen x :
  thumbs_only h h' → covered h seen x → covered h' seen x.
Proof.
  intros Hfr Hc v Hv. apply Hc. by rewrite (thumbs_only_field h h' x "title").
Qed.

(** When every title of [ts] is already seen, the second loop appends nothing. *)
Lemma tmdb_loop_covered ts : ∀ h combined seen,
  Forall (covered h seen) ts →
  ∃ r, tmdb_loop ts combined seen h = (h, r) ∧ ∀ c, r = Ok c → c = combined.
Proof.
  induction ts as [|x ts IH]; intros h combined seen Hcov; simpl.
  - exists (Ok combined). split; [done|]. by intros c [= <-].
  - inversion Hcov as [|? ? Hx Hts]; subst.
    destruct ((if negb (isinstance_dict x) then ret true
               else do t <- get x "title" ; ret (negb (truthy t))) h)
      as [h1 rskip] eqn:Hskip.
    unfold bind at 1. rewrite Hskip.
    apply skip_probe_inv in Hskip as [-> Hb].
    destruct rskip as [skip|e]; [|exists (Raise e); by split].
    rewrite (Hb skip eq_refl). clear Hb skip.
    destruct (titled h x) eqn:Htitled; cbn [negb]; [|by apply IH].
    destruct (titled_inv h x Htitled) as (v & Hv & Htr).
    destruct (Hx v Hv Htr) as (t & -> & Hin).
    destruct (getitem x "title" h) as [h1 rget] eqn:Hget.
    unfold bind at 1. rewrite Hget.
    apply getitem_inv in Hget as [-> Hg].
    destruct rget as [v|e]; [|exists (Raise e); by split].
    rewrite (Hg v eq_refl) in Hv. injection Hv as ->.
    unfold bind at 1, lift. simpl str_method. cbv iota. fold (normalize t).
    rewrite bool_decide_eq_true_2 by done. by apply IH.
Qed.

(** Whatever the second loop appends is a titled record of the second list. *)
Lemma tmdb_loop_inv ts : ∀ h combined seen h' r,
  tmdb_loop ts combined seen h = (h', r) →
  thumbs_only h h' ∧
  ∀ c, r = Ok c →
    ∃ rest, c = combined ++ rest ∧ Forall (λ x, titled h x = true ∧ x ∈ ts) rest.
Proof.
  induction ts as [|x ts IH]; intros h combined seen h' r H; simpl in H.
  - unfold ret in H. injection H as <- <-. split; [apply thumbs_only_refl|].
    intros c [= <-]. exists []. by rewrite app_nil_r.
  - assert (∀ rest, Forall (λ y, titled h y = true ∧ y ∈ ts) rest →
                    Forall (λ y, titled h y = true ∧ y ∈ x :: ts) rest) as Hweak.
    { intros rest Hrest. eapply Forall_impl; [exact Hrest|].
      intros y [? ?]. split; [done|]. set_solver. }
    apply bind_inv in H as [(h1 & skip & Hskip & H)|(e & Hskip & ->)];
      apply skip_probe_inv in Hskip as [-> Hb];
      [|split; [apply thumbs_only_refl|done]].
    rewrite (Hb skip eq_refl) in H. clear Hb skip.
    destruct (titled h x) eqn:Htitled; cbn [negb] in H.
    2:{ apply IH in H as [Hfr Hc]. split; [done|]. intros c Hr.
        destruct (Hc c Hr) as (rest & -> & Hrest). eauto. }
    apply bind_inv in H as [(h1 & t & Hget & H)|(e & Hget & ->)];
      apply getitem_inv in Hget as [-> _];
      [|split; [apply thumbs_only_refl|done]].
    apply bind_inv in H as [(h1 & low & Hlow & H)|(e & Hlow & ->)];
      apply lower_inv in Hlow as [-> _];
      [|split; [apply thumbs_only_refl|done]].
    destruct (bool_decide (strip low ∈ seen)).
    { apply IH in H as [Hfr Hc]. split; [done|]. intros c Hr.
      destruct (Hc c Hr) as (rest & -> & Hrest). eauto. }
    apply bind_inv in H as [(h1 & [] & Hth & H)|(e & Hth & ->)];
      apply ensure_thumbnail_frame in Hth; [|by split].
    apply IH in H as [Hfr Hc]. split; [by eapply thumbs_only_trans|].
    intros c Hr. destruct (Hc c Hr) as (rest & -> & Hrest).
    exists (x :: rest). split; [by rewrite <- app_assoc|].
    constructor; [split; [done|set_solver]|].
    apply Hweak. eapply Forall_impl; [exact Hrest|].
    intros y [Hy ?]. split; [|done]. by rewrite (thumbs_only_titled h h1).
Qed.

Lemma combine_lists_inv ys ts h h' r :
  combine_lists ys ts h = (h', r) →
  thumbs_only h h' ∧
  ∀ c, r = Ok c →
    ∃ rest, c = ys ++ rest ∧ Forall (λ x, titled h x = true ∧ x ∈ ts) rest.
Proof.
  unfold combine_lists. intros H.
  apply bind_inv in H as [(h1 & c1 & Hy & H)|(e & Hy & ->)];
    apply youtube_loop_inv in Hy as [Hfr1 Hc1]; [|by split].
  rewrite (Hc1 c1 eq_refl) in H. simpl in H. clear Hc1 c1.
  apply bind_inv in H as [(h2 & seen & Hs & H)|(e & Hs & ->)];
    apply title_set_inv in Hs as [-> _]; [|by split].
  apply tmdb_loop_inv in H as [Hfr2 Hc]. split; [by eapply thumbs_only_trans|].
  intros c Hr. destruct (Hc c Hr) as (rest & -> & Hrest). exists rest.
  split; [done|]. eapply Forall_impl; [exact Hrest|].
  intros x [Hx ?]. split; [|done]. by rewrite (thumbs_only_titled h h1).
Qed.

Lemma combine_lists_self xs h h' r :
  combine_lists xs xs h = (h', r) → ∀ c, r = Ok c → c = xs.
Proof.
  unfold combine_lists. intros H c ->.
  apply bind_inv in H as [(h1 & c1 & Hy & H)|(e & _ & [=])].
  apply youtube_loop_inv in Hy as [_ Hc1].
  rewrite (Hc1 c1 eq_refl) in H. simpl in H. clear Hc1 c1.
  apply bind_inv in H as [(h2 & seen & Hs & H)|(e & _ & [=])].
  apply title_set_inv in Hs as [-> Hseen].
  destruct (Hseen seen eq_refl) as [_ Hcov].
  destruct (tmdb_loop_covered xs h1 xs seen Hcov) as (r' & Hrun & Hr').
  rewrite Hrun in H. injection H as _ ->. by apply Hr'.
Qed.

(** *** The description itself: what [merge_spec] keeps and drops *)

Lemma seen_titles_elem h ys x t :
  x ∈ ys → record_title h x = Some t → normalize t ∈ seen_titles h ys.
Proof.
  induction ys as [|y ys IH]; [by intros ?%elem_of_nil|].
  intros [->|Hin]%elem_of_cons Ht; simpl.
  - rewrite Ht. set_solver.
  - destruct (record_title h y); set_solver.
Qed.

Lemma append_unseen_all_seen h ts : ∀ seen,
  (∀ x t, x ∈ ts → record_title h x = Some t → normalize t ∈ seen) →
  append_unseen h seen ts = [].
Proof.
  induction ts as [|x ts IH]; intros seen Hseen; [done|]. simpl.
  destruct (record_title h x) as [t|] eqn:Ht.
  - rewrite bool_decide_eq_true_2 by (apply (Hseen x); [set_solver|done]).
    apply IH. intros y u Hy. apply Hseen. set_solver.
  - apply IH. intros y u Hy. apply Hseen. set_solver.
Qed.

(** Every appended record comes from the second list, in a position where
    its normal title was not seen. *)
Lemma append_unseen_fresh h ts : ∀ seen x,
  x ∈ append_unseen h seen ts →
  x ∈ ts ∧ ∃ t, record_title h x = Some t ∧ normalize t ∉ seen.
Proof.
  induction ts as [|y ts IH]; intros seen x; [by intros ?%elem_of_nil|]. simpl.
  destruct (record_title h y) as [t|] eqn:Ht.
  - destruct (bool_decide (normalize t ∈ seen)) eqn:Hin.
    + intros [? ?]%IH. split; [set_solver|done].
    + apply bool_decide_eq_false in Hin.
      intros [->|Hx]%elem_of_cons; [split; [set_solver|eauto]|].
      apply IH in Hx as [? (u & Hu & Hnot)]. split; [set_solver|].
      exists u. split; [done|]. set_solver.
  - intros [? ?]%IH. split; [set_solver|done].
Qed.

(** No two appended records share a normal title. *)
Lemma append_unseen_NoDup h ts : ∀ seen,
  NoDup (omap (λ x, normalize <$> record_title h x) (append_unseen h seen ts)).
Proof.
  induction ts as [|y ts IH]; intros seen; simpl; [constructor|].
  destruct (record_title h y) as [t|] eqn:Ht; [|apply IH].
  destruct (bool_decide (normalize t ∈ seen)); [apply IH|].
  simpl. rewrite Ht. simpl. constructor; [|apply IH].
  rewrite list_elem_of_omap. intros (x & Hx & Hn).
  apply append_unseen_fresh in Hx as [_ (u & Hu & Hnot)].
  rewrite Hu in Hn. simpl in Hn. injection Hn as Hn. set_solver.
Qed.

(** A titled record of the second list is represented in the result: its
    normal title was seen already, or some appended record carries it. *)
Lemma append_unseen_complete h ts : ∀ seen x t,
  x ∈ ts → record_title h x = Some t →
  normalize t ∈ seen ∨
  ∃ y, y ∈ append_unseen h seen ts ∧ normalize <$> record_title h y = Some (normalize t).
Proof.
  induction ts as [|z ts IH]; intros seen x t; [by intros ?%elem_of_nil|]. simpl.
  intros [->|Hin]%elem_of_cons Ht.
  - rewrite Ht. destruct (bool_decide (normalize t ∈ seen)) eqn:Hseen.
    + left. by apply bool_decide_eq_true in Hseen.
    + right. exists z. split; [set_solver|]. by rewrite Ht.
  - destruct (record_title h z) as [u|] eqn:Hu.
    + destruct (bool_decide (normalize u ∈ seen)) eqn:Hseen.
      * by apply (IH seen x t).
      * destruct (IH ({[normalize u]} ∪ seen) x t Hin Ht) as [Hs|(y & Hy & Hn)].
        -- apply elem_of_union in Hs as [Hs|Hs]; [|by left].
           right. exists z. split; [set_solver|]. rewrite Hu. simpl.
           apply elem_of_singleton in Hs. by rewrite Hs.
        -- right. exists y. split; [set_solver|done].
    + by apply (IH seen x t).
Qed.

(** On well-formed lists the body of the merger does not raise and computes
    [merge_spec], with the placeholder policy applied to every returned record. *)
Lemma combine_lists_wf h ys ts :
  wf_list h ys = true → wf_list h ts = true →
  combine_lists ys ts h = (placeholders (merge_spec h ys ts) h, Ok (merge_spec h ys ts)).
Proof.
  intros Hys Hts. unfold combine_lists, merge_spec.
  rewrite (bind_Ok _ _ _ _ _ (youtube_loop_wf ys h [] Hys)). simpl app.
  assert (wf_list (placeholders ys h) ys = true) as Hys' by (by apply wf_list_placeholders).
  rewrite (bind_Ok _ _ _ _ _ (title_set_wf ys _ ∅ Hys')).
  rewrite tmdb_loop_wf by (by apply wf_list_placeholders).
  rewrite seen_titles_placeholders, append_unseen_placeholders.
  rewrite (right_id_L ∅ (∪)).
  unfold placeholders. by rewrite foldl_app.
Qed.

(** Self-merge of a well-formed list: the very list, each record through
    the placeholder policy once. *)
Lemma combine_results_self_wf h xs :
  wf_list h xs = true →
  _combine_results (OList xs) (OList xs) h = (placeholders xs h, xs).
Proof.
  intros Hwf. unfold _combine_results. rewrite combine_lists_wf by done.
  unfold merge_spec.
  rewrite append_unseen_all_seen; [by rewrite app_nil_r|].
  intros x t. apply seen_titles_elem.
Qed.

(** The scenario of two sources both titled Imagine, differing in case: one
    entry, taken from the first source. *)
Example combine_results_imagine :
  let h : store :=
    {[ 0%nat := rec [("title", SStr "Imagine"); ("platform", SStr "YouTube")];
       1%nat := rec [("title", SStr "IMAGINE"); ("platform", SStr "TMDB")] ]} in
  snd (_combine_results (OList [IDict 0%nat]) (OList [IDict 1%nat]) h) = [IDict 0%nat].
Proof. vm_compute. reflexivity. Qed.

(** A thumbnail that ends in the text None is replaced like a missing one. *)
Example combine_results_thumbnails :
  let h : store :=
    {[ 0%nat := rec [("title", SStr "a"); ("thumbnail_url", SStr "https://image.tmdb.org/t/p/w500None")];
       1%nat := rec [("title", SStr "b")];
       2%nat := rec [("title", SStr "c"); ("thumbnail_url", SStr "https://i.ytimg.com/vi/x/hq.jpg")] ]} in
  let out := _combine_results (OList [IDict 0%nat; IDict 1%nat]) (OList [IDict 2%nat]) h in
  (λ x, field (fst out) x "thumbnail_url") <$> snd out
    = [Some (SStr default_thumbnail); Some (SStr default_thumbnail);
       Some (SStr "https://i.ytimg.com/vi/x/hq.jpg")].
Proof. vm_compute. reflexivity. Qed.

(** A record of the first list that is not a mapping makes the body raise;
    the first list comes back as it is. *)
Example combine_results_raises :
  let h : store := {[ 0%nat := rec [("title", SStr "b")] ]} in
  snd (_combine_results (OList [IOther (SInt 7)]) (OList [IDict 0%nat]) h)
    = [IOther (SInt 7)].
Proof. vm_compute. reflexivity. Qed.

(** *** Case and white space *)




















(** *** The merger against its description *)




(** C4: merging a list with itself returns that very list, whatever it holds:
    the second copy contributes nothing.  The records are the same objects;
    the only fields the call may have written are their thumbnails. *)
Theorem combine_results_self_merge h xs :
  snd (_combine_results (OList xs) (OList xs) h) = xs
  ∧ thumbs_only h (fst (_combine_results (OList xs) (OList xs) h)).
Proof.
  unfold _combine_results.
  destruct (combine_lists xs xs h) as [h' r] eqn:Hc.
  pose proof (combine_lists_self _ _ _ _ Hc) as Hself.
  apply combine_lists_inv in Hc as [Hfr _].
  destruct r as [c|e]; simpl; split; auto.
Qed.

(** C5, as stated, does not hold: with a first argument that is not a list,
    a well-formed second list is not returned; the result is empty. *)
Lemma combine_results_malformed_first_counterexample :
  let h : store := {[ 0%nat := rec [("title", SStr "Imagine"); ("url", SStr "https://www.themoviedb.org/movie/1/watch")] ]} in
  wf_list h [IDict 0%nat] = true ∧
  snd (_combine_results (ONotList (IOther SNone)) (OList [IDict 0%nat]) h) = [] ∧
  snd (_combine_results (ONotList (IOther SNone)) (OList [IDict 0%nat]) h) ≠ [IDict 0%nat].
Proof. vm_compute. repeat split; discriminate. Qed.

(** C5, amended: when either argument is not a list, the merger leaves the
    store alone and returns the first argument if that is a list, and the
    empty list otherwise; the second argument is never returned. *)
Theorem combine_results_not_lists h :
  (∀ ys x, _combine_results (OList ys) (ONotList x) h = (h, ys)) ∧
  (∀ x t, _combine_results (ONotList x) t h = (h, [])).
Proof.
  split.
  - intros ys x. unfold _combine_results, fallback. reflexivity.
  - intros x t. unfold _combine_results, fallback.
    destruct t as [ts|y]; reflexivity.
Qed.

(** C9: the merger returns the first list in full, whatever its records are,
    and every record it appends after it is a mapping of the second list
    with a non-empty title; records of the second list that are not
    mappings, or have no title or an empty one, are never appended. *)
Theorem combine_results_untitled_dropped h ys t :
  ∃ rest, snd (_combine_results (OList ys) t h) = ys ++ rest ∧
          Forall (λ x, (isinstance_dict x = true ∧ titled h x = true) ∧
                       ∃ ts, t = OList ts ∧ x ∈ ts) rest.
Proof.
  destruct t as [ts|x]; [|exists []; by rewrite app_nil_r].
  unfold _combine_results.
  destruct (combine_lists ys ts h) as [h' r] eqn:Hc.
  apply combine_lists_inv in Hc as [_ Hr].
  destruct r as [c|e]; simpl; [|exists []; by rewrite app_nil_r].
  destruct (Hr c eq_refl) as (rest & -> & Hrest). exists rest. split; [done|].
  eapply Forall_impl; [exact Hrest|]. intros x [Hx Hin].
  split; [|eauto]. split; [|done]. destruct x; [done|]. by vm_compute in Hx.
Qed.

End MergeFacts.

(* ===================================================================== *)
(** ** Properties of the provider resolver *)
(* ===================================================================== *)

Section ProvidersFacts.

Import Providers.

Variable get : http.
Variable base_url : string.

Implicit Types (p q : provider_urls) (s : platform) (regs : list string).

Lemma scan_provider_tmdb_watch p prov :
  tmdb_watch (scan_provider p prov) = tmdb_watch p.
Proof. unfold scan_provider. by repeat case_match. Qed.

(** A filled slot survives a provider entry. *)
Lemma scan_provider_slot s p prov :
  filled (slot s p) = true → slot s (scan_provider p prov) = slot s p.
Proof.
  intros Hs. unfold scan_provider.
  repeat case_match; destruct s; simpl in *; try done;
    repeat match goal with
           | H : _ && _ = true |- _ => apply andb_true_iff in H as [? ?]
           end.
  all: match goal with
       | H : negb ?b = true, H' : ?b = true |- _ => rewrite H' in H; discriminate
       end.
Qed.

Lemma scan_region_slot s p rd :
  filled (slot s p) = true → slot s (scan_region p rd) = slot s p.
Proof.
  intros Hs. unfold scan_region.
  assert (∀ provs q, slot s q = slot s p → slot s (foldl scan_provider q provs) = slot s p)
    as Hfold.
  { induction provs as [|prov provs IH]; intros q Hq; [done|]. simpl.
    apply IH. rewrite scan_provider_slot; [done|]. by rewrite Hq. }
  apply Hfold. by destruct s.
Qed.

Lemma after_region_slot s reg n p :
  filled (slot s p) = true → slot s (after_region get base_url reg n p) = slot s p.
Proof.
  intros Hs. unfold after_region. repeat case_match; try done. by apply scan_region_slot.
Qed.

(** One iteration of the loop. *)
Lemma regions_loop_cons reg regs n p :
  regions_loop get base_url (reg :: regs) n p =
    let p' := after_region get base_url reg n p in
    if negb (no_data (get n base_url reg) reg) && any_named p' then (p', [(reg, p')])
    else let (final, hist) := regions_loop get base_url regs (S n) p' in
         (final, (reg, p') :: hist).
Proof.
  cbn [regions_loop]. unfold after_region, no_data.
  destruct (get n base_url reg) as [e|results]; [done|].
  destruct (results !! reg) as [rd|] eqn:Hrd.
  - rewrite bool_decide_eq_false_2 by done. cbn [negb andb].
    by destruct (any_named (scan_region p rd)).
  - by rewrite bool_decide_eq_true_2.
Qed.

(** From slots where [s] is filled, every later state agrees on [s]. *)
Lemma regions_loop_keeps s regs : ∀ n p,
  filled (slot s p) = true →
  slot s (fst (regions_loop get base_url regs n p)) = slot s p ∧
  Forall (λ e, slot s (snd e) = slot s p) (snd (regions_loop get base_url regs n p)).
Proof.
  induction regs as [|reg regs IH]; intros n p Hs; [by split|].
  rewrite regions_loop_cons. cbv zeta.
  pose proof (after_region_slot s reg n p Hs) as Hp'.
  set (p' := after_region get base_url reg n p) in *.
  destruct (negb (no_data (get n base_url reg) reg) && any_named p').
  - simpl. split; [done|]. by constructor.
  - assert (filled (slot s p') = true) as Hs' by (by rewrite Hp').
    destruct (IH (S n) p' Hs') as [Hfin Hhist].
    destruct (regions_loop get base_url regs (S n) p') as [final hist]. simpl in *.
    split; [congruence|]. constructor; [done|].
    eapply Forall_impl; [exact Hhist|]. simpl. intros e He. congruence.
Qed.

Lemma regions_loop_first_match_wins s regs : ∀ n p i j ri pi rj pj,
  snd (regions_loop get base_url regs n p) !! i = Some (ri, pi) →
  snd (regions_loop get base_url regs n p) !! j = Some (rj, pj) →
  (i ≤ j)%nat → filled (slot s pi) = true →
  slot s pj = slot s pi ∧ slot s (fst (regions_loop get base_url regs n p)) = slot s pi.
Proof.
  induction regs as [|reg regs IH]; intros n p i j ri pi rj pj; [done|].
  rewrite regions_loop_cons. cbv zeta.
  set (p' := after_region get base_url reg n p).
  destruct (negb (no_data (get n base_url reg) reg) && any_named p').
  - simpl. destruct i as [|i]; [|done]. destruct j as [|j]; [|done].
    by intros [= <- <-] [= <- <-] _ _.
  - specialize (IH (S n) p'). pose proof (regions_loop_keeps s regs (S n) p') as Hkeep.
    destruct (regions_loop get base_url regs (S n) p') as [final hist]. simpl in *.
    destruct i as [|i]; simpl.
    + intros [= <- <-] Hj _ Hs. destruct (Hkeep Hs) as [Hfin Hhist].
      split; [|done]. destruct j as [|j]; simpl in Hj; [by injection Hj as _ <-|].
      rewrite Forall_lookup in Hhist. apply (Hhist j (rj, pj) Hj).
    + destruct j as [|j]; [lia|]. simpl. intros Hi Hj Hij Hs.
      apply (IH i j ri pi rj pj Hi Hj); [lia|done].
Qed.

Lemma after_region_no_data reg n p :
  no_data (get n base_url reg) reg = true → after_region get base_url reg n p = p.
Proof.
  unfold no_data, after_region. destruct (get n base_url reg) as [e|results]; [done|].
  rewrite bool_decide_eq_true. by intros ->.
Qed.

Lemma regions_loop_nonempty regs n p :
  (0 < length regs)%nat → (0 < length (snd (regions_loop get base_url regs n p)))%nat.
Proof.
  destruct regs as [|reg regs]; [simpl; lia|]. intros _.
  rewrite regions_loop_cons. cbv zeta. destruct (_ && _); [simpl; lia|].
  destruct (regions_loop _ _ _ _ _). simpl. lia.
Qed.

(** The history of a run that starts with the four named slots empty. *)
Lemma regions_loop_history regs : ∀ n p,
  any_named p = false →
  let final := fst (regions_loop get base_url regs n p) in
  let hist := snd (regions_loop get base_url regs n p) in
  hist.*1 `prefix_of` regs ∧
  (∀ i r q, hist !! i = Some (r, q) → (S i < length hist)%nat → any_named q = false) ∧
  (∀ i r q, hist !! i = Some (r, q) → any_named q = false →
            (S i < length regs)%nat → (S i < length hist)%nat) ∧
  (∀ i r q, hist !! i = Some (r, q) → no_data (get (n + i)%nat base_url r) r = true →
            slots_before p hist i = Some q) ∧
  default p (last hist.*2) = final.
Proof.
  induction regs as [|reg regs IH]; intros n p Hp; cbv zeta.
  { simpl. repeat split; try done. }
  rewrite regions_loop_cons. cbv zeta.
  pose proof (after_region_no_data reg n p) as Hskip.
  set (p' := after_region get base_url reg n p) in *.
  destruct (negb (no_data (get n base_url reg) reg) && any_named p') eqn:Hstop.
  - simpl. repeat split.
    + apply prefix_cons, prefix_nil.
    + intros i r q _ Hi. simpl in Hi. lia.
    + intros [|i] r q Hi Hq; [|done]. injection Hi as <- <-.
      apply andb_true_iff in Hstop as [_ Hstop]. congruence.
    + intros [|i] r q Hi Hno; [|done]. injection Hi as <- <-.
      rewrite Nat.add_0_r in Hno. apply andb_true_iff in Hstop as [Hstop _].
      rewrite Hno in Hstop. done.
  - assert (any_named p' = false) as Hp'.
    { destruct (no_data (get n base_url reg) reg) eqn:Hno.
      - by rewrite Hskip.
      - by destruct (any_named p'). }
    specialize (IH (S n) p' Hp'). cbv zeta in IH.
    pose proof (regions_loop_nonempty regs (S n) p') as Hne.
    destruct (regions_loop get base_url regs (S n) p') as [final hist]. simpl in *.
    destruct IH as (Hpre & Hcont & Hgo & Hsame & Hlast). repeat split.
    + by apply prefix_cons.
    + intros [|i] r q Hi Hlen; simpl in Hi.
      * by injection Hi as <- <-.
      * apply (Hcont i r q Hi). lia.
    + intros [|i] r q Hi Hq Hlen; simpl in Hi.
      * assert (0 < length hist)%nat by (apply Hne; lia). lia.
      * pose proof (Hgo i r q Hi Hq). lia.
    + intros [|i] r q Hi Hno; simpl in Hi.
      * injection Hi as <- <-. rewrite Nat.add_0_r in Hno. simpl. f_equal.
        symmetry. by apply Hskip.
      * rewrite Nat.add_succ_r in Hno. specialize (Hsame i r q Hi Hno).
        simpl. destruct i as [|i]; simpl in *; [done|]. done.
    + rewrite <- Hlast. destruct hist as [|e hist]; [done|].
      rewrite !fmap_cons, !last_cons. by destruct (last hist.*2).
Qed.

End ProvidersFacts.

(** C2: a named slot that is filled is never given another value: not by a
    region's data, not by the rest of the loop from any point on, and so,
    along a call of the resolver, a slot filled at the end of one region's
    iteration has that same value at the end of every later iteration and in
    the mapping returned. *)
Theorem get_providers_first_match_wins (get : Providers.http)
    (tmdb_id media_type region : string) (s : Providers.platform) :
  (∀ p rd, Providers.filled (Providers.slot s p) = true →
           Providers.slot s (Providers.scan_region p rd) = Providers.slot s p) ∧
  (∀ regs n p, Providers.filled (Providers.slot s p) = true →
     Providers.slot s
       (fst (Providers.regions_loop get (Providers.providers_url tmdb_id media_type) regs n p))
     = Providers.slot s p) ∧
  (∀ i j ri pi rj pj,
     Providers.history get tmdb_id media_type region !! i = Some (ri, pi) →
     Providers.history get tmdb_id media_type region !! j = Some (rj, pj) →
     (i ≤ j)%nat → Providers.filled (Providers.slot s pi) = true →
     Providers.slot s pj = Providers.slot s pi ∧
     Providers.slot s (Providers._get_providers get tmdb_id media_type region)
       = Providers.slot s pi).
Proof.
  split; [|split].
  - intros p rd. apply scan_region_slot.
  - intros regs n p Hs. by apply regions_loop_keeps.
  - apply regions_loop_first_match_wins.
Qed.

Lemma get_providers_first_match_wins_witness :
  let us : Providers.region_data :=
    {| Providers.link := Some "https://www.themoviedb.org/movie/603/watch?locale=US";
       Providers.flatrate := [ {| Providers.provider_name := Some "Netflix" |};
                               {| Providers.provider_name := Some "Netflix basic with Ads" |} ] |} in
  let gb : Providers.region_data :=
    {| Providers.link := Some "https://www.themoviedb.org/movie/603/watch?locale=GB";
       Providers.flatrate := [ {| Providers.provider_name := Some "Netflix" |} ] |} in
  let get : Providers.http := λ _ _ _, Providers.Json {[ "US" := us; "GB" := gb ]} in
  let p := Providers._get_providers get "603" "movie" "US" in
  Providers.netflix p = Some "https://www.themoviedb.org/movie/603/watch?locale=US" ∧
  Providers.netflix (Providers.scan_region p gb) = Providers.netflix p.
Proof.
  intros us gb get p.
  destruct (get_providers_first_match_wins get "603" "movie" "US" Providers.Netflix)
    as (Hregion & _ & Hrun).
  split.
  - destruct (Hrun 0%nat 0%nat "US" p "US" p eq_refl eq_refl (le_n 0) eq_refl) as [H _].
    vm_compute. reflexivity.
  - apply (Hregion p gb). vm_compute. reflexivity.
Defined.

(** C3: the requests follow the fallback order; the iteration that fills a
    named slot is the last one; an iteration that leaves the four named slots
    empty, whatever it did to the generic slot, is followed by the next
    region while there is one; a request that failed or brought no entry for
    its region changes nothing and is followed by the next region; and the
    mapping returned is the one the last iteration left. *)
Theorem get_providers_stops_at_first_named (get : Providers.http)
    (tmdb_id media_type region : string) :
  let hist := Providers.history get tmdb_id media_type region in
  let u := Providers.providers_url tmdb_id media_type in
  hist.*1 `prefix_of` [region; "US"; "GB"; "IN"] ∧
  (∀ i r q, hist !! i = Some (r, q) → Providers.any_named q = true → length hist = S i) ∧
  (∀ i r q, hist !! i = Some (r, q) → Providers.any_named q = false →
            (i < 3)%nat → is_Some (hist !! S i)) ∧
  (∀ i r q, hist !! i = Some (r, q) → Providers.no_data (get i u r) r = true →
            Providers.slots_before Providers.no_urls hist i = Some q ∧
            ((i < 3)%nat → is_Some (hist !! S i))) ∧
  last hist.*2 = Some (Providers._get_providers get tmdb_id media_type region).
Proof.
  intros hist u. subst hist.
  unfold Providers.history, Providers._get_providers, Providers.get_providers_run.
  fold u.
  pose proof (regions_loop_history get u (Providers.fallback_regions region) 0
                Providers.no_urls eq_refl) as Hhist.
  pose proof (regions_loop_nonempty get u (Providers.fallback_regions region) 0
                Providers.no_urls) as Hne.
  cbv zeta in Hhist.
  destruct (Providers.regions_loop get u (Providers.fallback_regions region) 0
              Providers.no_urls) as [final hist].
  cbn [fst snd] in *. destruct Hhist as (Hpre & Hcont & Hgo & Hsame & Hlast).
  assert (∀ i r q, hist !! i = Some (r, q) → Providers.any_named q = false →
                   (i < 3)%nat → is_Some (hist !! S i)) as Hnext.
  { intros i r q Hi Hq Hlt. apply lookup_lt_is_Some. apply (Hgo i r q Hi Hq).
    cbn [Providers.fallback_regions length]. lia. }
  split; [exact Hpre|]. split; [|split; [exact Hnext|split]].
  - intros i r q Hi Hq. pose proof (lookup_lt_Some _ _ _ Hi) as Hlt.
    destruct (decide (S i < length hist)%nat) as [Hmore|]; [|lia].
    rewrite (Hcont i r q Hi Hmore) in Hq. done.
  - intros i r q Hi Hno. split; [by apply (Hsame i r q)|].
    intros Hlt. apply (Hnext i r q Hi); [|done].
    specialize (Hsame i r q Hi Hno). unfold Providers.slots_before in Hsame.
    destruct i as [|i].
    + by injection Hsame as <-.
    + destruct (hist !! i) as [[r' q']|] eqn:Hprev; [|done].
      injection Hsame as ->. apply (Hcont i r' q Hprev).
      apply lookup_lt_Some in Hi. lia.
  - destruct (last hist.*2) as [q|] eqn:Hq; [cbn in Hlast; by subst|].
    apply last_None in Hq. apply fmap_nil_inv in Hq. subst hist.
    cbn [Providers.fallback_regions length] in Hne. lia.
Qed.

Lemma get_providers_stops_at_first_named_witness :
  let fr : Providers.region_data :=
    {| Providers.link := Some "https://www.themoviedb.org/tv/1399/watch?locale=FR";
       Providers.flatrate := [ {| Providers.provider_name := Some "Canal+" |} ] |} in
  let gb : Providers.region_data :=
    {| Providers.link := Some "https://www.themoviedb.org/tv/1399/watch?locale=GB";
       Providers.flatrate := [ {| Providers.provider_name := Some "Amazon Prime Video" |};
                               {| Providers.provider_name := None |} ] |} in
  let get : Providers.http := λ n _ _,
    match n with
    | 0%nat => Providers.Json {[ "FR" := fr ]}
    | 1%nat => Providers.RequestFailed (RequestException "503 Server Error")
    | _ => Providers.Json {[ "GB" := gb ]}
    end in
  (Providers.history get "1399" "tv" "FR").*1 = ["FR"; "US"; "GB"] ∧
  Providers.prime (Providers._get_providers get "1399" "tv" "FR")
    = Some "https://www.themoviedb.org/tv/1399/watch?locale=GB" ∧
  length (Providers.history get "1399" "tv" "FR") = 3%nat.
Proof.
  intros fr gb get.
  destruct (get_providers_stops_at_first_named get "1399" "tv" "FR")
    as (_ & Hstop & _ & _ & _).
  split; [vm_compute; reflexivity|]. split; [vm_compute; reflexivity|].
  set (q := Providers._get_providers get "1399" "tv" "FR").
  apply (Hstop 2%nat "GB" q); vm_compute; reflexivity.
Defined.

(* ===================================================================== *)
(** ** Properties of the upload endpoint *)
(* ===================================================================== *)

Section UploadFacts.

Import Upload.

Implicit Types (w : world) (db : database) (file : uploaded_file).

Lemma add_result_rows a rid db :
  search_result_rows (add_result a rid db) = search_result_rows db.
Proof. done. Qed.

(** The validation of [post] is the condition of the description. *)
Lemma valid_upload_spec req :
  valid_upload req = true ↔
  ∃ file, FILES_file req = Some file ∧
          negb (startswith (content_type file) "audio/") = false ∧
          (10 * 1024 * 1024 <? size file) = false.
Proof.
  unfold valid_upload, startswith. destruct (FILES_file req) as [file|].
  - rewrite andb_true_iff, Z.leb_le. split.
    + intros [Hct Hsz]. exists file. rewrite Hct. split; [done|]. split; [done|].
      apply Z.ltb_ge. lia.
    + intros (? & [= <-] & Hct & Hsz). apply negb_false_iff in Hct.
      apply Z.ltb_ge in Hsz. split; [done|lia].
  - split; [done|]. by intros (? & ? & _).
Qed.

(** The loop that saves the merged records: the rows it adds all have a
    url, each is the row of a merged record, and on success they are the
    results it returns. *)
Lemma save_results_inv w h a : ∀ combined acc db db' r,
  save_results w h a combined acc db = (db', r) →
  ∃ new,
    search_result_rows db' = search_result_rows db ++ new ∧
    Forall (λ row, has_url row = true ∧
                   ∃ l d, IDict l ∈ combined ∧ h !! l = Some d ∧
                          truthy (default SNone (d !! "url")) = true ∧
                          row = row_of (sr_id row) d) new ∧
    (∀ rs, r = Ok rs → rs = acc ++ new).
Proof.
  induction combined as [|x combined IH]; intros acc db db' r H; simpl in H.
  - injection H as <- <-. exists []. rewrite !app_nil_r. split; [done|].
    split; [done|]. by intros rs [= <-].
  - assert (∀ (new : list SearchResult),
              Forall (λ row, has_url row = true ∧
                       ∃ l d, IDict l ∈ combined ∧ h !! l = Some d ∧
                              truthy (default SNone (d !! "url")) = true ∧
                              row = row_of (sr_id row) d) new →
              Forall (λ row, has_url row = true ∧
                       ∃ l d, IDict l ∈ x :: combined ∧ h !! l = Some d ∧
                              truthy (default SNone (d !! "url")) = true ∧
                              row = row_of (sr_id row) d) new) as Hweak.
    { intros new Hnew. eapply Forall_impl; [exact Hnew|].
      intros row [? (l & d & ? & ?)]. split; [done|]. exists l, d. split; [set_solver|done]. }
    destruct (get x "url" h) as [h1 [u|e]] eqn:Hget.
    2:{ injection H as <- <-. exists []. rewrite app_nil_r. by repeat split. }
    destruct (negb (truthy u)) eqn:Hu.
    { apply IH in H as (new & Hrows & Hnew & Hrs). exists new. eauto. }
    destruct x as [l|v].
    2:{ injection H as <- <-. exists []. rewrite app_nil_r. by repeat split. }
    unfold get in Hget. apply get_default_inv in Hget as [-> Hv].
    destruct (Hv u eq_refl) as (_ & [d Hd] & ->). simpl in Hu. rewrite Hd in *.
    simpl in Hu, H. apply negb_false_iff in Hu.
    destruct (insert_error w d) as [e|].
    { injection H as <- <-. exists []. rewrite app_nil_r. by repeat split. }
    apply IH in H as (new & Hrows & Hnew & Hrs).
    rewrite add_result_rows in Hrows. simpl in Hrows.
    set (row := row_of (next_id (search_result_skip w (length acc))
                          (sr_id <$> search_result_rows db)) d) in *.
    exists (row :: new). split; [by rewrite Hrows, <- app_assoc|]. split.
    + constructor; [|by apply Hweak]. split.
      * unfold has_url, row, row_of. simpl. by destruct (d !! "url").
      * exists l, d. split; [set_solver|]. by repeat split.
    + intros rs Hr. rewrite (Hrs rs Hr). by rewrite <- app_assoc.
Qed.

(** What the [try] block can answer once the row is created, and what it
    leaves in the tables. *)
Lemma process_created_inv a w db1 db' r :
  process_created a w db1 = (db', r) →
  (no_usable_match (audd w) = true ∧ r = Ok recognition_failed ∧ db' = db1)
  ∨
  (no_usable_match (audd w) = false ∧
   (∀ resp, r = Ok resp → status_code resp = HTTP_200_OK) ∧
   ∃ new,
     search_result_rows db' = search_result_rows db1 ++ new ∧
     Forall (λ row, has_url row = true) new ∧
     ∀ resp, r = Ok resp →
       ∃ sid t, data resp = ResultsBody sid t new).
Proof.
  unfold process_created. pose (db := db1).
  assert (search_result_rows db1 = search_result_rows db) as Hsame by done.
  change (search_result_rows db1 ++ ?x) with (search_result_rows db ++ x).
  unfold _process_audio, no_usable_match.
  destruct (audd w) as [e|code [e|v|d]]; try (intros [= <- <-]; left; by repeat split).
  - destruct (code =? 200); intros [= <- <-]; left; by repeat split.
  - destruct (code =? 200); intros [= <- <-]; left; by repeat split.
  - destruct (code =? 200); cbn [negb orb]; [|intros [= <- <-]; left; by repeat split].
    destruct (bool_decide (status d = Some (SStr "success"))) eqn:Hst; cbn [negb orb andb];
      [|intros [= <- <-]; left; by repeat split].
    destruct (result d) as [au|] eqn:Hres.
    2:{ rewrite bool_decide_eq_false_2 by (by intros [? ?]).
        intros [= <- <-]; left; by repeat split. }
    rewrite (bool_decide_eq_true_2 (is_Some (Some au))) by eauto.
    rewrite Hres. rewrite orb_true_r. cbn [negb orb].
    assert (∀ (db2 : database) (r2 : res response),
              (match enrich (youtube w) au with
               | Raise e => (db1, Raise e)
               | Ok youtube_results =>
                   match enrich (tmdb w) au with
                   | Raise e => (db1, Raise e)
                   | Ok tmdb_results =>
                       let (h, combined_results) :=
                         _combine_results (OList youtube_results) (OList tmdb_results)
                           (objects w) in
                       match save_results w h a combined_results [] db1 with
                       | (db, Raise e) => (db, Raise e)
                       | (db, Ok search_results) =>
                           (mark_processed a (elapsed w) db,
                            Ok {| status_code := HTTP_200_OK;
                                  data := ResultsBody a (Round2 (elapsed w)) search_results |})
                       end
                   end
               end) = (db2, r2) →
              (∀ resp, r2 = Ok resp → status_code resp = HTTP_200_OK) ∧
              ∃ new, search_result_rows db2 = search_result_rows db ++ new ∧
                     Forall (λ row, has_url row = true) new ∧
                     ∀ resp, r2 = Ok resp → ∃ sid t, data resp = ResultsBody sid t new)
      as Hrest.
    { intros db2 r2.
      destruct (enrich (youtube w) au) as [ys|e].
      2:{ intros [= <- <-]. split; [done|]. exists []. rewrite app_nil_r. by repeat split. }
      destruct (enrich (tmdb w) au) as [ts|e].
      2:{ intros [= <- <-]. split; [done|]. exists []. rewrite app_nil_r. by repeat split. }
      destruct (_combine_results (OList ys) (OList ts) (objects w)) as [h combined].
      destruct (save_results w h a combined [] db1) as [db3 r3] eqn:Hsave.
      apply save_results_inv in Hsave as (new & Hrows & Hnew & Hrs).
      rewrite Hsame in Hrows.
      assert (Forall (λ row, has_url row = true) new) as Hnew'.
      { eapply Forall_impl; [exact Hnew|]. by intros row [? _]. }
      destruct r3 as [rs|e]; intros [= <- <-].
      - split; [by intros resp [= <-]|]. exists new. split; [done|]. split; [done|].
        intros resp [= <-]. rewrite (Hrs rs eq_refl). simpl. eauto.
      - split; [done|]. exists new. by repeat split. }
    destruct au as [[|b|n|t]|dres]; intros H.
    + injection H as <- <-. left. by repeat split.
    + right. split; [done|]. by apply Hrest.
    + right. split; [done|]. by apply Hrest.
    + right. split; [done|]. by apply Hrest.
    + right. split; [done|]. by apply Hrest.
Qed.

(** The [try] block: the row cannot be created and the exception is the
    answer, or it is created and the rest follows. *)
Lemma process_inv file w db db' r :
  process file w db = (db', r) →
  (∃ e, create_error w file = Some e ∧ r = Raise e ∧ db' = db)
  ∨
  (create_error w file = None ∧
   ∃ id db1,
     create_audio_search w file db = Ok (id, db1) ∧
     id = next_id (audio_search_skip w) (as_id <$> audio_search_rows db) ∧
     db1 = {| search_result_rows := search_result_rows db;
              audio_search_rows := audio_search_rows db ++
                [{| as_id := id; audio_file := file; search_results := [];
                    is_processed := false; processing_time := None |}] |} ∧
     process_created id w db1 = (db', r)).
Proof.
  unfold process, create_audio_search. destruct (create_error w file) as [e|].
  - intros [= <- <-]. left. eauto.
  - intros H. right. split; [done|]. eauto 10.
Qed.

(** The three ways out of the [try] block. *)
Lemma process_cases file w db db' r :
  process file w db = (db', r) →
  (∃ e, create_error w file = Some e ∧ r = Raise e ∧ db' = db)
  ∨
  (create_error w file = None ∧ no_usable_match (audd w) = true ∧
   r = Ok recognition_failed ∧
   db' = {| search_result_rows := search_result_rows db;
            audio_search_rows := audio_search_rows db ++
              [{| as_id := next_id (audio_search_skip w) (as_id <$> audio_search_rows db);
                  audio_file := file; search_results := [];
                  is_processed := false; processing_time := None |}] |})
  ∨
  (create_error w file = None ∧ no_usable_match (audd w) = false ∧
   (∀ resp, r = Ok resp → status_code resp = HTTP_200_OK) ∧
   ∃ new,
     search_result_rows db' = search_result_rows db ++ new ∧
     Forall (λ row, has_url row = true) new ∧
     ∀ resp, r = Ok resp →
       ∃ sid t, data resp = ResultsBody sid t new).
Proof.
  intros [(e & He & -> & ->)|(Hc & id & db1 & _ & -> & -> & Hp)]%process_inv.
  - left. eauto.
  - right. apply process_created_inv in Hp as [(Hno & -> & ->)|(Hno & Hok & Hnew)].
    + left. by repeat split.
    + right. by repeat split.
Qed.

Lemma next_id_fresh (ids : list nat) (skip i : nat) :
  i ∈ ids → (i < next_id skip ids)%nat.
Proof.
  unfold next_id. induction ids as [|j ids IH]; [by intros ?%elem_of_nil|].
  intros [->|Hin]%elem_of_cons; simpl; [lia|]. specialize (IH Hin). lia.
Qed.

(** The notion of the description, by cases. *)
Lemma no_match_or_malformed_cases o :
  no_match_or_malformed o = true ↔
  no_usable_match o = true ∨ is_Some (malformed_result o).
Proof.
  unfold no_match_or_malformed, no_usable_match, malformed_result.
  destruct o as [e|code [e|v|d]]; try (split; [by left|done]).
  destruct (code =? 200); cbn [negb orb andb]; [|split; [by left|done]].
  destruct (bool_decide (status d = Some (SStr "success"))); cbn [negb orb andb];
    [|split; [by left|done]].
  destruct (result d) as [[v|dr]|]; [| |split; [by left|done]].
  - destruct v; cbn; split; eauto.
  - split; [done|]. by intros [|[? ?]].
Qed.

(** A [result] that is neither null nor an object: the first client raises
    at its first line, and nothing but the row created is left. *)
Lemma process_created_malformed a w db1 v :
  malformed_result (audd w) = Some v →
  process_created a w db1 = (db1, Raise (no_attribute (type_name v) "get")).
Proof.
  unfold malformed_result, process_created, _process_audio.
  destruct (audd w) as [e|code [e|u|d]]; try done.
  destruct (code =? 200); [|done].
  destruct (bool_decide (status d = Some (SStr "success"))) eqn:Hst; [|done].
  cbn [andb]. apply bool_decide_eq_true in Hst.
  destruct (result d) as [[u|dr]|] eqn:Hres; try done.
  destruct (bool_decide (u = SNone)) eqn:Hu; [done|]. intros [= ->].
  apply bool_decide_eq_false in Hu.
  rewrite (bool_decide_eq_true_2 (is_Some (Some _))) by eauto. cbn [andb].
  rewrite Hres, Hst. rewrite (bool_decide_eq_true_2 (is_Some (Some _))) by eauto.
  cbn [orb negb]. by destruct v.
Qed.

Lemma post_valid req file w db :
  FILES_file req = Some file → valid_upload req = true →
  post req w db =
    match process file w db with
    | (db', Ok r) => (db', r)
    | (db', Raise e) =>
        (db', {| status_code := HTTP_500_INTERNAL_SERVER_ERROR;
                 data := ErrorBody ("Processing failed: " +:+ exn_str e) |})
    end.
Proof.
  intros Hfile (file' & Hfile' & Hct & Hsz)%valid_upload_spec.
  rewrite Hfile in Hfile'. injection Hfile' as <-.
  unfold post. by rewrite Hfile, Hct, Hsz.
Qed.

Lemma post_invalid req w db :
  valid_upload req = false →
  ∃ reason, post req w db = (db, bad_request reason) ∧
            (FILES_file req = None → reason = "No file uploaded").
Proof.
  intros Hinv. unfold post. destruct (FILES_file req) as [file|] eqn:Hfile.
  - destruct (negb (startswith (content_type file) "audio/")) eqn:Hct.
    { exists "File must be an audio file". by split. }
    destruct (10 * 1024 * 1024 <? size file) eqn:Hsz.
    { exists "File size must be less than 10MB". by split. }
    assert (valid_upload req = true) as Hv; [|congruence].
    apply valid_upload_spec. exists file. by repeat split.
  - exists "No file uploaded". by split.
Qed.

Lemma post_inv req w db :
  (valid_upload req = false ∧ ∃ reason, post req w db = (db, bad_request reason))
  ∨
  (valid_upload req = true ∧ ∃ file db' r,
     FILES_file req = Some file ∧ process file w db = (db', r) ∧
     post req w db =
       (db', match r with
             | Ok resp => resp
             | Raise e => {| status_code := HTTP_500_INTERNAL_SERVER_ERROR;
                             data := ErrorBody ("Processing failed: " +:+ exn_str e) |}
             end)).
Proof.
  destruct (valid_upload req) eqn:Hv.
  - right. split; [done|]. pose proof Hv as (file & Hfile & _)%valid_upload_spec.
    destruct (process file w db) as [db' r] eqn:Hp. exists file, db', r.
    split; [done|]. split; [done|].
    rewrite (post_valid req file w db Hfile Hv), Hp. by destruct r.
  - left. split; [done|]. destruct (post_invalid req w db Hv) as (reason & Hpost & _). eauto.
Qed.

End UploadFacts.

(** C6: whatever a request does, the rows it adds to the [SearchResult]
    table all have a non-empty url, and a response that carries results
    carries exactly those rows; in the loop that saves the merged records,
    every row written is the row of a merged record whose url is non-empty,
    so a record with an empty or absent url is neither saved nor returned. *)
Theorem post_results_have_url (req : Upload.request) (w : Upload.world) (db : Upload.database) :
  (∃ new,
     Upload.search_result_rows (fst (Upload.post req w db))
       = Upload.search_result_rows db ++ new ∧
     Forall (λ row, Upload.has_url row = true) new ∧
     ∀ sid t results,
       Upload.data (snd (Upload.post req w db)) = Upload.ResultsBody sid t results →
       results = new) ∧
  (∀ h a combined db' r,
     Upload.save_results w h a combined [] db = (db', r) →
     ∃ new,
       Upload.search_result_rows db' = Upload.search_result_rows db ++ new ∧
       Forall (λ row, ∃ l d, IDict l ∈ combined ∧ h !! l = Some d ∧
                             truthy (default SNone (d !! "url")) = true ∧
                             row = Upload.row_of (Upload.sr_id row) d) new ∧
       ∀ rs, r = Ok rs → rs = new).
Proof.
  split.
  - destruct (post_inv req w db) as [[_ (reason & ->)]|(_ & file & db' & r & _ & Hp & ->)].
    + exists []. rewrite app_nil_r. by repeat split.
    + cbn [fst snd].
      apply process_cases in Hp
        as [(e & _ & -> & ->)|[(_ & _ & -> & ->)|(_ & _ & _ & new & Hrows & Hnew & Hresp)]].
      * exists []. rewrite app_nil_r. by repeat split.
      * exists []. rewrite app_nil_r. by repeat split.
      * exists new. split; [done|]. split; [done|]. intros sid t results.
        destruct r as [resp|e]; [|done].
        destruct (Hresp resp eq_refl) as (sid' & t' & ->). by intros [= _ _ <-].
  - intros h a combined db' r Hsave.
    apply save_results_inv in Hsave as (new & Hrows & Hnew & Hrs).
    exists new. split; [done|]. split; [|done].
    eapply Forall_impl; [exact Hnew|]. by intros row [_ ?].
Qed.

Lemma post_results_have_url_witness :
  let file := {| Upload.name := "clip.mp3"; Upload.content_type := "audio/mpeg";
                 Upload.size := 2097152 |} in
  let w := {| Upload.audd := Upload.HttpResponse 200 (Upload.JsonObject
                {| Upload.status := Some (SStr "success");
                   Upload.result := Some (Upload.JDict
                     (rec [("title", SStr "Imagine"); ("artist", SStr "John Lennon")]));
                   Upload.more_keys := true |});
              Upload.youtube := Ok [IDict 0%nat];
              Upload.tmdb := Ok [IDict 1%nat; IDict 2%nat];
              Upload.objects :=
                {[ 0%nat := rec [("title", SStr "Imagine"); ("platform", SStr "YouTube");
                                 ("url", SStr "https://www.youtube.com/watch?v=YkgkThdzX-8")];
                   1%nat := rec [("title", SStr "Imagine: John Lennon"); ("platform", SStr "TMDB");
                                 ("url", SNone)];
                   2%nat := rec [("title", SStr "Imagine That"); ("platform", SStr "TMDB");
                                 ("url", SStr "")] ]};
              Upload.elapsed := 2; Upload.create_error := λ _, None;
              Upload.insert_error := λ _, None;
              Upload.audio_search_skip := 0; Upload.search_result_skip := λ _, 0%nat |} in
  let db := {| Upload.search_result_rows := []; Upload.audio_search_rows := [] |} in
  let out := Upload.post {| Upload.FILES_file := Some file |} w db in
  Upload.status_code (snd out) = 200 ∧
  Forall (λ row, Upload.has_url row = true) (Upload.search_result_rows (fst out)) ∧
  Upload.title <$> Upload.search_result_rows (fst out) = [SStr "Imagine"].
Proof.
  intros file w db out.
  destruct (post_results_have_url {| Upload.FILES_file := Some file |} w db)
    as [(new & Hrows & Hnew & _) _].
  fold out in Hrows. split; [vm_compute; reflexivity|]. split.
  - rewrite Hrows. exact Hnew.
  - vm_compute. reflexivity.
Defined.

(** C7: an upload gets past validation, that is, is not answered with 400,
    exactly when a file is present, its MIME type begins with [audio/] and
    its size is at most 10,485,760 bytes; any other upload is answered with
    400 and a reason, leaves both tables as they were, and a missing file is
    answered with the error [No file uploaded]. *)
Theorem post_validation (req : Upload.request) (w : Upload.world) (db : Upload.database) :
  (Upload.valid_upload req = true ↔ Upload.status_code (snd (Upload.post req w db)) ≠ 400) ∧
  (Upload.valid_upload req = false →
     fst (Upload.post req w db) = db ∧
     ∃ reason, snd (Upload.post req w db)
                 = {| Upload.status_code := 400; Upload.data := Upload.ErrorBody reason |}) ∧
  (Upload.FILES_file req = None →
     Upload.post req w db
       = (db, {| Upload.status_code := 400;
                 Upload.data := Upload.ErrorBody "No file uploaded" |})).
Proof.
  split; [|split].
  - destruct (post_inv req w db) as [[Hv (reason & ->)]|(Hv & file & db' & r & _ & Hp & ->)];
      rewrite Hv; cbn [fst snd].
    + split; [done|]. intros H. by destruct H.
    + split; [|done]. intros _.
      apply process_cases in Hp as [(e & _ & -> & _)|[(_ & _ & -> & _)|(_ & _ & Hok & _)]];
        [done|done|].
      destruct r as [resp|e]; [by rewrite (Hok resp eq_refl)|done].
  - intros Hv. destruct (post_invalid req w db Hv) as (reason & -> & _). split; [done|].
    by exists reason.
  - intros Hnone. unfold Upload.post. by rewrite Hnone.
Qed.

Lemma post_validation_witness :
  let file := {| Upload.name := "clip.mp3"; Upload.content_type := "audio/mpeg";
                 Upload.size := 10485760 |} in
  let w := {| Upload.audd := Upload.PostRaised (RequestException "connection refused");
              Upload.youtube := Ok []; Upload.tmdb := Ok []; Upload.objects := ∅;
              Upload.elapsed := 0; Upload.create_error := λ _, None;
              Upload.insert_error := λ _, None;
              Upload.audio_search_skip := 0; Upload.search_result_skip := λ _, 0%nat |} in
  let db := {| Upload.search_result_rows := []; Upload.audio_search_rows := [] |} in
  Upload.status_code (snd (Upload.post {| Upload.FILES_file := Some file |} w db)) ≠ 400 ∧
  fst (Upload.post {| Upload.FILES_file := Some
         {| Upload.name := "clip.mp3"; Upload.content_type := "audio/mpeg";
            Upload.size := 10485761 |} |} w db) = db ∧
  Upload.post {| Upload.FILES_file := None |} w db
    = (db, {| Upload.status_code := 400; Upload.data := Upload.ErrorBody "No file uploaded" |}).
Proof.
  intros file w db. split; [|split].
  - apply (post_validation {| Upload.FILES_file := Some file |} w db). reflexivity.
  - apply (post_validation {| Upload.FILES_file := Some
         {| Upload.name := "clip.mp3"; Upload.content_type := "audio/mpeg";
            Upload.size := 10485761 |} |} w db). reflexivity.
  - apply (post_validation {| Upload.FILES_file := None |} w db). reflexivity.
Defined.

(** C8, as stated, does not hold: an answer that reports success and whose
    [result] is a string is a malformed response; the endpoint answers 500,
    but with the text of the fault met further down, in which [Audio
    recognition failed] does not occur. *)
Lemma post_malformed_result_counterexample :
  let file := {| Upload.name := "clip.mp3"; Upload.content_type := "audio/mpeg";
                 Upload.size := 2097152 |} in
  let w := {| Upload.audd := Upload.HttpResponse 200 (Upload.JsonObject
                {| Upload.status := Some (SStr "success");
                   Upload.result := Some (Upload.JScalar (SStr "no match"));
                   Upload.more_keys := false |});
              Upload.youtube := Ok []; Upload.tmdb := Ok []; Upload.objects := ∅;
              Upload.elapsed := 1; Upload.create_error := λ _, None;
              Upload.insert_error := λ _, None;
              Upload.audio_search_skip := 0; Upload.search_result_skip := λ _, 0%nat |} in
  let db := {| Upload.search_result_rows := []; Upload.audio_search_rows := [] |} in
  Upload.valid_upload {| Upload.FILES_file := Some file |} = true ∧
  Upload.no_match_or_malformed (Upload.audd w) = true ∧
  snd (Upload.post {| Upload.FILES_file := Some file |} w db)
    = {| Upload.status_code := 500;
         Upload.data :=
           Upload.ErrorBody "Processing failed: 'str' object has no attribute 'get'" |} ∧
  contains "Audio recognition failed"
    "Processing failed: 'str' object has no attribute 'get'" = false.
Proof. vm_compute. by repeat split. Qed.

(** C8, amended: for an upload that passes validation and whose row could be
    created, the endpoint answers 500 whenever the fingerprint service gave
    no usable match in the sense of the description, and that is the case for
    no match or a failed response, or for a [result] that is neither null
    nor an object.  The body is the error [Audio recognition failed or no
    result found], which contains [Audio recognition failed], for no match
    or a failed response, and only then.  For a [result] that is neither
    null nor an object the body is [Processing failed: ] followed by the
    text of the [AttributeError] that the first [.get] on it raises. *)
Theorem post_recognition_failure (req : Upload.request) (file : Upload.uploaded_file)
    (w : Upload.world) (db : Upload.database) :
  Upload.FILES_file req = Some file →
  Upload.valid_upload req = true →
  Upload.create_error w file = None →
  (Upload.no_match_or_malformed (Upload.audd w) = true ↔
     Upload.no_usable_match (Upload.audd w) = true ∨
     is_Some (Upload.malformed_result (Upload.audd w))) ∧
  (Upload.no_match_or_malformed (Upload.audd w) = true →
     Upload.status_code (snd (Upload.post req w db)) = 500) ∧
  (Upload.no_usable_match (Upload.audd w) = true →
     ∃ msg, snd (Upload.post req w db)
              = {| Upload.status_code := 500; Upload.data := Upload.ErrorBody msg |} ∧
            contains "Audio recognition failed" msg = true) ∧
  (Upload.no_usable_match (Upload.audd w) = false →
     snd (Upload.post req w db) ≠ Upload.recognition_failed) ∧
  (∀ v, Upload.malformed_result (Upload.audd w) = Some v →
     snd (Upload.post req w db)
       = {| Upload.status_code := 500;
            Upload.data := Upload.ErrorBody
              ("Processing failed: '" +:+ type_name v +:+
               "' object has no attribute 'get'") |}).
Proof.
  intros Hfile Hv Hc. rewrite (post_valid req file w db Hfile Hv).
  assert (∀ v, Upload.malformed_result (Upload.audd w) = Some v →
            (let (db', r) := Upload.process file w db in
             match r with
             | Ok r => (db', r)
             | Raise e =>
                 (db', {| Upload.status_code := Upload.HTTP_500_INTERNAL_SERVER_ERROR;
                          Upload.data := Upload.ErrorBody ("Processing failed: " +:+ exn_str e) |})
             end).2
            = {| Upload.status_code := 500;
                 Upload.data := Upload.ErrorBody
                   ("Processing failed: '" +:+ type_name v +:+
                    "' object has no attribute 'get'") |}) as Hmal.
  { intros v Hm. destruct (Upload.process file w db) as [db' r] eqn:Hp.
    apply process_inv in Hp as [(e & He & _)|(_ & id & db1 & _ & _ & _ & Hp)]; [congruence|].
    rewrite (process_created_malformed id w db1 v Hm) in Hp. injection Hp as <- <-.
    by destruct v. }
  split; [apply no_match_or_malformed_cases|].
  destruct (Upload.process file w db) as [db' r] eqn:Hp. cbn [snd] in *.
  apply process_cases in Hp
    as [(e & He & _)|[(_ & Hno & -> & _)|(_ & Hno & Hok & _)]]; [congruence| |];
    rewrite Hno.
  - split; [done|]. split; [|split; [done|]].
    + intros _. exists "Audio recognition failed or no result found".
      split; [done|]. vm_compute. reflexivity.
    + intros v Hm. by apply Hmal.
  - split; [|split; [done|split]].
    + intros [?|[v Hm]]%no_match_or_malformed_cases; [congruence|].
      by rewrite (Hmal v Hm).
    + intros _. destruct r as [resp|e]; cbn [snd].
      * intros ->. specialize (Hok _ eq_refl). done.
      * unfold Upload.recognition_failed. by intros [= H].
    + intros v Hm. by apply Hmal.
Qed.

Lemma post_recognition_failure_witness :
  let file := {| Upload.name := "clip.mp3"; Upload.content_type := "audio/mpeg";
                 Upload.size := 2097152 |} in
  let w := {| Upload.audd := Upload.HttpResponse 200 (Upload.JsonObject
                {| Upload.status := Some (SStr "success");
                   Upload.result := Some (Upload.JScalar SNone);
                   Upload.more_keys := false |});
              Upload.youtube := Ok []; Upload.tmdb := Ok []; Upload.objects := ∅;
              Upload.elapsed := 1; Upload.create_error := λ _, None;
              Upload.insert_error := λ _, None;
              Upload.audio_search_skip := 0; Upload.search_result_skip := λ _, 0%nat |} in
  let db := {| Upload.search_result_rows := []; Upload.audio_search_rows := [] |} in
  ∃ msg, snd (Upload.post {| Upload.FILES_file := Some file |} w db)
           = {| Upload.status_code := 500; Upload.data := Upload.ErrorBody msg |} ∧
         contains "Audio recognition failed" msg = true.
Proof.
  intros file w db.
  apply (post_recognition_failure {| Upload.FILES_file := Some file |} file w db
           eq_refl eq_refl eq_refl); reflexivity.
Defined.

(** C10: when an upload passes validation, its row is created and
    recognition fails (no match, a failed response or a malformed one), the
    answer is 500 and the tables are the ones before the request plus one
    [AudioSearch] row for the file, under an id the table did not hold, not
    processed, without a processing time and without results; no
    [SearchResult] row is added. *)
Theorem post_recognition_failure_keeps_audio_search (req : Upload.request)
    (file : Upload.uploaded_file) (w : Upload.world) (db : Upload.database) :
  Upload.FILES_file req = Some file →
  Upload.valid_upload req = true →
  Upload.create_error w file = None →
  Upload.no_match_or_malformed (Upload.audd w) = true →
  Upload.status_code (snd (Upload.post req w db)) = 500 ∧
  ∃ id,
    (id ∉ (Upload.as_id <$> Upload.audio_search_rows db)) ∧
    fst (Upload.post req w db) =
      {| Upload.search_result_rows := Upload.search_result_rows db;
         Upload.audio_search_rows := Upload.audio_search_rows db ++
           [ {| Upload.as_id := id;
                Upload.audio_file := file;
                Upload.search_results := [];
                Upload.is_processed := false;
                Upload.processing_time := None |} ] |}.
Proof.
  intros Hfile Hv Hc Hno. rewrite (post_valid req file w db Hfile Hv).
  destruct (Upload.process file w db) as [db' r] eqn:Hp.
  apply process_inv in Hp as [(e & He & _)|(_ & id & db1 & _ & Hid & Hdb1 & Hp)];
    [congruence|].
  assert (id ∉ (Upload.as_id <$> Upload.audio_search_rows db)) as Hfresh.
  { intros Hin%(next_id_fresh _ (Upload.audio_search_skip w)). lia. }
  apply no_match_or_malformed_cases in Hno as [Hno|[v Hm]].
  - apply process_created_inv in Hp as [(_ & -> & ->)|(Hno' & _)]; [|congruence].
    split; [done|]. exists id. by rewrite Hdb1.
  - rewrite (process_created_malformed id w db1 v Hm) in Hp. injection Hp as <- <-.
    split; [done|]. exists id. by rewrite Hdb1.
Qed.

Lemma post_recognition_failure_keeps_audio_search_witness :
  let file := {| Upload.name := "clip.ogg"; Upload.content_type := "audio/ogg";
                 Upload.size := 4096 |} in
  let w := {| Upload.audd := Upload.HttpResponse 502 (Upload.NotJson (RequestException "Expecting value"));
              Upload.youtube := Ok []; Upload.tmdb := Ok []; Upload.objects := ∅;
              Upload.elapsed := 3; Upload.create_error := λ _, None;
              Upload.insert_error := λ _, None;
              Upload.audio_search_skip := 4; Upload.search_result_skip := λ _, 0%nat |} in
  let db := {| Upload.search_result_rows := []; Upload.audio_search_rows := [] |} in
  ∃ id,
    Upload.audio_search_rows (fst (Upload.post {| Upload.FILES_file := Some file |} w db))
      = [ {| Upload.as_id := id; Upload.audio_file := file; Upload.search_results := [];
             Upload.is_processed := false; Upload.processing_time := None |} ].
Proof.
  intros file w db.
  destruct (post_recognition_failure_keeps_audio_search
              {| Upload.FILES_file := Some file |} file w db eq_refl eq_refl eq_refl eq_refl)
    as [_ (id & _ & ->)].
  by exists id.
Defined.

(* ===================================================================== *)
(** ** Further properties of the merger *)
(* ===================================================================== *)

Section MergeMore.

Import Clients.

Implicit Types (h : store) (x : item) (xs ys ts : list item) (d : dict).

Lemma placeholder_only_refl h : placeholder_only h h.
Proof. intros l key. split; [done|by left]. Qed.

Lemma placeholder_only_trans h1 h2 h3 :
  placeholder_only h1 h2 → placeholder_only h2 h3 → placeholder_only h1 h3.
Proof.
  intros H12 H23 l key. destruct (H12 l key) as [Ha Hb], (H23 l key) as [Hc Hd].
  split; [by etrans|].
  destruct Hd as [Hd|[-> Hd]]; [|by right].
  rewrite Hd. exact Hb.
Qed.

Lemma placeholder_only_insert h (l : nat) d :
  h !! l = Some d →
  placeholder_only h (<[l := <["thumbnail_url" := SStr default_thumbnail]> d]> h).
Proof.
  intros Hl l' key. split.
  - rewrite lookup_insert. case_decide; subst; [|done]. rewrite Hl. by split; eauto.
  - simpl. rewrite lookup_insert. case_decide; subst; [|by left].
    rewrite Hl. simpl. destruct (decide (key = "thumbnail_url")) as [->|Hk].
    + right. split; [done|]. by rewrite lookup_insert_eq.
    + left. by rewrite lookup_insert_ne.
Qed.

Lemma ensure_thumbnail_placeholder_only x h h' (r : res ()) :
  ensure_thumbnail x h = (h', r) → placeholder_only h h'.
Proof.
  unfold ensure_thumbnail. intros H.
  apply bind_inv in H as [(h1 & t & Hget & H)|(e & Hget & _)];
    apply get_default_inv in Hget as [-> _]; [|apply placeholder_only_refl].
  apply bind_inv in H as [(h2 & bad & Hbad & H)|(e & Hbad & _)].
  - assert (h2 = h) as ->.
    { destruct (negb (truthy t)); [by inversion Hbad|].
      apply bind_inv in Hbad as [(h3 & v & Hv & Hbad)|(e & Hv & [=])].
      apply getitem_inv in Hv as [-> _]. by inversion Hbad. }
    destruct bad; [|inversion H; apply placeholder_only_refl].
    unfold setitem in H.
    destruct x as [l|w]; [|inversion H; apply placeholder_only_refl].
    unfold bind, deref in H. destruct (h !! l) as [d|] eqn:Hl;
      inversion H; subst; [by apply placeholder_only_insert|apply placeholder_only_refl].
  - destruct (negb (truthy t)); [by inversion Hbad|].
    apply bind_inv in Hbad as [(h3 & v & Hv & Hbad)|(e' & Hv & _)];
      apply getitem_inv in Hv as [-> _]; [|apply placeholder_only_refl].
    inversion Hbad; subst. apply placeholder_only_refl.
Qed.

Lemma youtube_loop_placeholder_only rs : ∀ h combined h' (r : res (list item)),
  youtube_loop rs combined h = (h', r) → placeholder_only h h'.
Proof.
  induction rs as [|x rs IH]; intros h combined h' r H; simpl in H.
  - unfold ret in H. injection H as <- _. apply placeholder_only_refl.
  - apply bind_inv in H as [(h1 & [] & Hx & H)|(e & Hx & _)];
      apply ensure_thumbnail_placeholder_only in Hx; [|done].
    apply IH in H. by eapply placeholder_only_trans.
Qed.

Lemma tmdb_loop_placeholder_only ts : ∀ h combined seen h' (r : res (list item)),
  tmdb_loop ts combined seen h = (h', r) → placeholder_only h h'.
Proof.
  induction ts as [|x ts IH]; intros h combined seen h' r H; simpl in H.
  - unfold ret in H. injection H as <- _. apply placeholder_only_refl.
  - apply bind_inv in H as [(h1 & skip & Hskip & H)|(e & Hskip & _)];
      apply skip_probe_inv in Hskip as [-> _]; [|apply placeholder_only_refl].
    destruct skip; [by apply IH in H|].
    apply bind_inv in H as [(h1 & t & Hget & H)|(e & Hget & _)];
      apply getitem_inv in Hget as [-> _]; [|apply placeholder_only_refl].
    apply bind_inv in H as [(h1 & low & Hlow & H)|(e & Hlow & _)];
      apply lower_inv in Hlow as [-> _]; [|apply placeholder_only_refl].
    destruct (bool_decide (strip low ∈ seen)); [by apply IH in H|].
    apply bind_inv in H as [(h1 & [] & Hth & H)|(e & Hth & _)];
      apply ensure_thumbnail_placeholder_only in Hth; [|done].
    apply IH in H. by eapply placeholder_only_trans.
Qed.

(** X1: whatever its arguments, the merger neither adds nor removes a record
    of the store, and leaves every field as it was, except that a thumbnail
    may have become the placeholder. *)
Theorem combine_results_writes_placeholders_only (y t : pyobj) h :
  placeholder_only h (fst (_combine_results y t h)).
Proof.
  destruct y as [ys|x], t as [ts|x']; try apply placeholder_only_refl.
  unfold _combine_results.
  destruct (combine_lists ys ts h) as [h' r] eqn:Hc.
  assert (placeholder_only h h') as Hfr.
  { unfold combine_lists in Hc.
    apply bind_inv in Hc as [(h1 & c1 & Hy & Hc)|(e & Hy & _)];
      apply youtube_loop_placeholder_only in Hy; [|done].
    apply bind_inv in Hc as [(h2 & seen & Hs & Hc)|(e & Hs & _)];
      apply title_set_inv in Hs as [-> _]; [|done].
    apply tmdb_loop_placeholder_only in Hc. by eapply placeholder_only_trans. }
  by destruct r.
Qed.

Lemma tmdb_loop_sublist ts : ∀ h combined seen h' c,
  tmdb_loop ts combined seen h = (h', Ok c) →
  ∃ rest, c = combined ++ rest ∧ rest `sublist_of` ts.
Proof.
  induction ts as [|x ts IH]; intros h combined seen h' c H; simpl in H.
  - unfold ret in H. injection H as _ <-. exists []. by rewrite app_nil_r.
  - apply bind_inv in H as [(h1 & skip & _ & H)|(e & _ & [=])].
    destruct skip.
    { apply IH in H as (rest & -> & Hsub). exists rest. split; [done|].
      by apply sublist_cons. }
    apply bind_inv in H as [(h2 & t & _ & H)|(e & _ & [=])].
    apply bind_inv in H as [(h3 & low & _ & H)|(e & _ & [=])].
    destruct (bool_decide (strip low ∈ seen)).
    { apply IH in H as (rest & -> & Hsub). exists rest. split; [done|].
      by apply sublist_cons. }
    apply bind_inv in H as [(h4 & [] & _ & H)|(e & _ & [=])].
    apply IH in H as (rest & -> & Hsub). exists (x :: rest).
    split; [by rewrite <- app_assoc|]. by apply sublist_skip.
Qed.

(** X2: with a list as first argument, the result is that list followed by
    a subsequence of the second list, in the order of the second list; so
    its length lies between the length of the first list and the sum of the
    two lengths. *)
Theorem combine_results_order h ys ts :
  ∃ rest, snd (_combine_results (OList ys) (OList ts) h) = ys ++ rest ∧
          rest `sublist_of` ts ∧
          (length ys ≤ length (snd (_combine_results (OList ys) (OList ts) h))
             ≤ length ys + length ts)%nat.
Proof.
  assert (∃ rest, snd (_combine_results (OList ys) (OList ts) h) = ys ++ rest ∧
                  rest `sublist_of` ts) as (rest & Hout & Hsub).
  { unfold _combine_results.
    destruct (combine_lists ys ts h) as [h' [c|e]] eqn:Hc; simpl.
    2:{ exists []. rewrite app_nil_r. split; [done|]. apply sublist_nil_l. }
    unfold combine_lists in Hc.
    apply bind_inv in Hc as [(h1 & c1 & Hy & Hc)|(e & _ & [=])].
    apply youtube_loop_inv in Hy as [_ Hc1]. rewrite (Hc1 c1 eq_refl) in Hc.
    apply bind_inv in Hc as [(h2 & seen & _ & Hc)|(e & _ & [=])].
    apply tmdb_loop_sublist in Hc as (rest & -> & Hsub). simpl. eauto. }
  exists rest. split; [done|]. split; [done|].
  rewrite Hout, length_app. apply sublist_length in Hsub. lia.
Qed.

Lemma wf_list_Forall h xs : wf_list h xs = true ↔ Forall (λ x, wf_item h x = true) xs.
Proof. unfold wf_list. rewrite forallb_forall, Forall_forall. by setoid_rewrite list_elem_of_In. Qed.

Lemma wf_list_merge_spec h ys ts :
  wf_list h ys = true → wf_list h ts = true → wf_list h (merge_spec h ys ts) = true.
Proof.
  rewrite !wf_list_Forall. intros Hys Hts. unfold merge_spec.
  apply Forall_app. split; [done|]. rewrite Forall_forall in Hts |- *.
  intros x [Hx _]%append_unseen_fresh. by apply Hts.
Qed.

(** X3: on well-formed lists, every record appended after the first list has
    a non-empty title, no two appended records have the same normal title,
    and none has the normal title of a record of the first list. *)
Theorem combine_results_distinct_titles h ys ts :
  wf_list h ys = true → wf_list h ts = true →
  let rest := drop (length ys) (snd (_combine_results (OList ys) (OList ts) h)) in
  Forall (λ x, is_Some (normal_title h x)) rest ∧
  NoDup (omap (normal_title h) rest) ∧
  ∀ x y n, x ∈ rest → y ∈ ys → normal_title h x = Some n → normal_title h y ≠ Some n.
Proof.
  intros Hys Hts rest. subst rest. unfold _combine_results.
  rewrite (combine_lists_wf h ys ts Hys Hts). cbn [snd]. unfold merge_spec.
  rewrite drop_app_length. unfold normal_title. split; [|split].
  - rewrite Forall_forall. intros x [_ (t & -> & _)]%append_unseen_fresh. by eexists.
  - apply append_unseen_NoDup.
  - intros x y n [_ (t & Ht & Hnew)]%append_unseen_fresh Hy. rewrite Ht. simpl.
    intros [= <-] Hyn. destruct (record_title h y) as [u|] eqn:Hu; [|done].
    simpl in Hyn. injection Hyn as Hyn. apply Hnew. rewrite <- Hyn.
    by apply (seen_titles_elem h ys y u).
Qed.

Lemma combine_results_distinct_titles_witness :
  let h : store :=
    {[ 0%nat := rec [("title", SStr "Imagine")];
       1%nat := rec [("title", SStr "imagine ")];
       2%nat := rec [("title", SStr "Yesterday")];
       3%nat := rec [("title", SStr "YESTERDAY")] ]} in
  NoDup (omap (Clients.normal_title h)
           (drop 1 (snd (_combine_results (OList [IDict 0%nat])
                           (OList [IDict 1%nat; IDict 2%nat; IDict 3%nat]) h)))).
Proof.
  intros h.
  apply (combine_results_distinct_titles h [IDict 0%nat]
           [IDict 1%nat; IDict 2%nat; IDict 3%nat] eq_refl eq_refl).
Defined.

Lemma default_thumbnail_valid : thumbnail_valid (Some (SStr default_thumbnail)) = true.
Proof. vm_compute. reflexivity. Qed.

Lemma with_placeholder_valid d :
  field_ok (d !! "thumbnail_url") = true →
  thumbnail_valid (with_placeholder d !! "thumbnail_url") = true.
Proof.
  intros Hok. unfold with_placeholder, thumbnail_invalid.
  destruct (d !! "thumbnail_url") as [[|b|n|s]|] eqn:Hd; simpl in *;
    rewrite ?Hok, ?lookup_insert_eq; try apply default_thumbnail_valid.
  destruct (String.eqb s "") eqn:Hs; simpl.
  - rewrite lookup_insert_eq. apply default_thumbnail_valid.
  - destruct (endswith s "None") eqn:He; simpl.
    + rewrite lookup_insert_eq. apply default_thumbnail_valid.
    + rewrite Hd. simpl. by rewrite Hs, He.
Qed.

Lemma with_placeholder_id d :
  thumbnail_valid (d !! "thumbnail_url") = true → with_placeholder d = d.
Proof.
  unfold with_placeholder, thumbnail_invalid, thumbnail_valid.
  destruct (d !! "thumbnail_url") as [[|b|n|s]|]; try done.
  intros [Hs He]%andb_true_iff. apply negb_true_iff in Hs, He. by rewrite Hs, He.
Qed.

Lemma placeholder_at_keeps_valid h y x :
  thumbnail_valid (field h x "thumbnail_url") = true →
  thumbnail_valid (field (placeholder_at h y) x "thumbnail_url") = true.
Proof.
  destruct y as [l'|v], x as [l|w]; try done. simpl.
  rewrite lookup_alter. case_decide; [subst|done].
  destruct (h !! l) as [d|]; [|done]. simpl. intros Hv. by rewrite with_placeholder_id.
Qed.

Lemma placeholders_keeps_valid ys : ∀ h x,
  thumbnail_valid (field h x "thumbnail_url") = true →
  thumbnail_valid (field (placeholders ys h) x "thumbnail_url") = true.
Proof.
  induction ys as [|y ys IH]; intros h x Hv; [done|]. simpl. apply IH.
  by apply placeholder_at_keeps_valid.
Qed.

Lemma placeholder_at_valid h x :
  wf_item h x = true →
  thumbnail_valid (field (placeholder_at h x) x "thumbnail_url") = true.
Proof.
  intros (l & d & -> & Hl & _ & Hth)%wf_item_inv. simpl.
  rewrite lookup_alter_eq, Hl. simpl. by apply with_placeholder_valid.
Qed.

Lemma placeholders_valid xs : ∀ h,
  wf_list h xs = true →
  Forall (λ x, thumbnail_valid (field (placeholders xs h) x "thumbnail_url") = true) xs.
Proof.
  induction xs as [|x xs IH]; intros h Hwf; [done|].
  apply andb_true_iff in Hwf as [Hx Hxs]. simpl. constructor.
  - apply placeholders_keeps_valid. by apply placeholder_at_valid.
  - apply IH. by apply wf_list_placeholder_at.
Qed.

Lemma placeholder_at_id h x :
  thumbnail_valid (field h x "thumbnail_url") = true → placeholder_at h x = h.
Proof.
  destruct x as [l|w]; [|done]. simpl. destruct (h !! l) as [d|] eqn:Hl; [|done].
  simpl. intros Hv. rewrite (alter_Some_insert h l d) by done.
  rewrite with_placeholder_id by done. by apply insert_id.
Qed.

Lemma placeholders_id xs h :
  Forall (λ x, thumbnail_valid (field h x "thumbnail_url") = true) xs →
  placeholders xs h = h.
Proof.
  induction 1 as [|x xs Hx Hxs IH]; [done|]. simpl. by rewrite placeholder_at_id.
Qed.

(** X4: on well-formed lists, every record the merger returns has, in the
    store it leaves, a thumbnail that is a non-empty text not ending in None. *)
Theorem combine_results_ensures_thumbnails h ys ts :
  wf_list h ys = true → wf_list h ts = true →
  Forall (λ x, thumbnail_valid
                 (field (fst (_combine_results (OList ys) (OList ts) h)) x "thumbnail_url")
               = true)
         (snd (_combine_results (OList ys) (OList ts) h)).
Proof.
  intros Hys Hts. unfold _combine_results.
  rewrite (combine_lists_wf h ys ts Hys Hts). cbn [fst snd].
  apply placeholders_valid. by apply wf_list_merge_spec.
Qed.

Lemma combine_results_ensures_thumbnails_witness :
  let h : store :=
    {[ 0%nat := rec [("title", SStr "a"); ("thumbnail_url", SNone)];
       1%nat := rec [("title", SStr "b"); ("thumbnail_url", SStr "https://image.tmdb.org/t/p/w500None")] ]} in
  let out := _combine_results (OList [IDict 0%nat]) (OList [IDict 1%nat]) h in
  Forall (λ x, Clients.thumbnail_valid (field (fst out) x "thumbnail_url") = true) (snd out).
Proof.
  intros h out.
  apply (combine_results_ensures_thumbnails h [IDict 0%nat] [IDict 1%nat] eq_refl eq_refl).
Defined.

Lemma record_title_placeholders ys : ∀ h x,
  record_title (placeholders ys h) x = record_title h x.
Proof.
  induction ys as [|y ys IH]; intros h x; [done|]. simpl.
  by rewrite IH, record_title_placeholder_at.
Qed.

Lemma seen_titles_app h xs ys :
  seen_titles h (xs ++ ys) = seen_titles h xs ∪ seen_titles h ys.
Proof.
  induction xs as [|x xs IH]; simpl; [set_solver|].
  destruct (record_title h x); rewrite IH; set_solver.
Qed.

(** X5: on well-formed lists, merging the result once more with the same
    second list changes nothing: neither the list nor the store. *)
Theorem combine_results_again h ys ts :
  wf_list h ys = true → wf_list h ts = true →
  let out := _combine_results (OList ys) (OList ts) h in
  _combine_results (OList (snd out)) (OList ts) (fst out) = out.
Proof.
  intros Hys Hts out. subst out.
  set (m := merge_spec h ys ts). set (h1 := placeholders m h).
  assert (_combine_results (OList ys) (OList ts) h = (h1, m)) as ->.
  { unfold _combine_results. by rewrite (combine_lists_wf h ys ts Hys Hts). }
  cbn [fst snd].
  assert (wf_list h m = true) as Hm by (by apply wf_list_merge_spec).
  assert (wf_list h1 m = true) as Hm1 by (by apply wf_list_placeholders).
  assert (wf_list h1 ts = true) as Hts1 by (by apply wf_list_placeholders).
  unfold _combine_results. rewrite (combine_lists_wf h1 m ts Hm1 Hts1).
  assert (merge_spec h1 m ts = m) as ->.
  { unfold merge_spec at 1. rewrite append_unseen_all_seen; [by rewrite app_nil_r|].
    intros x t Hx Ht. unfold h1 in *.
    rewrite seen_titles_placeholders. rewrite record_title_placeholders in Ht.
    destruct (append_unseen_complete h ts (seen_titles h ys) x t Hx Ht)
      as [Hseen|(y & Hy & Hn)].
    - unfold m, merge_spec. rewrite seen_titles_app. set_solver.
    - destruct (record_title h y) as [u|] eqn:Hu; [|done]. simpl in Hn.
      injection Hn as Hn. rewrite <- Hn.
      apply (seen_titles_elem h m y u); [|done]. unfold m, merge_spec. set_solver. }
  f_equal. apply placeholders_id. by apply placeholders_valid.
Qed.

Lemma combine_results_again_witness :
  let h : store :=
    {[ 0%nat := rec [("title", SStr "Imagine")];
       1%nat := rec [("title", SStr "Imagine")];
       2%nat := rec [("title", SStr "Let It Be")] ]} in
  let out := _combine_results (OList [IDict 0%nat]) (OList [IDict 1%nat; IDict 2%nat]) h in
  snd (_combine_results (OList (snd out)) (OList [IDict 1%nat; IDict 2%nat]) (fst out))
    = [IDict 0%nat; IDict 2%nat].
Proof.
  intros h out. subst out.
  pose proof (combine_results_again h [IDict 0%nat] [IDict 1%nat; IDict 2%nat]
                eq_refl eq_refl) as H.
  cbv zeta in H. rewrite H. vm_compute. reflexivity.
Defined.

Lemma youtube_loop_not_ok rs : ∀ h combined h' c x,
  x ∈ rs → isinstance_dict x = false →
  youtube_loop rs combined h ≠ (h', Ok c).
Proof.
  induction rs as [|y rs IH]; intros h combined h' c x; [by intros ?%elem_of_nil|].
  intros Hin Hx H. simpl in H.
  apply bind_inv in H as [(h1 & [] & Hy & H)|(e & _ & [=])].
  apply elem_of_cons in Hin as [<-|Hin]; [|by apply (IH _ _ _ _ x Hin Hx) in H].
  unfold ensure_thumbnail, get in Hy.
  apply bind_inv in Hy as [(h2 & t & Hget & _)|(e & _ & [=])].
  apply get_default_inv in Hget as [_ Ht]. destruct (Ht t eq_refl) as (Hd & _). congruence.
Qed.

(** X6: an element of the first list that is not a mapping makes the merger
    return the first list as it is: nothing of the second list is appended,
    whatever it holds. *)
Theorem combine_results_bad_first_element h ys (t : pyobj) x :
  x ∈ ys → isinstance_dict x = false →
  snd (_combine_results (OList ys) t h) = ys.
Proof.
  intros Hin Hx. destruct t as [ts|y]; [|done]. unfold _combine_results.
  destruct (combine_lists ys ts h) as [h' [c|e]] eqn:Hc; [|done]. exfalso.
  unfold combine_lists in Hc.
  apply bind_inv in Hc as [(h1 & c1 & Hy & _)|(e & _ & [=])].
  by apply (youtube_loop_not_ok _ _ _ _ _ x Hin Hx) in Hy.
Qed.

Lemma combine_results_bad_first_element_witness :
  let h : store := {[ 0%nat := rec [("title", SStr "Imagine")];
                      1%nat := rec [("title", SStr "Let It Be")] ]} in
  snd (_combine_results (OList [IDict 0%nat; IOther (SStr "oops")]) (OList [IDict 1%nat]) h)
    = [IDict 0%nat; IOther (SStr "oops")].
Proof.
  intros h.
  apply (combine_results_bad_first_element h _ _ (IOther (SStr "oops")));
    [set_solver|reflexivity].
Defined.

Lemma tmdb_loop_not_ok ts : ∀ h0 h combined seen h' c x,
  thumbs_only h0 h → x ∈ ts → title_not_text h0 x = true →
  tmdb_loop ts combined seen h ≠ (h', Ok c).
Proof.
  induction ts as [|y ts IH]; intros h0 h combined seen h' c x Hfr;
    [by intros ?%elem_of_nil|].
  intros Hin Hx H. simpl in H.
  apply bind_inv in H as [(h1 & skip & Hskip & H)|(e & _ & [=])].
  apply skip_probe_inv in Hskip as [-> Hb]. specialize (Hb skip eq_refl). subst skip.
  apply elem_of_cons in Hin as [<-|Hin].
  - unfold title_not_text in Hx. rewrite (thumbs_only_field h0 h x "title") in Hx by done.
    unfold titled in H. destruct (field h x "title") as [v|] eqn:Hv; [|done].
    assert (truthy v = true) as Hv' by (by destruct v). rewrite Hv' in H. cbn [negb] in H.
    apply bind_inv in H as [(h1 & t & Hget & H)|(e & _ & [=])].
    apply getitem_inv in Hget as [-> Ht]. rewrite (Ht t eq_refl) in Hv. injection Hv as ->.
    apply bind_inv in H as [(h1 & low & Hlow & _)|(e & _ & [=])].
    apply lower_inv in Hlow as [_ Hl]. destruct (Hl low eq_refl) as (t' & -> & _). done.
  - destruct (negb (titled h y)); [by apply (IH h0 _ _ _ _ _ x Hfr Hin Hx) in H|].
    apply bind_inv in H as [(h1 & t & Hget & H)|(e & _ & [=])].
    apply getitem_inv in Hget as [-> _].
    apply bind_inv in H as [(h1 & low & Hlow & H)|(e & _ & [=])].
    apply lower_inv in Hlow as [-> _].
    destruct (bool_decide (strip low ∈ seen));
      [by apply (IH h0 _ _ _ _ _ x Hfr Hin Hx) in H|].
    apply bind_inv in H as [(h1 & [] & Hth & H)|(e & _ & [=])].
    apply ensure_thumbnail_frame in Hth.
    assert (thumbs_only h0 h1) as Hfr1 by (by eapply thumbs_only_trans).
    by apply (IH h0 _ _ _ _ _ x Hfr1 Hin Hx) in H.
Qed.

(** X7: a record of the second list whose title is truthy but not text makes
    the merger return the first list only: the records of the second list
    it had already appended are not returned. *)
Theorem combine_results_bad_second_title h ys ts x :
  x ∈ ts → title_not_text h x = true →
  snd (_combine_results (OList ys) (OList ts) h) = ys.
Proof.
  intros Hin Hx. unfold _combine_results.
  destruct (combine_lists ys ts h) as [h' [c|e]] eqn:Hc; [|done]. exfalso.
  unfold combine_lists in Hc.
  apply bind_inv in Hc as [(h1 & c1 & Hy & Hc)|(e & _ & [=])].
  apply youtube_loop_inv in Hy as [Hfr _].
  apply bind_inv in Hc as [(h2 & seen & Hs & Hc)|(e & _ & [=])].
  apply title_set_inv in Hs as [-> _].
  by apply (tmdb_loop_not_ok _ h _ _ _ _ _ x Hfr Hin Hx) in Hc.
Qed.

Lemma combine_results_bad_second_title_witness :
  let h : store := {[ 0%nat := rec [("title", SStr "Imagine")];
                      1%nat := rec [("title", SStr "Let It Be")];
                      2%nat := rec [("title", SInt 1984)] ]} in
  snd (_combine_results (OList [IDict 0%nat]) (OList [IDict 1%nat; IDict 2%nat]) h)
    = [IDict 0%nat].
Proof.
  intros h.
  apply (combine_results_bad_second_title h _ _ (IDict 2%nat)); [set_solver|reflexivity].
Defined.

End MergeMore.

(* ===================================================================== *)
(** ** Further properties of the provider resolver *)
(* ===================================================================== *)

Section ProvidersMore.

Import Providers.

Variable get : http.
Variable base_url : string.

Implicit Types (p q : provider_urls) (s : platform) (regs : list string).

(** The links of a region: once its data is scanned, the generic slot is its
    link, and so is every named slot that is filled, if none was before. *)
Lemma scan_region_links p rd :
  any_named p = false →
  tmdb_watch (scan_region p rd) = link rd ∧
  ∀ s, filled (slot s (scan_region p rd)) = true → slot s (scan_region p rd) = link rd.
Proof.
  intros Hp. unfold scan_region.
  assert (∀ provs q,
            (tmdb_watch q = link rd ∧ ∀ s, filled (slot s q) = true → slot s q = link rd) →
            tmdb_watch (foldl scan_provider q provs) = link rd ∧
            ∀ s, filled (slot s (foldl scan_provider q provs)) = true →
                 slot s (foldl scan_provider q provs) = link rd) as Hfold.
  { induction provs as [|prov provs IH]; intros q Hq; [done|]. simpl. apply IH.
    destruct Hq as [Hw Hq]. split; [by rewrite scan_provider_tmdb_watch|].
    intros s. unfold scan_provider.
    repeat case_match; destruct s; simpl; try (apply (Hq Netflix));
      try (apply (Hq Prime)); try (apply (Hq Hulu)); try (apply (Hq Disney)); by intros _. }
  apply Hfold. split; [done|]. intros s Hs. exfalso.
  unfold any_named in Hp. apply orb_false_iff in Hp as [Hp Hd].
  apply orb_false_iff in Hp as [Hp Hh]. apply orb_false_iff in Hp as [Hn Hp].
  destruct s; simpl in Hs; congruence.
Qed.

Lemma regions_loop_links regs : ∀ n p,
  any_named p = false →
  ∀ s, filled (slot s (fst (regions_loop get base_url regs n p))) = true →
       slot s (fst (regions_loop get base_url regs n p))
         = tmdb_watch (fst (regions_loop get base_url regs n p)).
Proof.
  induction regs as [|reg regs IH]; intros n p Hp s.
  { simpl. intros Hs. exfalso. unfold any_named in Hp.
    apply orb_false_iff in Hp as [Hp Hd]. apply orb_false_iff in Hp as [Hp Hh].
    apply orb_false_iff in Hp as [Hn Hp]. destruct s; simpl in Hs; congruence. }
  rewrite regions_loop_cons. cbv zeta.
  pose proof (after_region_no_data get base_url reg n p) as Hskip.
  destruct (negb (no_data (get n base_url reg) reg)
            && any_named (after_region get base_url reg n p)) eqn:Hstop.
  - cbn [fst]. apply andb_true_iff in Hstop as [Hdata _]. unfold after_region, no_data in *.
    destruct (get n base_url reg) as [e|results]; [done|].
    destruct (results !! reg) as [rd|]; [|by rewrite bool_decide_eq_true_2 in Hdata].
    destruct (scan_region_links p rd Hp) as [Hw Hs]. intros Hf. by rewrite Hw, Hs.
  - assert (any_named (after_region get base_url reg n p) = false) as Hp'.
    { destruct (no_data (get n base_url reg) reg) eqn:Hno.
      - by rewrite Hskip.
      - by destruct (any_named _). }
    specialize (IH (S n) _ Hp' s).
    by destruct (regions_loop get base_url regs (S n) (after_region get base_url reg n p)).
Qed.

(** When no request brings data, the loop asks every region and changes
    nothing. *)
Lemma regions_loop_silent regs : ∀ n p,
  (∀ k reg, no_data (get k base_url reg) reg = true) →
  regions_loop get base_url regs n p = (p, (λ reg, (reg, p)) <$> regs).
Proof.
  induction regs as [|reg regs IH]; intros n p Hsilent; [done|].
  rewrite regions_loop_cons. cbv zeta.
  rewrite (after_region_no_data get base_url reg n p) by apply Hsilent.
  rewrite Hsilent. cbn [negb andb]. by rewrite IH.
Qed.

(** Every entry of the history is the step of the loop on the slots before it. *)
Lemma regions_loop_step regs : ∀ n p i r q,
  snd (regions_loop get base_url regs n p) !! i = Some (r, q) →
  ∃ q0, slots_before p (snd (regions_loop get base_url regs n p)) i = Some q0 ∧
        q = after_region get base_url r (n + i) q0.
Proof.
  induction regs as [|reg regs IH]; intros n p i r q; [done|].
  rewrite regions_loop_cons. cbv zeta.
  set (p' := after_region get base_url reg n p).
  destruct (negb (no_data (get n base_url reg) reg) && any_named p').
  - simpl. destruct i as [|i]; [|done]. intros [= <- <-]. exists p.
    by rewrite Nat.add_0_r.
  - specialize (IH (S n) p').
    destruct (regions_loop get base_url regs (S n) p') as [final hist]. simpl in *.
    destruct i as [|i]; simpl.
    + intros [= <- <-]. exists p. by rewrite Nat.add_0_r.
    + intros Hi. destruct (IH i r q Hi) as (q0 & Hq0 & ->).
      rewrite Nat.add_succ_r. exists q0. split; [|done].
      destruct i as [|i]; simpl in *; [by injection Hq0 as <-|done].
Qed.

End ProvidersMore.

(** X8: every named slot of the mapping returned that is filled holds the
    same link as the generic watch-page slot of that mapping. *)
Theorem get_providers_named_is_watch_link (get : Providers.http)
    (tmdb_id media_type region : string) (s : Providers.platform) :
  Providers.filled (Providers.slot s (Providers._get_providers get tmdb_id media_type region))
    = true →
  Providers.slot s (Providers._get_providers get tmdb_id media_type region)
    = Providers.tmdb_watch (Providers._get_providers get tmdb_id media_type region).
Proof. by apply regions_loop_links. Qed.

Lemma get_providers_named_is_watch_link_witness :
  let us : Providers.region_data :=
    {| Providers.link := Some "https://www.themoviedb.org/movie/603/watch?locale=US";
       Providers.flatrate := [ {| Providers.provider_name := Some "Hulu" |};
                               {| Providers.provider_name := Some "Disney Plus" |} ] |} in
  let get : Providers.http := λ _ _ _, Providers.Json {[ "US" := us ]} in
  Providers.hulu (Providers._get_providers get "603" "movie" "FR")
    = Providers.tmdb_watch (Providers._get_providers get "603" "movie" "FR").
Proof.
  intros us get.
  apply (get_providers_named_is_watch_link get "603" "movie" "FR" Providers.Hulu).
  vm_compute. reflexivity.
Defined.

(** X9: when every request fails or brings no entry for the region asked,
    the resolver asks all four regions, in order, and returns the mapping
    with its five slots absent. *)
Theorem get_providers_silent (get : Providers.http) (tmdb_id media_type region : string) :
  Clients.silent get (Providers.providers_url tmdb_id media_type) →
  Providers._get_providers get tmdb_id media_type region = Providers.no_urls ∧
  (Providers.history get tmdb_id media_type region).*1 = [region; "US"; "GB"; "IN"].
Proof.
  intros Hsilent.
  unfold Providers._get_providers, Providers.history, Providers.get_providers_run.
  by rewrite regions_loop_silent.
Qed.

Lemma get_providers_silent_witness :
  let get : Providers.http := λ n _ _,
    match n with
    | 0%nat => Providers.RequestFailed (RequestException "404 Client Error")
    | _ => Providers.Json ∅
    end in
  Providers._get_providers get "1" "tv" "DE" = Providers.no_urls.
Proof.
  intros get. apply (get_providers_silent get "1" "tv" "DE").
  intros [|n] reg; reflexivity.
Defined.

(** X10: a request that brings data for its region sets the generic
    watch-page slot to that region's link, whatever the slot held: unlike
    the named slots, the generic one follows the last region with data. *)
Theorem get_providers_watch_link_follows (get : Providers.http)
    (tmdb_id media_type region : string) i r q results rd :
  Providers.history get tmdb_id media_type region !! i = Some (r, q) →
  get i (Providers.providers_url tmdb_id media_type) r = Providers.Json results →
  results !! r = Some rd →
  Providers.tmdb_watch q = Providers.link rd.
Proof.
  intros Hi Hget Hrd.
  apply regions_loop_step in Hi as (q0 & _ & ->). simpl.
  unfold Providers.after_region. rewrite Hget, Hrd.
  unfold Providers.scan_region.
  assert (∀ provs p, Providers.tmdb_watch (foldl Providers.scan_provider p provs)
                     = Providers.tmdb_watch p) as Hfold.
  { induction provs as [|prov provs IH]; intros p; [done|]. simpl.
    by rewrite IH, scan_provider_tmdb_watch. }
  by rewrite Hfold.
Qed.

Lemma get_providers_watch_link_follows_witness :
  let fr : Providers.region_data :=
    {| Providers.link := Some "https://www.themoviedb.org/tv/1399/watch?locale=FR";
       Providers.flatrate := [] |} in
  let us : Providers.region_data :=
    {| Providers.link := Some "https://www.themoviedb.org/tv/1399/watch?locale=US";
       Providers.flatrate := [] |} in
  let get : Providers.http := λ _ _ _, Providers.Json {[ "FR" := fr; "US" := us ]} in
  ∃ q, Providers.history get "1399" "tv" "FR" !! 1%nat = Some ("US", q) ∧
       Providers.tmdb_watch q = Some "https://www.themoviedb.org/tv/1399/watch?locale=US".
Proof.
  intros fr us get. eexists. split; [vm_compute; reflexivity|].
  apply (get_providers_watch_link_follows get "1399" "tv" "FR" 1%nat "US" _
           {[ "FR" := fr; "US" := us ]} us); [vm_compute; reflexivity|reflexivity..].
Defined.


(* ===================================================================== *)
(** ** Further properties of the upload endpoint *)
(* ===================================================================== *)

Section UploadMore.

Import Upload.

Implicit Types (w : world) (db : database) (file : uploaded_file).

(** An update keyed on the id of the last row changes that row only. *)
Lemma update_audio_search_last id f (old : list AudioSearch) a db :
  audio_search_rows db = old ++ [a] → as_id a = id →
  Forall (λ o, as_id o ≠ id) old →
  audio_search_rows (update_audio_search id f db) = old ++ [f a] ∧
  search_result_rows (update_audio_search id f db) = search_result_rows db.
Proof.
  intros Hrows Ha Hold. split; [|done]. unfold update_audio_search. simpl.
  rewrite Hrows, map_app. simpl. rewrite Ha, Nat.eqb_refl. f_equal.
  clear Hrows. induction Hold as [|o old Ho Hold IH]; [done|]. simpl.
  rewrite IH. by rewrite (proj2 (Nat.eqb_neq _ _) Ho).
Qed.

(** The saving loop links to the request's row the rows it adds, in order,
    and touches nothing else of that row. *)
Lemma save_results_links w h id (old : list AudioSearch) :
  Forall (λ o, as_id o ≠ id) old →
  ∀ combined acc db db' r a,
    audio_search_rows db = old ++ [a] → as_id a = id →
    save_results w h id combined acc db = (db', r) →
    ∃ new a',
      search_result_rows db' = search_result_rows db ++ new ∧
      audio_search_rows db' = old ++ [a'] ∧
      as_id a' = id ∧ audio_file a' = audio_file a ∧
      is_processed a' = is_processed a ∧ processing_time a' = processing_time a ∧
      search_results a' = search_results a ++ (sr_id <$> new) ∧
      (∀ rs, r = Ok rs → rs = acc ++ new).
Proof.
  intros Hold. induction combined as [|x combined IH]; intros acc db db' r a Hrows Ha H;
    simpl in H.
  - injection H as <- <-. exists [], a. rewrite !app_nil_r. repeat split; try done.
    by intros rs [= <-].
  - assert (∃ new a', search_result_rows db = search_result_rows db ++ new ∧
              audio_search_rows db = old ++ [a'] ∧ as_id a' = id ∧
              audio_file a' = audio_file a ∧ is_processed a' = is_processed a ∧
              processing_time a' = processing_time a ∧
              search_results a' = search_results a ++ (sr_id <$> new) ∧
              ∀ rs : list SearchResult, Raise (A := list SearchResult) (KeyError "") = Ok rs
                                          → rs = acc ++ new) as Hstop.
    { exists [], a. rewrite !app_nil_r. by repeat split. }
    destruct (get x "url" h) as [h1 [u|e]] eqn:Hget.
    2:{ injection H as <- <-. destruct Hstop as (new & a' & ?). exists new, a'.
        by intuition. }
    destruct (negb (truthy u)); [by apply (IH _ _ _ _ a) in H|].
    destruct x as [l|v].
    2:{ injection H as <- <-. destruct Hstop as (new & a' & ?). exists new, a'.
        by intuition. }
    destruct (insert_error w (default ∅ (h !! l))) as [e|].
    { injection H as <- <-. destruct Hstop as (new & a' & ?). exists new, a'.
      by intuition. }
    set (row := row_of (next_id (search_result_skip w (length acc))
                          (sr_id <$> search_result_rows db)) (default ∅ (h !! l))) in *.
    set (db1 := {| search_result_rows := search_result_rows db ++ [row];
                   audio_search_rows := audio_search_rows db |}) in *.
    destruct (update_audio_search_last id
                (λ a0, {| as_id := as_id a0; audio_file := audio_file a0;
                          search_results := search_results a0 ++ [sr_id row];
                          is_processed := is_processed a0;
                          processing_time := processing_time a0 |})
                old a db1 Hrows Ha Hold) as [Haudio Hsr].
    fold (add_result id (sr_id row)) in Haudio, Hsr.
    eapply IH in H; [|exact Haudio|by simpl].
    destruct H as (new & a' & Hnew & Ha' & Hid & Hfile & Hproc & Htime & Hlinks & Hrs).
    exists (row :: new), a'. simpl in *.
    repeat split; try done.
    + rewrite Hnew. by rewrite <- app_assoc.
    + rewrite Hlinks. by rewrite <- app_assoc.
    + intros rs Hr. rewrite (Hrs rs Hr). by rewrite <- app_assoc.
Qed.

(** What the [try] block leaves of the request's own row, once created. *)
Lemma process_created_row id w (old : list AudioSearch) a0 db1 db' r :
  Forall (λ o, as_id o ≠ id) old →
  audio_search_rows db1 = old ++ [a0] → as_id a0 = id →
  search_results a0 = [] → is_processed a0 = false → processing_time a0 = None →
  process_created id w db1 = (db', r) →
  ∃ new a,
    search_result_rows db' = search_result_rows db1 ++ new ∧
    audio_search_rows db' = old ++ [a] ∧
    as_id a = id ∧
    audio_file a = audio_file a0 ∧
    search_results a = sr_id <$> new ∧
    ((r = Ok {| status_code := HTTP_200_OK;
                data := ResultsBody (as_id a) (Round2 (elapsed w)) new |} ∧
      is_processed a = true ∧ processing_time a = Some (elapsed w))
     ∨
     ((∀ resp, r = Ok resp → resp = recognition_failed ∧ new = []) ∧
      is_processed a = false ∧ processing_time a = None)).
Proof.
  intros Hold Hrows Hid Hres0 Hproc0 Htime0. unfold process_created.
  assert (∀ r0 : res response,
            (∀ resp, r0 = Ok resp → resp = recognition_failed) →
            ∃ new a,
              search_result_rows db1 = search_result_rows db1 ++ new ∧
              audio_search_rows db1 = old ++ [a] ∧
              as_id a = id ∧ audio_file a = audio_file a0 ∧
              search_results a = sr_id <$> new ∧
              ((r0 = Ok {| status_code := HTTP_200_OK;
                           data := ResultsBody (as_id a) (Round2 (elapsed w)) new |} ∧
                is_processed a = true ∧ processing_time a = Some (elapsed w))
               ∨
               ((∀ resp', r0 = Ok resp' → resp' = recognition_failed ∧ new = []) ∧
                is_processed a = false ∧ processing_time a = None))) as Hstop.
  { intros r0 Hr0. exists [], a0. rewrite app_nil_r. repeat split; try done.
    right. split; [|done]. intros resp' Hr. split; [by apply Hr0|done]. }
  assert (∀ resp : response, Ok recognition_failed = Ok resp → resp = recognition_failed)
    as Hfailed by (by intros resp [= <-]).
  assert (∀ (e : exn) (resp : response), Raise e = Ok resp → resp = recognition_failed)
    as Hraised by done.
  destruct (_process_audio (audd w)) as [rr|]; [|intros [= <- <-]; by apply Hstop].
  destruct (negb _); [intros [= <- <-]; by apply Hstop|].
  destruct (result rr) as [au|]; [|intros [= <- <-]; by apply Hstop].
  assert ((match enrich (youtube w) au with
           | Raise e => (db1, Raise e)
           | Ok youtube_results =>
               match enrich (tmdb w) au with
               | Raise e => (db1, Raise e)
               | Ok tmdb_results =>
                   let (h, combined_results) :=
                     _combine_results (OList youtube_results) (OList tmdb_results)
                       (objects w) in
                   match save_results w h id combined_results [] db1 with
                   | (db, Raise e) => (db, Raise e)
                   | (db, Ok search_results) =>
                       (mark_processed id (elapsed w) db,
                        Ok {| status_code := HTTP_200_OK;
                              data := ResultsBody id (Round2 (elapsed w)) search_results |})
                   end
               end
           end) = (db', r) →
          ∃ new a,
            search_result_rows db' = search_result_rows db1 ++ new ∧
            audio_search_rows db' = old ++ [a] ∧
            as_id a = id ∧ audio_file a = audio_file a0 ∧
            search_results a = sr_id <$> new ∧
            ((r = Ok {| status_code := HTTP_200_OK;
                        data := ResultsBody (as_id a) (Round2 (elapsed w)) new |} ∧
              is_processed a = true ∧ processing_time a = Some (elapsed w))
             ∨
             ((∀ resp, r = Ok resp → resp = recognition_failed ∧ new = []) ∧
              is_processed a = false ∧ processing_time a = None))) as Hrest.
  { destruct (enrich (youtube w) au) as [ys|e]; [|intros [= <- <-]; by apply Hstop].
    destruct (enrich (tmdb w) au) as [ts|e]; [|intros [= <- <-]; by apply Hstop].
    destruct (_combine_results (OList ys) (OList ts) (objects w)) as [h combined].
    destruct (save_results w h id combined [] db1) as [db2 r2] eqn:Hsave.
    eapply (save_results_links w h id _ Hold) in Hsave; [|exact Hrows|exact Hid].
    destruct Hsave as (new & a' & Hnew & Ha' & Hid' & Hfile & Hproc & Htime & Hlinks & Hrs).
    rewrite Hres0 in Hlinks. rewrite Hproc0 in Hproc. rewrite Htime0 in Htime.
    simpl in Hlinks.
    destruct r2 as [rs|e]; intros [= <- <-].
    - destruct (update_audio_search_last id
                  (λ a1, {| as_id := as_id a1; audio_file := audio_file a1;
                            search_results := search_results a1;
                            is_processed := true; processing_time := Some (elapsed w) |})
                  _ a' db2 Ha' Hid' Hold) as [Haudio Hsr].
      fold (mark_processed id (elapsed w)) in Haudio, Hsr.
      eexists new, _. rewrite Hsr. split; [exact Hnew|]. split; [exact Haudio|].
      simpl. rewrite (Hrs rs eq_refl). simpl. repeat split; try done. left.
      by rewrite Hid'.
    - exists new, a'. repeat split; try done. right. by split. }
  destruct au as [[|b|n|t]|d]; try exact Hrest.
  intros [= <- <-]. by apply Hstop.
Qed.

(** The same for the whole [try] block, when the row can be created. *)
Lemma process_row file w db db' r :
  create_error w file = None →
  process file w db = (db', r) →
  ∃ new a,
    search_result_rows db' = search_result_rows db ++ new ∧
    audio_search_rows db' = audio_search_rows db ++ [a] ∧
    (as_id a ∉ (as_id <$> audio_search_rows db)) ∧
    audio_file a = file ∧
    search_results a = sr_id <$> new ∧
    ((r = Ok {| status_code := HTTP_200_OK;
                data := ResultsBody (as_id a) (Round2 (elapsed w)) new |} ∧
      is_processed a = true ∧ processing_time a = Some (elapsed w))
     ∨
     ((∀ resp, r = Ok resp → resp = recognition_failed ∧ new = []) ∧
      is_processed a = false ∧ processing_time a = None)).
Proof.
  intros Hc [(e & He & _)|(_ & id & db1 & _ & Hid & Hdb1 & Hp)]%process_inv; [congruence|].
  assert (Forall (λ o, as_id o ≠ id) (audio_search_rows db)) as Hold.
  { rewrite Forall_forall. intros o Ho.
    assert (as_id o < id)%nat; [|lia]. rewrite Hid. apply next_id_fresh.
    apply list_elem_of_fmap. eauto. }
  eapply (process_created_row id w _ _ db1) in Hp; [|exact Hold|by rewrite Hdb1|done..].
  destruct Hp as (new & a & Hnew & Haudio & Ha & Hfile & Hrest).
  exists new, a. rewrite Hdb1 in Hnew. split; [exact Hnew|]. split; [exact Haudio|].
  split; [|done]. rewrite Ha. intros (o & Ho & Hin)%list_elem_of_fmap.
  rewrite Forall_forall in Hold. by apply (Hold o Hin).
Qed.

(** X11: the endpoint answers with status 200, 400 or 500 and no other. *)
Theorem post_status_codes (req : request) w db :
  status_code (snd (post req w db)) = 200 ∨
  status_code (snd (post req w db)) = 400 ∨
  status_code (snd (post req w db)) = 500.
Proof.
  destruct (post_inv req w db) as [[_ (reason & ->)]|(_ & file & db' & r & _ & Hp & ->)].
  - right. by left.
  - cbn [snd]. destruct r as [resp|e]; [|right; by right].
    apply process_cases in Hp as [(e & _ & [=] & _)|[(_ & _ & [= ->] & _)|(_ & _ & Hok & _)]].
    + right. by right.
    + left. by apply Hok.
Qed.

(** X12: a request leaves every row that was in the two tables as it was and
    in place; it adds one [AudioSearch] row when the upload passes
    validation and that row can be created, and none otherwise. *)
Theorem post_keeps_rows (req : request) w db :
  search_result_rows db `prefix_of` search_result_rows (fst (post req w db)) ∧
  audio_search_rows db `prefix_of` audio_search_rows (fst (post req w db)) ∧
  length (audio_search_rows (fst (post req w db)))
    = (length (audio_search_rows db) + (if stored req w then 1 else 0))%nat.
Proof.
  unfold stored.
  destruct (post_inv req w db) as [[Hv (reason & ->)]|(Hv & file & db' & r & -> & Hp & ->)];
    rewrite Hv; cbn [fst andb].
  - repeat split; [done|done|]. destruct (FILES_file req); lia.
  - destruct (create_error w file) as [e|] eqn:Hc.
    + apply process_inv in Hp as [(e' & _ & _ & ->)|(? & _)]; [|congruence].
      rewrite bool_decide_eq_false_2 by done. repeat split; [done|done|lia].
    + apply (process_row _ _ _ _ _ Hc) in Hp as (new & a & -> & -> & _).
      rewrite bool_decide_eq_true_2 by done.
      repeat split; [by apply prefix_app_r|by apply prefix_app_r|].
      rewrite length_app. simpl. lia.
Qed.

(** X13: for an upload that passes validation and whose row can be created,
    the records of the clients holding text values and [None] only, the row
    added to [AudioSearch] has an id the table did not hold, holds the
    uploaded file and is linked to exactly the [SearchResult] rows the
    request added, in order; it is marked processed, with the measured time,
    exactly when the answer is 200, and then the answer carries the id of
    that row and those result rows. *)
Theorem post_audio_search_row (req : request) file w db :
  FILES_file req = Some file → valid_upload req = true →
  create_error w file = None →
  map_Forall (λ _ d, Clients.text_record d = true) (objects w) →
  ∃ new a,
    search_result_rows (fst (post req w db)) = search_result_rows db ++ new ∧
    audio_search_rows (fst (post req w db)) = audio_search_rows db ++ [a] ∧
    (as_id a ∉ (as_id <$> audio_search_rows db)) ∧
    audio_file a = file ∧
    search_results a = sr_id <$> new ∧
    (is_processed a = true ↔ status_code (snd (post req w db)) = 200) ∧
    (status_code (snd (post req w db)) = 200 →
       processing_time a = Some (elapsed w) ∧
       data (snd (post req w db)) = ResultsBody (as_id a) (Round2 (elapsed w)) new) ∧
    (status_code (snd (post req w db)) ≠ 200 → processing_time a = None).
Proof.
  intros Hfile Hv Hc _. rewrite (post_valid req file w db Hfile Hv).
  destruct (process file w db) as [db' r] eqn:Hp.
  apply (process_row _ _ _ _ _ Hc) in Hp
    as (new & a & Hnew & Haudio & Hfresh & Hf & Hlinks &
        [(-> & Hproc & Htime)|(Hr & Hproc & Htime)]).
  - exists new, a. cbn [fst snd status_code data]. by repeat split.
  - exists new, a. destruct r as [resp|e]; cbn [fst snd].
    + destruct (Hr resp eq_refl) as [-> _]. cbn [status_code recognition_failed].
      repeat split; try done; try congruence.
      all: unfold HTTP_500_INTERNAL_SERVER_ERROR; intros; lia.
    + cbn [status_code]. repeat split; try done; try congruence.
      all: unfold HTTP_500_INTERNAL_SERVER_ERROR; intros; lia.
Qed.

Lemma post_audio_search_row_witness :
  let file := {| name := "clip.wav"; content_type := "audio/wav"; size := 1024 |} in
  let w := {| audd := HttpResponse 200 (JsonObject
                {| status := Some (SStr "success");
                   result := Some (JDict (rec [("title", SStr "Imagine")]));
                   more_keys := false |});
              youtube := Ok [IDict 0%nat]; tmdb := Ok [];
              objects := {[ 0%nat := rec [("title", SStr "Imagine");
                                         ("url", SStr "https://www.youtube.com/watch?v=a")] ]};
              elapsed := 2; create_error := λ _, None;
              insert_error := λ _, None;
              audio_search_skip := 0; search_result_skip := λ _, 0%nat |} in
  let db := {| search_result_rows := []; audio_search_rows := [] |} in
  ∃ new a,
    audio_search_rows (fst (post {| FILES_file := Some file |} w db)) = [a] ∧
    search_results a = sr_id <$> new ∧ is_processed a = true.
Proof.
  intros file w db.
  assert (map_Forall (λ _ d, Clients.text_record d = true) (objects w)) as Htext.
  { intros l d Hl. unfold w in Hl. cbn [objects] in Hl.
    apply lookup_singleton_Some in Hl as [_ <-]. vm_compute. reflexivity. }
  destruct (post_audio_search_row {| FILES_file := Some file |} file w db
              eq_refl eq_refl eq_refl Htext)
    as (new & a & _ & Haudio & _ & _ & Hlinks & Hproc & _).
  exists new, a. split; [exact Haudio|]. split; [exact Hlinks|].
  apply Hproc. vm_compute. reflexivity.
Defined.

End UploadMore.

(* ===================================================================== *)
(** ** Properties of the enrichment clients *)
(* ===================================================================== *)

Section ClientsFacts.

Import Clients.

Lemma succeeded_records (r : res (list dict)) : succeeded r = true → r = Ok (records r).
Proof. by destruct r. Qed.

Lemma contains_space_cons c s :
  contains " " (String c s) = Ascii.eqb c " " || contains " " s.
Proof.
  cbn [contains String.prefix]. destruct (ascii_dec " " c) as [<-|Hne].
  - by destruct s.
  - rewrite (proj2 (Ascii.eqb_neq c " ")) by congruence. done.
Qed.

Lemma no_space_app a b :
  no_space a = true → no_space b = true → no_space (a +:+ b) = true.
Proof.
  unfold no_space. induction a as [|c a IH]; [done|].
  change (String c a +:+ b) with (String c (a +:+ b)).
  rewrite !contains_space_cons, !negb_orb, !andb_true_iff.
  intros [Hc Ha] Hb. split; [done|]. by apply IH.
Qed.

Lemma no_space_replace q : no_space (replace " " "+" q) = true.
Proof.
  unfold no_space. induction q as [|c q IH]; [done|]. cbn [replace].
  rewrite contains_space_cons, negb_orb, IH, andb_true_r.
  destruct (Ascii.eqb c " ") eqn:Hc; [done|]. by rewrite Hc.
Qed.

(** The four links built from a query whose spaces were replaced. *)
Lemma search_links_no_space q key v :
  (key, v) ∈ search_links (replace " " "+" q) →
  key ∈ link_keys ∧ ∃ u, v = SStr u ∧ no_space u = true.
Proof.
  pose proof (no_space_replace q) as Hq. unfold search_links, link_keys.
  rewrite !elem_of_cons, elem_of_nil.
  intros [[= -> ->]|[[= -> ->]|[[= -> ->]|[[= -> ->]|[]]]]];
    (split; [set_solver|]); eexists; (split; [reflexivity|]);
    repeat apply no_space_app; done.
Qed.

Lemma link_keys_no_space (q : string) (key : string) (front : list (string * scalar)) :
  key ∈ link_keys → key ∉ front.*1 →
  ∃ u, rec (front ++ search_links (replace " " "+" q)) !! key = Some (SStr u) ∧
       no_space u = true.
Proof.
  intros Hkey Hfront. unfold rec.
  assert (∃ v, (key, v) ∈ search_links (replace " " "+" q)) as [v Hv].
  { unfold link_keys, search_links in *. rewrite !elem_of_cons, elem_of_nil in Hkey.
    destruct Hkey as [->|[->|[->|[->|[]]]]]; eexists;
      eauto 6 using list_elem_of_here, list_elem_of_further. }
  destruct (search_links_no_space q key v Hv) as [_ (u & -> & Hu)].
  exists u. split; [|done].
  induction front as [|[k w] front IH].
  - rewrite app_nil_l. apply elem_of_list_to_map_1; [|done]. unfold search_links.
    cbn [fmap list_fmap fst]. repeat constructor; set_solver.
  - rewrite <- app_comm_cons, list_to_map_cons. cbn [fmap list_fmap fst] in Hfront.
    rewrite lookup_insert_ne by set_solver. apply IH. set_solver.
Qed.

(** *** Reading the outcome of a chain of steps *)

Lemma bind_Ok_inv {A B} (m : res A) (k : A → res B) (b : B) :
  m ≫= k = Ok b → ∃ a, m = Ok a ∧ k a = Ok b.
Proof. destruct m as [a|e]; [|done]. intros H. by exists a. Qed.

Lemma dot_get_Ok {A} (x : json A) (a : A) : dot_get x = Ok a → x = Object a.
Proof. destruct x as [a'|v]; [|done]. by intros [= ->]. Qed.

Lemma subscript_Ok {A} (x : json A) (a : A) : subscript x = Ok a → x = Object a.
Proof. destruct x as [a'|[]]; try done. by intros [= ->]. Qed.

Lemma at_key_Ok {A} key (o : option A) (a : A) : at_key key o = Ok a → o = Some a.
Proof. destruct o as [a'|]; [|done]. by intros [= ->]. Qed.

(** The exceptions the steps raise are not the ones the clients catch. *)
Lemma dot_get_Raise {A} (x : json A) e : dot_get x = Raise e → caught e = false.
Proof. destruct x as [a|v]; [done|]. by intros [= <-]. Qed.

Lemma subscript_Raise {A} (x : json A) e : subscript x = Raise e → caught e = false.
Proof. destruct x as [a|[]]; try done; by intros [= <-]. Qed.

Lemma at_key_Raise {A} key (o : option A) e : at_key key o = Raise e → caught e = false.
Proof. destruct o as [a|]; [done|]. by intros [= <-]. Qed.

Lemma iterate_Raise {A} (x : array A) e : iterate x = Raise e → caught e = false.
Proof. destruct x as [xs|[]]; try done; by intros [= <-]. Qed.

Lemma str_method_Raise {A} attr (f : string → A) v e :
  str_method attr f v = Raise e → caught e = false.
Proof. destruct v; try done; by intros [= <-]. Qed.

(** *** The video search *)

(** The thumbnail path can be walked exactly when each level that is there
    is an object. *)
Lemma high_thumbnail_Ok sn :
  succeeded (high_thumbnail sn) =
    match thumbnails sn with
    | None | Some (Object None) | Some (Object (Some (Object _))) => true
    | _ => false
    end.
Proof.
  unfold high_thumbnail. by destruct (thumbnails sn) as [[[[hi|v]|]|v]|].
Qed.

Lemma high_thumbnail_Raise sn e : high_thumbnail sn = Raise e → caught e = false.
Proof.
  unfold high_thumbnail. destruct (thumbnails sn) as [[[[hi|v]|]|v]|]; try done;
    by intros [= <-].
Qed.

(** The fields of a record of the video search. *)
Lemma video_record_fields query item r :
  video_record query item = Ok r →
  video_ok item = true ∧
  ∃ vid,
    r !! "platform" = Some (SStr "YouTube") ∧
    r !! "url" = Some (SStr ("https://www.youtube.com/watch?v=" +:+ format vid)) ∧
    ∀ key, key ∈ link_keys → ∃ u, r !! key = Some (SStr u) ∧ no_space u = true.
Proof.
  unfold video_record. intros H.
  apply bind_Ok_inv in H as (v & ->%subscript_Ok & H).
  apply bind_Ok_inv in H as (id & Hid%at_key_Ok & H).
  apply bind_Ok_inv in H as (ido & ->%subscript_Ok & H).
  apply bind_Ok_inv in H as (vid & ->%at_key_Ok & H).
  apply bind_Ok_inv in H as (sn & Hsn%at_key_Ok & H). cbn zeta in H.
  apply bind_Ok_inv in H as (sno & ->%dot_get_Ok & H).
  apply bind_Ok_inv in H as (th & Hth & H).
  split.
  - unfold video_ok. rewrite Hid, Hsn. rewrite <- high_thumbnail_Ok. by rewrite Hth.
  - match type of H with Ok ?t = _ => assert (r = t) as -> by congruence end.
    exists vid. do 2 (split; [reflexivity|]).
    intros key Hkey. apply link_keys_no_space; [done|].
    unfold link_keys in Hkey. cbn [fmap list_fmap fst]. set_solver.
Qed.

Lemma video_record_ok query item :
  video_ok item = true → succeeded (video_record query item) = true.
Proof.
  unfold video_ok, video_record. destruct item as [v|u]; [|done].
  cbn [subscript mbind res_bind].
  destruct (video_id v) as [[[vid|]|u]|]; try done.
  destruct (video_snippet v) as [[sn|u]|]; try done.
  intros Hth. rewrite <- high_thumbnail_Ok in Hth.
  cbn [at_key subscript dot_get mbind res_bind].
  by destruct (high_thumbnail sn).
Qed.

Lemma video_record_Raise query item e :
  video_record query item = Raise e → caught e = false.
Proof.
  unfold video_record.
  destruct (subscript item) as [v|e1] eqn:H1; [|intros [= <-]; by eapply subscript_Raise].
  cbn [mbind res_bind].
  destruct (at_key "id" (video_id v)) as [id|e1] eqn:H2;
    [|intros [= <-]; by eapply at_key_Raise].
  cbn [mbind res_bind].
  destruct (subscript id) as [ido|e1] eqn:H3; [|intros [= <-]; by eapply subscript_Raise].
  cbn [mbind res_bind].
  destruct (at_key "videoId" ido) as [vid|e1] eqn:H4;
    [|intros [= <-]; by eapply at_key_Raise].
  cbn [mbind res_bind].
  destruct (at_key "snippet" (video_snippet v)) as [sn|e1] eqn:H5;
    [|intros [= <-]; by eapply at_key_Raise].
  cbn [mbind res_bind].
  destruct (dot_get sn) as [sno|e1] eqn:H6; [|intros [= <-]; by eapply dot_get_Raise].
  cbn [mbind res_bind].
  destruct (high_thumbnail sno) as [th|e1] eqn:H7;
    [|intros [= <-]; by eapply high_thumbnail_Raise].
  done.
Qed.

Lemma youtube_items_inv query : ∀ xs acc rs,
  youtube_items query xs acc = Ok rs →
  ∃ new, rs = acc ++ new ∧ Forall2 (λ item r, video_record query item = Ok r) xs new.
Proof.
  induction xs as [|item xs IH]; intros acc rs H; cbn [youtube_items] in H.
  - injection H as <-. exists []. by rewrite app_nil_r.
  - apply bind_Ok_inv in H as (r & Hr & H).
    apply IH in H as (new & -> & Hnew). exists (r :: new).
    split; [by rewrite <- app_assoc|]. by constructor.
Qed.

Lemma youtube_items_ok query : ∀ xs acc,
  forallb video_ok xs = true → succeeded (youtube_items query xs acc) = true.
Proof.
  induction xs as [|item xs IH]; intros acc Hok; [done|].
  apply andb_true_iff in Hok as [Hitem Hitems]. cbn [youtube_items].
  pose proof (video_record_ok query item Hitem) as Hr.
  destruct (video_record query item) as [r|e]; [|done]. by apply IH.
Qed.

Lemma youtube_items_Raise query : ∀ xs acc e,
  youtube_items query xs acc = Raise e → caught e = false.
Proof.
  induction xs as [|item xs IH]; intros acc e; [done|]. cbn [youtube_items].
  destruct (video_record query item) as [r|e1] eqn:Hr.
  - apply IH.
  - intros [= <-]. by eapply video_record_Raise.
Qed.

Lemma youtube_items_not_ok query : ∀ xs acc,
  forallb video_ok xs = false → succeeded (youtube_items query xs acc) = false.
Proof.
  induction xs as [|item xs IH]; intros acc Hok; [done|]. cbn [youtube_items].
  destruct (video_record query item) as [r|e] eqn:Hr; [|done].
  apply video_record_fields in Hr as [Hitem _]. cbn [forallb] in Hok.
  rewrite Hitem in Hok. by apply IH.
Qed.

(** X14: every record of the video search carries the platform YouTube and
    a url that begins with the watch address, so that its row always passes
    the url test of [post]; its four search links contain no space. *)
Theorem youtube_results_records (audd_result : dict) (response : youtube_response) rs :
  _get_youtube_results audd_result response = Ok rs →
  Forall (λ r, r !! "platform" = Some (SStr "YouTube") ∧
               (∃ u, r !! "url" = Some (SStr ("https://www.youtube.com/watch?v=" +:+ u))) ∧
               (∀ n, Upload.has_url (Upload.row_of n r) = true) ∧
               ∀ key, key ∈ link_keys →
                      ∃ u, r !! key = Some (SStr u) ∧ no_space u = true) rs.
Proof.
  unfold _get_youtube_results.
  destruct (String.eqb (youtube_query audd_result) ""); [by intros [= <-]|].
  destruct response as [e|data]; [by intros [= <-]|].
  intros (d & _ & (xs & _ & H)%bind_Ok_inv)%bind_Ok_inv.
  apply youtube_items_inv in H as (new & -> & Hnew). simpl.
  clear -Hnew. induction Hnew as [|item r items new Hr Hnew IH]; constructor; [|done].
  apply video_record_fields in Hr as (_ & vid & Hp & Hu & Hl).
  split; [done|]. split; [eauto|]. split; [|done].
  intros n. unfold Upload.has_url, Upload.row_of. simpl. by rewrite Hu.
Qed.

Lemma youtube_results_records_witness :
  let d := rec [("title", SStr "Let It Be"); ("artist", SStr "The Beatles")] in
  let item := Object
                {| video_id := Some (Object (Some (SStr "QDYfEBY9NM4")));
                   video_snippet := Some (Object
                     {| snippet_title := Some (SStr "Let It Be");
                        thumbnails := None;
                        channelTitle := None |}) |} in
  ∃ rs, _get_youtube_results d (YoutubeJson [item]) = Ok rs ∧
        Forall (λ r, Upload.has_url (Upload.row_of 1 r) = true) rs.
Proof.
  intros d item. exists (records (_get_youtube_results d (YoutubeJson [item]))).
  assert (_get_youtube_results d (YoutubeJson [item])
          = Ok (records (_get_youtube_results d (YoutubeJson [item])))) as Hrs
    by (apply succeeded_records; vm_compute; reflexivity).
  split; [exact Hrs|].
  eapply Forall_impl; [exact (youtube_results_records d (YoutubeJson [item]) _ Hrs)|].
  intros r (_ & _ & H & _). apply H.
Defined.

(** X15: with a query that is ASCII text and not empty, and a body that is
    an object whose [items] is a list, the video search returns one record
    per item, in order, when every item is an object in which [id] is an
    object with a [videoId], [snippet] is an object and, in it, [thumbnails]
    and [high] are objects where they are there; a single item of another
    shape makes it raise an exception that is not caught, and the records of
    the other items are lost. *)
Theorem youtube_results_all_or_nothing (audd_result : dict) (items : list (json video)) :
  ascii_text (query_text audd_result) = true →
  youtube_query audd_result ≠ "" →
  (forallb video_ok items = true →
     ∃ rs, _get_youtube_results audd_result (YoutubeJson items) = Ok rs ∧
           length rs = length items) ∧
  (forallb video_ok items = false →
     ∃ e, _get_youtube_results audd_result (YoutubeJson items) = Raise e ∧
          caught e = false).
Proof.
  intros _ Hq. unfold _get_youtube_results, YoutubeJson.
  rewrite (proj2 (String.eqb_neq _ _) Hq).
  cbn [dot_get iterate Clients.items from_option id mbind res_bind]. split; intros Hok.
  - pose proof (youtube_items_ok (youtube_query audd_result) items [] Hok) as Hs.
    destruct (youtube_items (youtube_query audd_result) items []) as [rs|e] eqn:Hrs; [|done].
    exists rs. split; [done|].
    apply youtube_items_inv in Hrs as (new & -> & Hnew). simpl.
    symmetry. by eapply Forall2_length.
  - pose proof (youtube_items_not_ok (youtube_query audd_result) items [] Hok) as Hs.
    destruct (youtube_items (youtube_query audd_result) items []) as [rs|e] eqn:Hrs; [done|].
    exists e. split; [done|]. by eapply youtube_items_Raise.
Qed.

Lemma youtube_results_all_or_nothing_witness :
  let d := rec [("title", SStr "Imagine")] in
  let good := Object
                {| video_id := Some (Object (Some (SStr "a")));
                   video_snippet := Some (Object
                     {| snippet_title := None; thumbnails := None;
                        channelTitle := None |}) |} in
  let bad := Object
               {| video_id := Some (Object (Some (SStr "b")));
                  video_snippet := Some (Object
                    {| snippet_title := None; thumbnails := Some (Value SNone);
                       channelTitle := None |}) |} in
  ∃ e, _get_youtube_results d (YoutubeJson [good; bad]) = Raise e ∧ caught e = false.
Proof.
  intros d good bad.
  apply (youtube_results_all_or_nothing d [good; bad]); [reflexivity|by vm_compute|reflexivity].
Defined.

(** *** The provider requests *)

Lemma scan_flatrate_Raise : ∀ xs p e, scan_flatrate p xs = Raise e → caught e = false.
Proof.
  induction xs as [|x xs IH]; intros p e; [done|]. cbn [scan_flatrate].
  destruct (dot_get x) as [prov|e1] eqn:H1; [|intros [= <-]; by eapply dot_get_Raise].
  cbn [mbind res_bind].
  destruct (str_method "lower" lower (default (SStr "") (provider_name prov)))
    as [name|e1] eqn:H2; [|intros [= <-]; by eapply str_method_Raise].
  cbn [mbind res_bind]. apply IH.
Qed.

(** When no request brings data the loop runs to its end and leaves the
    slots as they were. *)
Lemma regions_loop_quiet get u regs : ∀ n p,
  quiet get u → Clients.regions_loop get u regs n p = Ok p.
Proof.
  induction regs as [|reg regs IH]; intros n p Hq; [done|].
  cbn [Clients.regions_loop]. specialize (Hq n reg) as Hn. unfold nothing_for in Hn.
  destruct (get n u reg) as [e|[d|v]]; [by apply IH| |done].
  cbn [dot_get mbind res_bind].
  destruct (regions d) as [[results|[| | |s]]|]; try done; cbn [from_option id].
  - apply bool_decide_eq_true in Hn. rewrite Hn. by apply IH.
  - unfold region_of_value. apply negb_true_iff in Hn. rewrite Hn.
    cbn [mbind res_bind]. by apply IH.
  - rewrite lookup_empty. by apply IH.
Qed.

(** On answers of the documented shape the loop returns, and returns what
    the resolver of [Providers] returns. *)
Lemma truthy_slot_value u : truthy (slot_value u) = Providers.filled u.
Proof. by destruct u. Qed.

Lemma assign_documented p prov :
  assign (documented_urls p) (lower (default "" (Providers.provider_name prov)))
    = documented_urls (Providers.scan_provider p prov).
Proof.
  unfold assign, Providers.scan_provider, documented_urls. cbn [netflix prime hulu disney].
  rewrite !truthy_slot_value.
  repeat match goal with
         | |- context [if ?b then _ else _] => destruct b
         end; reflexivity.
Qed.

Lemma scan_flatrate_documented provs : ∀ p,
  scan_flatrate (documented_urls p) (documented_provider <$> provs)
    = Ok (documented_urls (foldl Providers.scan_provider p provs)).
Proof.
  induction provs as [|prov provs IH]; intros p; [done|].
  cbn [fmap list_fmap scan_flatrate documented_provider dot_get mbind res_bind provider_name].
  fold (documented_provider <$> provs).
  assert (str_method "lower" lower (default (SStr "") (SStr <$> Providers.provider_name prov))
          = Ok (lower (default "" (Providers.provider_name prov)))) as ->
    by (by destruct (Providers.provider_name prov)).
  cbn [mbind res_bind]. rewrite assign_documented. apply IH.
Qed.

Lemma any_named_documented p :
  any_named (documented_urls p) = Providers.any_named p.
Proof.
  unfold any_named, Providers.any_named, documented_urls. cbn.
  by rewrite !truthy_slot_value.
Qed.

Lemma regions_loop_documented (get : Providers.http) u regs : ∀ n p,
  Clients.regions_loop (λ n u reg, documented (get n u reg)) u regs n (documented_urls p)
    = Ok (documented_urls (Providers.regions_loop get u regs n p).1).
Proof.
  induction regs as [|reg regs IH]; intros n p; [done|].
  cbn [Clients.regions_loop Providers.regions_loop]. cbn beta.
  destruct (get n u reg) as [e|results]; cbn [documented].
  - rewrite IH. by destruct (Providers.regions_loop get u regs (S n) p).
  - cbn [dot_get mbind res_bind regions from_option id]. rewrite lookup_fmap.
    destruct (results !! reg) as [rd|]; cbn [fmap option_fmap option_map].
    + cbn [documented_region dot_get mbind res_bind link flatrate from_option id iterate].
      assert ({| netflix := netflix (documented_urls p); prime := prime (documented_urls p);
                 hulu := hulu (documented_urls p); disney := disney (documented_urls p);
                 tmdb_watch := default SNone (SStr <$> Providers.link rd) |}
              = documented_urls (Providers.set_tmdb_watch p (Providers.link rd))) as ->.
      { unfold documented_urls, Providers.set_tmdb_watch. cbn.
        by destruct (Providers.link rd). }
      rewrite scan_flatrate_documented. cbn [mbind res_bind].
      fold (Providers.scan_region p rd). rewrite any_named_documented.
      destruct (Providers.any_named (Providers.scan_region p rd)); [done|].
      rewrite IH. by destruct (Providers.regions_loop get u regs (S n) _).
    + rewrite IH. by destruct (Providers.regions_loop get u regs (S n) p).
Qed.

Lemma get_providers_documented (get : Providers.http) tmdb_id mt region :
  Clients._get_providers (λ n u reg, documented (get n u reg)) tmdb_id mt region
    = Ok (documented_urls (Providers._get_providers get tmdb_id mt region)).
Proof.
  unfold Clients._get_providers, Providers._get_providers, Providers.get_providers_run.
  change no_urls with (documented_urls Providers.no_urls).
  apply regions_loop_documented.
Qed.

(** A provider entry whose name is null: [.lower()] raises on it, and the
    [except] clause, which takes a [RequestException], lets it through. *)
Example get_providers_null_name :
  let get : providers_http :=
    λ _ _ _, ProvidersBody (Object {| regions := Some (Object
      {[ "US" := Object
           {| link := Some (SStr "https://www.themoviedb.org/movie/1/watch?locale=US");
              flatrate := Some (Elements [Object {| provider_name := Some SNone |}]) |} ]}) |}) in
  Clients._get_providers get "1" "movie" "US"
    = Raise (AttributeError "'NoneType' object has no attribute 'lower'").
Proof. vm_compute. reflexivity. Qed.

(** A [results] that is a string: the region code is searched in it, and
    indexing the string by the code raises when it occurs. *)
Example get_providers_results_text :
  let get (body : string) : providers_http :=
    λ _ _ _, ProvidersBody (Object {| regions := Some (Value (SStr body)) |}) in
  Clients._get_providers (get "not found") "1" "movie" "US" = Ok no_urls ∧
  Clients._get_providers (get "IN, US") "1" "movie" "US"
    = Raise (TypeError "string indices must be integers, not 'str'").
Proof. vm_compute. by split. Qed.

(** An [items] that is a string: its characters are the items, and none can
    be indexed by a key; the empty string has none. *)
Example youtube_results_items_text :
  let d := rec [("title", SStr "Imagine")] in
  let body (v : scalar) := YoutubeBody (Object {| items := Some (NotList v) |}) in
  _get_youtube_results d (body (SStr "ab"))
    = Raise (TypeError "string indices must be integers, not 'str'") ∧
  _get_youtube_results d (body (SStr "")) = Ok [] ∧
  _get_youtube_results d (body SNone)
    = Raise (TypeError "'NoneType' object is not iterable").
Proof. vm_compute. by repeat split. Qed.

(** *** The movie and TV search *)

(** The fields of a record of the movie search. *)
Lemma hit_record_fields get mt item r :
  hit_record get mt item = Ok r →
  ∃ t p, movie_title item = SStr t ∧
    Clients._get_providers get (format (default SNone (hit_id item))) mt "US" = Ok p ∧
    r !! "title" = Some (SStr t) ∧
    r !! "platform" = Some (SStr "TMDB") ∧
    r !! "url" = Some (tmdb_watch p) ∧
    r !! "thumbnail_url" = Some (SStr (poster item)) ∧
    ∀ key, key ∈ link_keys → ∃ u, r !! key = Some (SStr u) ∧ no_space u = true.
Proof.
  unfold hit_record. intros (p & Hp & H)%bind_Ok_inv. cbn zeta in H.
  destruct (movie_title item) as [|b|n|t] eqn:Ht; try done.
  cbn [str_method mbind res_bind] in H.
  match type of H with Ok ?t = _ => assert (r = t) as -> by congruence end.
  exists t, p. split; [reflexivity|]. split; [exact Hp|]. do 4 (split; [reflexivity|]).
  intros key Hkey. apply link_keys_no_space; [done|].
  unfold link_keys in Hkey. cbn [fmap list_fmap fst]. set_solver.
Qed.

Lemma poster_nonempty item : poster item ≠ "".
Proof. unfold poster. by destruct (truthy _). Qed.

Lemma kept_Object h :
  kept (Object h) = bool_decide (is_Some (movie_or_tv (default SNone (media_type h)))).
Proof. done. Qed.

Lemma tmdb_items_inv get : ∀ xs i acc rs,
  tmdb_items get i xs acc = Ok rs →
  ∃ new, rs = acc ++ new ∧
         length new = length (filter (λ item, kept item = true) xs) ∧
         Forall (λ r, ∃ k mt item, hit_record (get k) mt item = Ok r) new.
Proof.
  induction xs as [|x xs IH]; intros i acc rs H; cbn [tmdb_items] in H.
  - injection H as <-. exists []. by rewrite app_nil_r.
  - apply bind_Ok_inv in H as (item & ->%dot_get_Ok & H).
    destruct (movie_or_tv (default SNone (media_type item))) as [mt|] eqn:Hmt.
    + assert (kept (Object item) = true) as Hk.
      { rewrite kept_Object, Hmt. by apply bool_decide_eq_true_2. }
      rewrite filter_cons_True by done.
      apply bind_Ok_inv in H as (r & Hr & H).
      apply IH in H as (new & -> & Hlen & Hnew). exists (r :: new).
      split; [by rewrite <- app_assoc|]. simpl.
      split; [by rewrite Hlen|]. constructor; [eauto|done].
    + assert (kept (Object item) ≠ true) as Hk.
      { rewrite kept_Object, Hmt. rewrite bool_decide_eq_false_2; [done|]. by intros [? ?]. }
      rewrite filter_cons_False by done. by apply IH in H.
Qed.

(** What the search returns is what the loop returns on the elements of
    [results]. *)
Lemma tmdb_results_inv (audd_result : dict) response get rs :
  _get_tmdb_streaming_availability audd_result response get = Ok rs →
  rs = [] ∨ ∃ d xs, response = TmdbBody (Object d) ∧
                    iterate (default (Elements []) (results d)) = Ok xs ∧
                    tmdb_items get 0 xs [] = Ok rs.
Proof.
  unfold _get_tmdb_streaming_availability.
  destruct (negb _); [intros [= <-]; by left|].
  destruct response as [e|data]; [intros [= <-]; by left|].
  intros (d & ->%dot_get_Ok & (xs & Hxs & H)%bind_Ok_inv)%bind_Ok_inv.
  right. eauto.
Qed.

(** X16: every record of the movie search carries the platform TMDB, a title
    that is text (possibly empty), a thumbnail that is a non-empty text, and
    four search links without a space; the search keeps one record per hit
    of type movie or tv, and none for the others. *)
Theorem tmdb_results_records (audd_result : dict) (response : tmdb_response)
    (get : nat → providers_http) rs :
  _get_tmdb_streaming_availability audd_result response get = Ok rs →
  Forall (λ r, r !! "platform" = Some (SStr "TMDB") ∧
               (∃ t, r !! "title" = Some (SStr t)) ∧
               (∃ th, r !! "thumbnail_url" = Some (SStr th) ∧ th ≠ "") ∧
               ∀ key, key ∈ link_keys →
                      ∃ u, r !! key = Some (SStr u) ∧ no_space u = true) rs ∧
  ∀ items, response = TmdbJson items →
           truthy (default (SStr "") (audd_result !! "title")) = true →
           length rs = length (filter (λ item, kept item = true) items).
Proof.
  intros H. split.
  - apply tmdb_results_inv in H as [->|(d & xs & _ & _ & H)]; [done|].
    apply tmdb_items_inv in H as (new & -> & _ & Hnew). simpl.
    eapply Forall_impl; [exact Hnew|]. intros r (k & mt & item & Hr).
    apply hit_record_fields in Hr as (t & p & _ & _ & Ht & Hp & _ & Hth & Hl).
    split; [done|]. split; [eauto|]. split; [|done].
    exists (poster item). split; [done|]. apply poster_nonempty.
  - intros items -> Ht. unfold _get_tmdb_streaming_availability, TmdbJson in H.
    rewrite Ht in H. cbn [negb dot_get iterate results from_option id mbind res_bind] in H.
    by apply tmdb_items_inv in H as (new & -> & Hlen & _).
Qed.

Lemma tmdb_results_records_witness :
  let d := rec [("title", SStr "Imagine")] in
  let movie := Object {| media_type := Some (SStr "movie"); hit_id := Some (SInt 1);
                         poster_path := None; hit_title := Some (SStr "Imagine");
                         hit_name := None |} in
  let person := Object {| media_type := Some (SStr "person"); hit_id := Some (SInt 2);
                          poster_path := None; hit_title := None;
                          hit_name := Some (SStr "Imagine Dragons") |} in
  let get : nat → providers_http :=
    λ _ _ _ _, ProvidersBody (Object {| regions := Some (Object ∅) |}) in
  ∃ rs, _get_tmdb_streaming_availability d (TmdbJson [person; movie]) get = Ok rs ∧
        length rs = 1%nat.
Proof.
  intros d movie person get.
  exists (records (_get_tmdb_streaming_availability d (TmdbJson [person; movie]) get)).
  assert (_get_tmdb_streaming_availability d (TmdbJson [person; movie]) get
          = Ok (records (_get_tmdb_streaming_availability d (TmdbJson [person; movie]) get)))
    as Hrs by (apply succeeded_records; vm_compute; reflexivity).
  split; [exact Hrs|].
  rewrite (proj2 (tmdb_results_records d (TmdbJson [person; movie]) get _ Hrs)
             [person; movie] eq_refl eq_refl).
  vm_compute. reflexivity.
Defined.

Lemma get_providers_quiet (get : providers_http) (tmdb_id mt : string) :
  quiet get (Providers.providers_url tmdb_id mt) →
  Clients._get_providers get tmdb_id mt "US" = Ok no_urls.
Proof. intros Hq. unfold Clients._get_providers. by apply regions_loop_quiet. Qed.

(** X17: when the provider requests of every hit fail or bring no data, each
    record of the movie search has the url None, and its row never passes
    the url test of [post]: such records are not saved. *)
Theorem tmdb_results_without_providers (audd_result : dict) (response : tmdb_response)
    (get : nat → providers_http) rs :
  (∀ k u, quiet (get k) u) →
  _get_tmdb_streaming_availability audd_result response get = Ok rs →
  Forall (λ r, r !! "url" = Some SNone ∧ ∀ n, Upload.has_url (Upload.row_of n r) = false) rs.
Proof.
  intros Hquiet [->|(d & xs & _ & _ & H)]%tmdb_results_inv; [done|].
  apply tmdb_items_inv in H as (new & -> & _ & Hnew). simpl.
  eapply Forall_impl; [exact Hnew|]. intros r (k & mt & item & Hr).
  apply hit_record_fields in Hr as (t & p & _ & Hp & _ & _ & Hu & _).
  rewrite get_providers_quiet in Hp by apply Hquiet. injection Hp as <-.
  split; [done|].
  intros n. unfold Upload.has_url, Upload.row_of. simpl. by rewrite Hu.
Qed.

Lemma tmdb_results_without_providers_witness :
  let d := rec [("title", SStr "Imagine")] in
  let movie := Object {| media_type := Some (SStr "movie"); hit_id := Some (SInt 1);
                         poster_path := Some (SStr "/p.jpg");
                         hit_title := Some (SStr "Imagine"); hit_name := None |} in
  let get : nat → providers_http :=
    λ _ _ _ _, ProvidersBody (Object {| regions := Some (Object ∅) |}) in
  Forall (λ r, r !! "url" = Some SNone)
         (records (_get_tmdb_streaming_availability d (TmdbJson [movie]) get)).
Proof.
  intros d movie get.
  assert (_get_tmdb_streaming_availability d (TmdbJson [movie]) get
          = Ok (records (_get_tmdb_streaming_availability d (TmdbJson [movie]) get)))
    as Hrs by (apply succeeded_records; vm_compute; reflexivity).
  eapply Forall_impl.
  - apply (tmdb_results_without_providers d (TmdbJson [movie]) get _); [|exact Hrs].
    intros k u n reg. reflexivity.
  - by intros r [? _].
Defined.





Lemma get_providers_Raise get tmdb_id mt region e :
  Clients._get_providers get tmdb_id mt region = Raise e → caught e = false.
Proof.
  unfold Clients._get_providers.
  generalize (Providers.fallback_regions region) 0%nat no_urls.
  intros regs. induction regs as [|reg regs IH]; intros n p; [done|].
  cbn [Clients.regions_loop].
  destruct (get n _ reg) as [e1|data]; [apply IH|].
  destruct (dot_get data) as [d|e1] eqn:H1; [|intros [= <-]; by eapply dot_get_Raise].
  cbn [mbind res_bind].
  destruct (default (Object ∅) (regions d)) as [results|v].
  - destruct (results !! reg) as [region'|]; [|apply IH].
    destruct (dot_get region') as [rd|e1] eqn:H2; [|intros [= <-]; by eapply dot_get_Raise].
    cbn [mbind res_bind].
    destruct (iterate _) as [xs|e1] eqn:H3; [|intros [= <-]; by eapply iterate_Raise].
    cbn [mbind res_bind].
    destruct (scan_flatrate _ xs) as [p'|e1] eqn:H4;
      [|intros [= <-]; by eapply scan_flatrate_Raise].
    cbn [mbind res_bind]. destruct (any_named p'); [done|apply IH].
  - destruct (region_of_value reg v) as [b|e1] eqn:H2.
    + cbn [mbind res_bind]. apply IH.
    + intros [= <-]. unfold region_of_value in H2.
      destruct v as [| | |s]; try (by injection H2 as <-).
      destruct (contains reg s); [by injection H2 as <-|done].
Qed.

Lemma hit_record_Raise get mt item e :
  hit_record get mt item = Raise e → caught e = false.
Proof.
  unfold hit_record.
  destruct (Clients._get_providers _ _ _ _) as [p|e1] eqn:H1;
    [|intros [= <-]; by eapply get_providers_Raise].
  cbn [mbind res_bind].
  destruct (str_method "replace" _ _) as [q|e1] eqn:H2;
    [done|intros [= <-]; by eapply str_method_Raise].
Qed.

Lemma tmdb_items_Raise get : ∀ xs i acc e,
  tmdb_items get i xs acc = Raise e → caught e = false.
Proof.
  induction xs as [|x xs IH]; intros i acc e; [done|]. cbn [tmdb_items].
  destruct (dot_get x) as [item|e1] eqn:H1; [|intros [= <-]; by eapply dot_get_Raise].
  cbn [mbind res_bind].
  destruct (movie_or_tv _) as [mt|]; [|apply IH].
  destruct (hit_record (get i) mt item) as [r|e1] eqn:H2.
  - cbn [mbind res_bind]. apply IH.
  - intros [= <-]. by eapply hit_record_Raise.
Qed.

Lemma tmdb_items_ok get : ∀ xs i acc,
  (∀ k h mt, xs !! k = Some (Object h) →
             movie_or_tv (default SNone (media_type h)) = Some mt →
             succeeded (Clients._get_providers (get (i + k)%nat)
                          (format (default SNone (hit_id h))) mt "US") = true) →
  forallb hit_ok xs = true → succeeded (tmdb_items get i xs acc) = true.
Proof.
  induction xs as [|x xs IH]; intros i acc Hres Hok; [done|].
  apply andb_true_iff in Hok as [Hitem Hitems]. cbn [tmdb_items].
  destruct x as [h|v]; [|done]. cbn [dot_get mbind res_bind].
  assert (∀ k h0 mt, xs !! k = Some (Object h0) →
            movie_or_tv (default SNone (media_type h0)) = Some mt →
            succeeded (Clients._get_providers (get (S i + k)%nat)
                         (format (default SNone (hit_id h0))) mt "US") = true) as Hres'.
  { intros k h0 mt Hk Hmt. specialize (Hres (S k) h0 mt Hk Hmt).
    by rewrite Nat.add_succ_r in Hres. }
  unfold hit_ok in Hitem. rewrite kept_Object in Hitem.
  destruct (movie_or_tv (default SNone (media_type h))) as [mt|] eqn:Hmt; [|by apply IH].
  rewrite bool_decide_eq_true_2 in Hitem by eauto. cbn [negb orb] in Hitem.
  specialize (Hres 0%nat h mt eq_refl Hmt). rewrite Nat.add_0_r in Hres.
  unfold hit_record. destruct (Clients._get_providers _ _ _ _) as [p|e]; [|done].
  cbn [mbind res_bind]. destruct (movie_title h); try done.
  cbn [str_method mbind res_bind]. by apply IH.
Qed.

Lemma tmdb_items_not_ok get : ∀ xs i acc,
  forallb hit_ok xs = false → succeeded (tmdb_items get i xs acc) = false.
Proof.
  induction xs as [|x xs IH]; intros i acc Hok; [done|]. cbn [tmdb_items].
  destruct x as [h|v]; [|done]. cbn [dot_get mbind res_bind].
  cbn [forallb] in Hok. unfold hit_ok at 1 in Hok. rewrite kept_Object in Hok.
  destruct (movie_or_tv (default SNone (media_type h))) as [mt|] eqn:Hmt.
  - rewrite bool_decide_eq_true_2 in Hok by eauto. cbn [negb orb] in Hok.
    destruct (hit_record (get i) mt h) as [r|e] eqn:Hr; [|done].
    cbn [mbind res_bind].
    apply hit_record_fields in Hr as (t & p & Ht & _). rewrite Ht in Hok. by apply IH.
  - rewrite bool_decide_eq_false_2 in Hok by (by intros [? ?]). by apply IH.
Qed.

Lemma tmdb_items_resolved get : ∀ xs i acc rs,
  tmdb_items get i xs acc = Ok rs →
  ∀ k h mt, xs !! k = Some (Object h) →
            movie_or_tv (default SNone (media_type h)) = Some mt →
            succeeded (Clients._get_providers (get (i + k)%nat)
                         (format (default SNone (hit_id h))) mt "US") = true.
Proof.
  induction xs as [|x xs IH]; intros i acc rs H k h mt Hk Hmt; [done|].
  cbn [tmdb_items] in H.
  apply bind_Ok_inv in H as (item & ->%dot_get_Ok & H).
  destruct k as [|k].
  - injection Hk as ->. rewrite Hmt in H. rewrite Nat.add_0_r.
    apply bind_Ok_inv in H as (r & Hr & _).
    apply hit_record_fields in Hr as (t & p & _ & Hp & _). by rewrite Hp.
  - rewrite Nat.add_succ_r. cbn [lookup list_lookup] in Hk.
    destruct (movie_or_tv (default SNone (media_type item))) as [mt'|].
    + apply bind_Ok_inv in H as (r & _ & H). by eapply (IH (S i)).
    + by eapply (IH (S i)).
Qed.

(** X19: with a title to search for and a body that is an object whose
    [results] is a list, the movie search returns records exactly when every
    hit is an object, every movie or tv hit has a title (or name) that is
    text, and the provider resolution returns for each of these; otherwise
    (a single hit that is not an object, a movie or tv hit whose title is
    not text, provider answers that make the resolution raise) the search
    raises an exception that is not caught, and the records of the other
    hits are lost. *)
Theorem tmdb_results_all_or_nothing (audd_result : dict) (items : list (json hit))
    (get : nat → providers_http) :
  truthy (default (SStr "") (audd_result !! "title")) = true →
  ((∃ rs, _get_tmdb_streaming_availability audd_result (TmdbJson items) get = Ok rs) ↔
     forallb hit_ok items = true ∧ resolved get items) ∧
  (∀ e, _get_tmdb_streaming_availability audd_result (TmdbJson items) get = Raise e →
        caught e = false).
Proof.
  intros Ht. unfold _get_tmdb_streaming_availability, TmdbJson. rewrite Ht.
  cbn [negb dot_get iterate results from_option id mbind res_bind]. split; [split|].
  - intros [rs Hrs]. split.
    + destruct (forallb hit_ok items) eqn:Hok; [done|].
      pose proof (tmdb_items_not_ok get items 0 [] Hok) as Hs. by rewrite Hrs in Hs.
    + intros i h mt Hi Hmt. by apply (tmdb_items_resolved get items 0 [] rs Hrs i h mt).
  - intros [Hok Hres]. pose proof (tmdb_items_ok get items 0 [] Hres Hok) as Hs.
    destruct (tmdb_items get 0 items []) as [rs|e]; [eauto|done].
  - intros e. apply tmdb_items_Raise.
Qed.

Lemma tmdb_results_all_or_nothing_witness :
  let d := rec [("title", SStr "Imagine")] in
  let nameless := Object {| media_type := Some (SStr "tv"); hit_id := Some (SInt 7);
                            poster_path := None; hit_title := None;
                            hit_name := Some SNone |} in
  let get : nat → providers_http :=
    λ _ _ _ _, ProvidersBody (Object {| regions := Some (Object ∅) |}) in
  succeeded (_get_tmdb_streaming_availability d (TmdbJson [nameless]) get) = false ∧
  ∀ e, _get_tmdb_streaming_availability d (TmdbJson [nameless]) get = Raise e →
       caught e = false.
Proof.
  intros d nameless get.
  destruct (tmdb_results_all_or_nothing d [nameless] get eq_refl) as [Hiff Hraise].
  split; [|exact Hraise].
  destruct (_get_tmdb_streaming_availability d (TmdbJson [nameless]) get) as [rs|e] eqn:Hrs;
    [|done].
  destruct (proj1 Hiff (ex_intro _ rs eq_refl)) as [Hok _]. discriminate Hok.
Defined.

End ClientsFacts.

(* ===================================================================== *)
(** ** The endpoint against the three services *)
(* ===================================================================== *)

Section ServeFacts.

Import Upload Clients.

Implicit Types (s : services) (db : database) (file : uploaded_file) (d : dict).

Lemma process_audio_recognises o d :
  recognises o d →
  ∃ rr, _process_audio o = Some rr ∧ result rr = Some (JDict d) ∧
        is_Some (status rr).
Proof.
  intros (rr & -> & Hst & Hres). exists rr. simpl.
  rewrite bool_decide_eq_true_2 by done. rewrite bool_decide_eq_true_2 by (rewrite Hres; eauto).
  rewrite Hst. eauto.
Qed.

Lemma recognised_recognises s d : recognises (fingerprint s) d → recognised s = d.
Proof.
  intros (rr & Hp & Hres & _)%process_audio_recognises. unfold recognised.
  by rewrite Hp, Hres.
Qed.

(** The [try] block once the row is created and the track recognised. *)
Lemma process_created_recognised id (w : world) db1 d :
  recognises (audd w) d →
  process_created id w db1 =
    match youtube w with
    | Raise e => (db1, Raise e)
    | Ok ys =>
        match tmdb w with
        | Raise e => (db1, Raise e)
        | Ok ts =>
            let (h, combined) := _combine_results (OList ys) (OList ts) (objects w) in
            match save_results w h id combined [] db1 with
            | (db2, Raise e) => (db2, Raise e)
            | (db2, Ok rs) =>
                (mark_processed id (elapsed w) db2,
                 Ok {| status_code := HTTP_200_OK;
                       data := ResultsBody id (Round2 (elapsed w)) rs |})
            end
        end
    end.
Proof.
  intros (rr & Hp & Hres & [st Hst])%process_audio_recognises. unfold process_created.
  rewrite Hp, Hres, Hst.
  rewrite (bool_decide_eq_true_2 (is_Some (Some st))) by eauto. cbn [orb negb].
  reflexivity.
Qed.

(** [post] for a valid upload whose row is created and whose track is
    recognised. *)
Lemma serve_recognised (req : request) file s db d :
  FILES_file req = Some file → valid_upload req = true →
  refuses s file = None →
  recognises (fingerprint s) d →
  ∃ id db1,
    (id ∉ (as_id <$> audio_search_rows db)) ∧
    search_result_rows db1 = search_result_rows db ∧
    serve req s db =
      match process_created id (world_of s) db1 with
      | (db', Ok r) => (db', r)
      | (db', Raise e) =>
          (db', {| status_code := HTTP_500_INTERNAL_SERVER_ERROR;
                   data := ErrorBody ("Processing failed: " +:+ exn_str e) |})
      end ∧
    process_created id (world_of s) db1 =
      match outcome 0 (_get_youtube_results d (videos s)) with
      | Raise e => (db1, Raise e)
      | Ok ys =>
          match outcome (length (records (_get_youtube_results d (videos s))))
                  (_get_tmdb_streaming_availability d (movies s) (watch_providers s)) with
          | Raise e => (db1, Raise e)
          | Ok ts =>
              let (h, combined) :=
                _combine_results (OList ys) (OList ts)
                  (objects_of (records (_get_youtube_results d (videos s)) ++
                               records (_get_tmdb_streaming_availability d (movies s)
                                          (watch_providers s)))) in
              match save_results (world_of s) h id combined [] db1 with
              | (db2, Raise e) => (db2, Raise e)
              | (db2, Ok rs) =>
                  (mark_processed id (seconds s) db2,
                   Ok {| status_code := HTTP_200_OK;
                         data := ResultsBody id (Round2 (seconds s)) rs |})
              end
          end
      end.
Proof.
  intros Hfile Hv Hc Hrec. unfold serve.
  rewrite (post_valid req file _ db Hfile Hv).
  unfold process, create_audio_search. cbn [world_of create_error audio_search_skip].
  rewrite Hc.
  set (id := next_id (audio_search_gap s) (as_id <$> audio_search_rows db)).
  eexists id, _. split; [|split; [|split; [reflexivity|]]].
  - intros Hin%(next_id_fresh _ (audio_search_gap s)). unfold id in Hin. lia.
  - reflexivity.
  - rewrite (process_created_recognised id (world_of s) _ d) by done.
    unfold world_of. cbn [youtube tmdb objects elapsed].
    by rewrite (recognised_recognises s d Hrec).
Qed.

(** X20: when the upload is valid, its row is created, the track is
    recognised and each client has nothing to give, because its request
    fails or because there is nothing to search for (an empty query for the
    videos, a falsy title for the movies), the endpoint still answers 200,
    with no results, and saves no result row.  (A query that [strip] leaves
    empty is made of ASCII white space and is empty for [str.strip] too.) *)
Theorem serve_enrichment_failures (req : request) file s db d :
  FILES_file req = Some file → valid_upload req = true →
  refuses s file = None →
  recognises (fingerprint s) d →
  ((∃ e, videos s = YoutubeFailed e) ∨ youtube_query d = "") →
  ((∃ e, movies s = TmdbFailed e) ∨ truthy (default (SStr "") (d !! "title")) = false) →
  status_code (snd (serve req s db)) = 200 ∧
  (∃ sid t, data (snd (serve req s db)) = ResultsBody sid t []) ∧
  search_result_rows (fst (serve req s db)) = search_result_rows db.
Proof.
  intros Hfile Hv Hc Hrec Hy Ht.
  destruct (serve_recognised req file s db d Hfile Hv Hc Hrec)
    as (id & db1 & _ & Hrows & -> & ->).
  assert (_get_youtube_results d (videos s) = Ok []) as ->.
  { unfold _get_youtube_results. destruct Hy as [[e ->]| ->]; [|done].
    by destruct (String.eqb _ _). }
  assert (_get_tmdb_streaming_availability d (movies s) (watch_providers s) = Ok []) as ->.
  { unfold _get_tmdb_streaming_availability. destruct Ht as [[e ->]| ->]; [|done].
    by destruct (negb _). }
  cbn. rewrite Hrows. eauto.
Qed.

Lemma serve_enrichment_failures_witness :
  let file := {| name := "clip.mp3"; content_type := "audio/mpeg"; size := 2097152 |} in
  let s := {| fingerprint := HttpResponse 200 (JsonObject
                {| status := Some (SStr "success");
                   result := Some (JDict (rec [("artist", SStr "John Lennon")]));
                   more_keys := false |});
              videos := YoutubeFailed (RequestException "403 Client Error");
              movies := TmdbJson [];
              watch_providers := λ _ _ _ _, ProvidersBody (Object {| regions := None |});
              seconds := 1; refuses := λ _, None; rejects := λ _, None;
              audio_search_gap := 0; search_result_gap := λ _, 0%nat |} in
  let db := {| search_result_rows := []; audio_search_rows := [] |} in
  status_code (snd (serve {| FILES_file := Some file |} s db)) = 200.
Proof.
  intros file s db.
  apply (serve_enrichment_failures {| FILES_file := Some file |} file s db
           (rec [("artist", SStr "John Lennon")]) eq_refl eq_refl eq_refl).
  - eexists. by repeat split.
  - left. by eexists.
  - right. reflexivity.
Defined.

(** X21: when the upload is valid, its row is created, the track is
    recognised with a title and an artist that are ASCII text, and one of
    the two clients raises (a malformed item makes the video search raise, a
    hit without a text title the movie search), the endpoint answers 500
    with the text of the exception after [Processing failed: ] and saves no
    result row. *)
Theorem serve_client_raises (req : request) file s db d e :
  FILES_file req = Some file → valid_upload req = true →
  refuses s file = None →
  recognises (fingerprint s) d →
  ascii_text (query_text d) = true →
  (_get_youtube_results d (videos s) = Raise e ∨
   (∃ ys, _get_youtube_results d (videos s) = Ok ys) ∧
   _get_tmdb_streaming_availability d (movies s) (watch_providers s) = Raise e) →
  snd (serve req s db)
    = {| status_code := 500; data := ErrorBody ("Processing failed: " +:+ exn_str e) |} ∧
  search_result_rows (fst (serve req s db)) = search_result_rows db.
Proof.
  intros Hfile Hv Hc Hrec _ Hraise.
  destruct (serve_recognised req file s db d Hfile Hv Hc Hrec)
    as (id & db1 & _ & Hrows & -> & ->).
  destruct Hraise as [->|[[ys ->] ->]]; by cbn.
Qed.

Lemma serve_client_raises_witness :
  let file := {| name := "clip.mp3"; content_type := "audio/mpeg"; size := 2097152 |} in
  let s := {| fingerprint := HttpResponse 200 (JsonObject
                {| status := Some (SStr "success");
                   result := Some (JDict (rec [("title", SStr "Imagine")]));
                   more_keys := false |});
              videos := YoutubeJson
                [ Object {| video_id := Some (Object None); video_snippet := None |} ];
              movies := TmdbJson [];
              watch_providers := λ _ _ _ _, ProvidersBody (Object {| regions := None |});
              seconds := 1; refuses := λ _, None; rejects := λ _, None;
              audio_search_gap := 0; search_result_gap := λ _, 0%nat |} in
  let db := {| search_result_rows := []; audio_search_rows := [] |} in
  snd (serve {| FILES_file := Some file |} s db)
    = {| status_code := 500; data := ErrorBody "Processing failed: 'videoId'" |}.
Proof.
  intros file s db.
  apply (serve_client_raises {| FILES_file := Some file |} file s db
           (rec [("title", SStr "Imagine")]) (KeyError "'videoId'") eq_refl eq_refl eq_refl).
  - eexists. by repeat split.
  - reflexivity.
  - left. vm_compute. reflexivity.
Defined.

(** *** References and the records they denote *)

Lemma references_cons b d ds : references b (d :: ds) = IDict b :: references (S b) ds.
Proof. done. Qed.

Lemma wf_references h : ∀ ds b,
  (∀ k, h !! (b + k)%nat = ds !! k ∨ ds !! k = None) →
  forallb record_ok ds = true →
  wf_list h (references b ds) = true.
Proof.
  induction ds as [|d ds IH]; intros b Hh Hok; [done|].
  apply andb_true_iff in Hok as [Hd Hds]. rewrite references_cons.
  apply andb_true_iff. split.
  - destruct (Hh 0%nat) as [Hb|]; [|done]. rewrite Nat.add_0_r in Hb. simpl in Hb.
    unfold wf_item, field. rewrite Hb. simpl. exact Hd.
  - apply IH; [|done]. intros k. specialize (Hh (S k)).
    by rewrite Nat.add_succ_r in Hh.
Qed.

Lemma denote_references h : ∀ ds b,
  (∀ k, h !! (b + k)%nat = ds !! k ∨ ds !! k = None) →
  denote h (references b ds) = ds.
Proof.
  induction ds as [|d ds IH]; intros b Hh; [done|].
  rewrite references_cons. unfold denote. cbn [omap list_omap].
  destruct (Hh 0%nat) as [Hb|]; [|done]. rewrite Nat.add_0_r in Hb. simpl in Hb.
  rewrite Hb. f_equal. apply IH. intros k. specialize (Hh (S k)).
  by rewrite Nat.add_succ_r in Hh.
Qed.

Lemma seen_titles_references h : ∀ ds b,
  (∀ k, h !! (b + k)%nat = ds !! k ∨ ds !! k = None) →
  seen_titles h (references b ds) = seen_of ds.
Proof.
  induction ds as [|d ds IH]; intros b Hh; [done|].
  rewrite references_cons. simpl.
  destruct (Hh 0%nat) as [Hb|]; [|done]. rewrite Nat.add_0_r in Hb. simpl in Hb.
  unfold record_title, field, title_of. rewrite Hb. simpl.
  rewrite (IH (S b)); [done|]. intros k. specialize (Hh (S k)).
  by rewrite Nat.add_succ_r in Hh.
Qed.

Lemma append_unseen_references h : ∀ ds b seen,
  (∀ k, h !! (b + k)%nat = ds !! k ∨ ds !! k = None) →
  denote h (append_unseen h seen (references b ds)) = unseen seen ds.
Proof.
  induction ds as [|d ds IH]; intros b seen Hh; [done|].
  rewrite references_cons. simpl.
  destruct (Hh 0%nat) as [Hb|]; [|done]. rewrite Nat.add_0_r in Hb. simpl in Hb.
  assert (∀ k, h !! (S b + k)%nat = ds !! k ∨ ds !! k = None) as Hh'.
  { intros k. specialize (Hh (S k)). by rewrite Nat.add_succ_r in Hh. }
  unfold record_title, field, title_of. rewrite Hb. simpl.
  destruct (d !! "title") as [[| | |t]|]; try by apply IH.
  destruct (String.eqb t ""); [by apply IH|].
  destruct (bool_decide (normalize t ∈ seen)); [by apply IH|].
  unfold denote. cbn [omap list_omap]. rewrite Hb. f_equal. by apply IH.
Qed.

Lemma with_placeholder_idemp d : with_placeholder (with_placeholder d) = with_placeholder d.
Proof.
  assert (with_placeholder d
          = if thumbnail_invalid d then <["thumbnail_url" := SStr default_thumbnail]> d else d)
    as Hd by done.
  destruct (thumbnail_invalid d) eqn:Hinv; rewrite Hd.
  - apply with_placeholder_id. rewrite lookup_insert_eq. apply default_thumbnail_valid.
  - unfold with_placeholder. by rewrite Hinv.
Qed.

(** The store after the thumbnail policy went over [xs], record by record. *)
Lemma placeholders_lookup xs : ∀ h (l : nat),
  placeholders xs h !! l =
    if bool_decide (IDict l ∈ xs) then with_placeholder <$> h !! l else h !! l.
Proof.
  induction xs as [|x xs IH]; intros h l; [done|].
  change (placeholders (x :: xs) h) with (placeholders xs (placeholder_at h x)).
  rewrite IH. destruct x as [l'|v]; simpl.
  - rewrite lookup_alter. destruct (decide (l' = l)) as [->|Hne].
    + rewrite (bool_decide_eq_true_2 (IDict l ∈ IDict l :: xs)) by set_solver.
      destruct (bool_decide (IDict l ∈ xs)); [|done].
      rewrite <- option_fmap_compose. apply option_fmap_ext. intros d. simpl.
      apply with_placeholder_idemp.
    + assert (IDict l ∈ IDict l' :: xs ↔ IDict l ∈ xs) as Hiff.
      { rewrite elem_of_cons. split; [intros [[= ->]|]; done|by right]. }
      by rewrite (bool_decide_ext _ _ Hiff).
  - assert (IDict l ∈ IOther v :: xs ↔ IDict l ∈ xs) as Hiff.
    { rewrite elem_of_cons. split; [intros [[=]|]; done|by right]. }
    by rewrite (bool_decide_ext _ _ Hiff).
Qed.

Lemma denote_placeholders xs h :
  ∀ zs, zs ⊆ xs → denote (placeholders xs h) zs = with_placeholder <$> denote h zs.
Proof.
  induction zs as [|z zs IH]; intros Hsub; [done|].
  unfold denote. cbn [omap list_omap]. fold (denote (placeholders xs h) zs).
  fold (denote h zs). rewrite IH by set_solver. destruct z as [l|v]; [|done].
  rewrite placeholders_lookup. rewrite bool_decide_eq_true_2 by set_solver.
  by destruct (h !! l).
Qed.

(** The saving loop when the database takes every row: one row per record
    with a url, in order, each under an id that no row held before it. *)
Lemma save_results_all (w : world) h id :
  (∀ r, insert_error w r = None) →
  ∀ xs acc db,
    Forall (λ x, ∃ l, x = IDict l ∧ is_Some (h !! l)) xs →
    ∃ db' ids,
      save_results w h id xs acc db
        = (db', Ok (acc ++ rows_of ids (filter (λ r, with_url r = true) (denote h xs)))) ∧
      search_result_rows db'
        = search_result_rows db ++
            rows_of ids (filter (λ r, with_url r = true) (denote h xs)) ∧
      length ids = length (filter (λ r, with_url r = true) (denote h xs)) ∧
      Forall (λ i, ∀ j, j ∈ sr_id <$> search_result_rows db → (j < i)%nat) ids ∧
      NoDup ids.
Proof.
  intros Haccept. induction xs as [|x xs IH]; intros acc db Hlive.
  - exists db, []. simpl. rewrite !app_nil_r. repeat split; [done|constructor].
  - inversion Hlive as [|? ? (l & -> & [d Hd]) Hxs]; subst.
    cbn [save_results]. unfold get. rewrite (get_default_live l d "url" SNone h Hd).
    unfold denote. cbn [omap list_omap]. rewrite Hd. cbn [mbind option_bind].
    fold (denote h xs).
    destruct (truthy (default SNone (d !! "url"))) eqn:Hu; cbn [negb].
    + rewrite filter_cons_True by done.
      change (default ∅ (Some d)) with d. rewrite Haccept.
      set (id0 := next_id (search_result_skip w (length acc))
                    (sr_id <$> search_result_rows db)).
      set (row := row_of id0 d).
      set (db1 := add_result id (sr_id row)
                    {| search_result_rows := search_result_rows db ++ [row];
                       audio_search_rows := audio_search_rows db |}).
      destruct (IH (acc ++ [row]) db1 Hxs) as (db' & ids & Hsave & Hrows & Hlen & Hids & Hnd).
      assert (sr_id <$> search_result_rows db1 = (sr_id <$> search_result_rows db) ++ [id0])
        as Hids1.
      { unfold db1. rewrite add_result_rows. cbn [search_result_rows].
        by rewrite fmap_app. }
      rewrite Hids1 in Hids.
      exists db', (id0 :: ids). unfold rows_of in *. cbn [zip_with].
      fold row. rewrite Hsave, Hrows. unfold db1. rewrite add_result_rows.
      cbn [search_result_rows]. rewrite <- !app_assoc. cbn [app length].
      split; [done|]. split; [done|]. split; [by rewrite Hlen|]. split.
      * constructor.
        -- intros j Hj. by apply next_id_fresh.
        -- eapply Forall_impl; [exact Hids|]. intros i Hi j Hj. apply Hi.
           apply elem_of_app. by left.
      * constructor; [|done]. intros Hin. rewrite Forall_forall in Hids.
        specialize (Hids id0 Hin id0). assert (id0 < id0)%nat; [|lia].
        apply Hids. apply elem_of_app. right. by apply list_elem_of_here.
    + rewrite filter_cons_False by (unfold with_url; by rewrite Hu). by apply IH.
Qed.

Lemma wf_list_live h xs :
  wf_list h xs = true → Forall (λ x, ∃ l, x = IDict l ∧ is_Some (h !! l)) xs.
Proof.
  rewrite wf_list_Forall. intros Hwf. eapply Forall_impl; [exact Hwf|].
  intros x (l & d & -> & Hl & _)%wf_item_inv. eauto.
Qed.

(** A record of text can go through the merger. *)
Lemma text_record_ok (d : dict) : text_record d = true → record_ok d = true.
Proof.
  unfold text_record, record_ok. rewrite forallb_forall. intros Hd.
  assert (∀ key, field_ok (d !! key) = true) as Hkey; [|by rewrite !Hkey].
  intros key. destruct (d !! key) as [v|] eqn:Hv; [|done].
  assert (text_or_none v = true) as Hv'.
  { apply Hd. apply list_elem_of_In. apply list_elem_of_fmap. exists (key, v).
    split; [done|]. by apply elem_of_map_to_list. }
  by destruct v.
Qed.

Lemma text_records_ok (ds : list dict) :
  forallb text_record ds = true → forallb record_ok ds = true.
Proof.
  rewrite !forallb_forall. intros H d Hd. apply text_record_ok. by apply H.
Qed.

(** The merger on the references of the two clients' records. *)
Lemma combine_results_references (ys ts : list dict) :
  forallb record_ok ys = true → forallb record_ok ts = true →
  ∃ h xs,
    _combine_results (OList (references 0 ys)) (OList (references (length ys) ts))
      (objects_of (ys ++ ts)) = (h, xs) ∧
    Forall (λ x, ∃ l, x = IDict l ∧ is_Some (h !! l)) xs ∧
    denote h xs = merged ys ts.
Proof.
  intros Hys Hts. set (h := objects_of (ys ++ ts)).
  assert (∀ k, h !! (0 + k)%nat = ys !! k ∨ ys !! k = None) as Hy.
  { intros k. unfold h, objects_of. rewrite lookup_map_seq_0. simpl.
    destruct (ys !! k) as [d|] eqn:Hk; [left|by right].
    by rewrite (lookup_app_l_Some _ _ _ _ Hk). }
  assert (∀ k, h !! (length ys + k)%nat = ts !! k ∨ ts !! k = None) as Ht.
  { intros k. left. unfold h, objects_of. rewrite lookup_map_seq_0.
    rewrite lookup_app_r by lia. f_equal. lia. }
  pose proof (wf_references h ys 0 Hy Hys) as Hwfy.
  pose proof (wf_references h ts (length ys) Ht Hts) as Hwft.
  set (Y := references 0 ys) in *. set (T := references (length ys) ts) in *.
  exists (placeholders (merge_spec h Y T) h), (merge_spec h Y T). split; [|split].
  - unfold _combine_results. by rewrite (combine_lists_wf h Y T Hwfy Hwft).
  - apply wf_list_live. apply wf_list_placeholders. by apply wf_list_merge_spec.
  - rewrite denote_placeholders by done. unfold merged. f_equal.
    unfold merge_spec, denote. rewrite omap_app.
    fold (denote h Y). fold (denote h (append_unseen h (seen_titles h Y) T)).
    unfold Y at 1. rewrite (denote_references h ys 0 Hy).
    unfold Y, T. rewrite (seen_titles_references h ys 0 Hy).
    by rewrite (append_unseen_references h ts (length ys) _ Ht).
Qed.

(** X22: the success path, end to end.  When the upload is valid, its row is
    created, the track is recognised with a title and an artist that are
    ASCII text, both clients return records, the values of these records
    are text or None and their titles ASCII, and the database takes every
    row, the endpoint answers 200 with the id of the
    new [AudioSearch] row, which the table did not hold, and, as results,
    one row per merged record that has a url, in the order of the merge (the
    videos, then the movie hits with a new title), under ids that are
    distinct and new to the table; these are the rows it adds to the
    table. *)
Theorem serve_success (req : request) file s db d (ys ts : list dict) :
  FILES_file req = Some file → valid_upload req = true →
  refuses s file = None →
  recognises (fingerprint s) d →
  ascii_text (query_text d) = true →
  _get_youtube_results d (videos s) = Ok ys →
  _get_tmdb_streaming_availability d (movies s) (watch_providers s) = Ok ts →
  forallb text_record (ys ++ ts) = true →
  forallb ascii_title (ys ++ ts) = true →
  (∀ r, rejects s r = None) →
  let saved := filter (λ r, with_url r = true) (merged ys ts) in
  ∃ sid ids,
    (sid ∉ (as_id <$> audio_search_rows db)) ∧
    length ids = length saved ∧
    NoDup ids ∧
    (∀ i, i ∈ ids → i ∉ (sr_id <$> search_result_rows db)) ∧
    snd (serve req s db)
      = {| status_code := 200;
           data := ResultsBody sid (Round2 (seconds s)) (rows_of ids saved) |} ∧
    search_result_rows (fst (serve req s db)) = search_result_rows db ++ rows_of ids saved.
Proof.
  intros Hfile Hv Hc Hrec _ Hy Ht Htext _ Haccept saved.
  destruct (serve_recognised req file s db d Hfile Hv Hc Hrec)
    as (id & db1 & Hfresh & Hdb1 & -> & ->).
  rewrite Hy, Ht. cbn [outcome records].
  rewrite forallb_app in Htext. apply andb_true_iff in Htext as [Hys Hts].
  apply text_records_ok in Hys, Hts.
  destruct (combine_results_references ys ts Hys Hts) as (h & xs & -> & Hlive & Hden).
  destruct (save_results_all (world_of s) h id Haccept xs [] db1 Hlive)
    as (db' & ids & Hsave & Hrows & Hlen & Hids & Hnd).
  rewrite Hsave. rewrite Hden, Hdb1 in *. cbn [fst snd app].
  exists id, ids. split; [done|]. split; [done|]. split; [done|]. split; [|split].
  - intros i Hi Hin. rewrite Forall_forall in Hids. specialize (Hids i Hi i Hin). lia.
  - reflexivity.
  - unfold mark_processed, update_audio_search. cbn [search_result_rows]. exact Hrows.
Qed.

Lemma serve_success_witness :
  let file := {| name := "clip.mp3"; content_type := "audio/mpeg"; size := 2097152 |} in
  let track := rec [("title", SStr "Imagine"); ("artist", SStr "John Lennon")] in
  let clip := Object
                {| video_id := Some (Object (Some (SStr "YkgkThdzX-8")));
                   video_snippet := Some (Object
                     {| snippet_title := Some (SStr "Imagine");
                        thumbnails := None;
                        channelTitle := Some (SStr "johnlennon") |}) |} in
  let same := Object {| media_type := Some (SStr "movie"); hit_id := Some (SInt 1);
                        poster_path := None; hit_title := Some (SStr "IMAGINE ");
                        hit_name := None |} in
  let other := Object {| media_type := Some (SStr "tv"); hit_id := Some (SInt 2);
                         poster_path := None; hit_title := None;
                         hit_name := Some (SStr "Imagine That") |} in
  let s := {| fingerprint := HttpResponse 200 (JsonObject
                {| status := Some (SStr "success"); result := Some (JDict track);
                   more_keys := false |});
              videos := YoutubeJson [clip];
              movies := TmdbJson [same; other];
              watch_providers := λ _ _ _ _, ProvidersBody (Object {| regions := None |});
              seconds := 1; refuses := λ _, None; rejects := λ _, None;
              audio_search_gap := 2; search_result_gap := λ _, 1%nat |} in
  let db := {| search_result_rows := []; audio_search_rows := [] |} in
  length (search_result_rows (fst (serve {| FILES_file := Some file |} s db))) = 1%nat.
Proof.
  intros file track clip same other s db.
  set (ys := records (_get_youtube_results track (videos s))).
  set (ts := records (_get_tmdb_streaming_availability track (movies s) (watch_providers s))).
  assert (_get_youtube_results track (videos s) = Ok ys) as Hy
    by (apply succeeded_records; vm_compute; reflexivity).
  assert (_get_tmdb_streaming_availability track (movies s) (watch_providers s) = Ok ts)
    as Ht by (apply succeeded_records; vm_compute; reflexivity).
  assert (forallb text_record (ys ++ ts) = true) as Htext by (vm_compute; reflexivity).
  assert (forallb ascii_title (ys ++ ts) = true) as Hascii by (vm_compute; reflexivity).
  assert (recognises (fingerprint s) track) as Hrec by (eexists; by repeat split).
  destruct (serve_success {| FILES_file := Some file |} file s db track ys ts
              eq_refl eq_refl eq_refl Hrec eq_refl Hy Ht Htext Hascii (λ _, eq_refl))
    as (sid & ids & _ & Hlen & _ & _ & _ & Hrows).
  rewrite Hrows. unfold rows_of. rewrite length_app, length_zip_with, Hlen.
  vm_compute. reflexivity.
Defined.

End ServeFacts.
